(** * The 8-puzzle solver of [puzzlesolver.py], embedded and verified

    The Python class [EightPuzzle] is translated method by method.  A puzzle
    state is a Python list of rows, each a list of integers, so it is a
    [list (list Z)] here; every list access goes through [getitem], which
    follows Python's indexing rules and raises [IndexError] out of range.
    Methods return a [result]: a value, a raised exception, or (for the
    [while] loops, which are run on fuel) the information that the fuel ran
    out before the loop ended. *)

From stdpp Require Import gmap strings list pretty.
From Stdlib Require Import ZArith Lia Floats.

Local Open Scope Z_scope.

#[local] Set Warnings "-inexact-float,-clear-no-such-hyp".

(** ** Results of Python calls *)

Inductive exn : Set :=
  | IndexError
  | TypeError
  | ValueError
  | ZeroDivisionError
  | OverflowError.

Inductive result (A : Type) : Type :=
  | Ret (a : A)
  | Raise (e : exn)
  | OutOfFuel.

Arguments Ret {A} a.
Arguments Raise {A} e.
Arguments OutOfFuel {A}.

Global Instance result_bind : MBind result := λ A B f m,
  match m with
  | Ret a => f a
  | Raise e => Raise e
  | OutOfFuel => OutOfFuel
  end.

Global Instance result_ret : MRet result := λ A a, Ret a.

(** A [for x in l: s = body(s, x)] loop whose body may raise. *)
Fixpoint for_each {A S : Type} (body : S → A → result S) (l : list A) (s : S)
  : result S :=
  match l with
  | [] => Ret s
  | x :: l' => s' ← body s x; for_each body l' s'
  end.

(** ** Python lists *)

(** [l[i]]: a negative index counts from the end. *)
Definition norm_index {A : Type} (l : list A) (i : Z) : Z :=
  if i <? 0 then i + Z.of_nat (length l) else i.

Definition getitem {A : Type} (l : list A) (i : Z) : result A :=
  let k := norm_index l i in
  if (0 <=? k) && (k <? Z.of_nat (length l)) then
    match l !! Z.to_nat k with
    | Some x => Ret x
    | None => Raise IndexError
    end
  else Raise IndexError.

(** [l[i] = x] *)
Definition setitem {A : Type} (l : list A) (i : Z) (x : A) : result (list A) :=
  let k := norm_index l i in
  if (0 <=? k) && (k <? Z.of_nat (length l)) then Ret (<[Z.to_nat k := x]> l)
  else Raise IndexError.

(** [range(n)] *)
Definition range (n : Z) : list Z := seqZ 0 n.

(** ** The state model *)

Definition state : Type := list (list Z).

Definition goal_state : state := [[1; 2; 3]; [4; 5; 6]; [7; 8; 0]].

(** [state[i][j]] *)
Definition getcell (st : state) (i j : Z) : result Z :=
  row ← getitem st i; getitem row j.

(** [state[i][j] = x]: the row object is fetched, then updated in place. *)
Definition setcell (st : state) (i j : Z) (x : Z) : result state :=
  row ← getitem st i; row' ← setitem row j x; setitem st i row'.

(** The cells in the order of [for i in range(3): for j in range(3)]. *)
Definition grid_cells : list (Z * Z) :=
  concat (map (λ i, map (λ j, (i, j)) (range 3)) (range 3)).

(** [get_blank_position]: the first cell equal to 0 in scan order, or
    [None] after the loops. *)
Fixpoint find_blank (st : state) (cells : list (Z * Z))
  : result (option (Z * Z)) :=
  match cells with
  | [] => Ret None
  | (i, j) :: rest =>
      x ← getcell st i j;
      if x =? 0 then Ret (Some (i, j)) else find_blank st rest
  end.

Definition get_blank_position (st : state) : result (option (Z * Z)) :=
  find_blank st grid_cells.

(** The body of the loop over [moves] in [get_neighbors]. *)
Definition try_move (st : state) (i j : Z) (neighbors : list state)
    (move : Z * Z) : result (list state) :=
  let '(move_i, move_j) := move in
  if (0 <=? move_i) && (move_i <? 3) && (0 <=? move_j) && (move_j <? 3) then
    let new_state := st in
    v1 ← getcell new_state move_i move_j;
    v2 ← getcell new_state i j;
    new_state ← setcell new_state i j v1;
    new_state ← setcell new_state move_i move_j v2;
    Ret (neighbors ++ [new_state])
  else Ret neighbors.

(** [get_neighbors]: unpacking [None] into [i, j] raises [TypeError]. *)
Definition get_neighbors (st : state) : result (list state) :=
  pos ← get_blank_position st;
  match pos with
  | None => Raise TypeError
  | Some (i, j) =>
      let moves := [(i - 1, j); (i + 1, j); (i, j - 1); (i, j + 1)] in
      for_each (try_move st i j) moves []
  end.

(** [is_goal]: Python's structural equality of nested lists. *)
Definition is_goal (st : state) : bool := bool_decide (st = goal_state).

(** [state_to_string]: [str] of every cell, joined without separator. *)
Definition str (x : Z) : string := pretty x.

Definition state_to_string (st : state) : string :=
  String.concat "" (map (λ row, String.concat "" (map str row)) st).

(** The body of the double loop in [manhattan_distance]. *)
Definition add_cell_distance (st : state) (distance : Z) (cell : Z * Z)
  : result Z :=
  let '(i, j) := cell in
  x ← getcell st i j;
  if negb (x =? 0) then
    let goal_i := (x - 1) `div` 3 in
    let goal_j := (x - 1) `mod` 3 in
    Ret (distance + (Z.abs (i - goal_i) + Z.abs (j - goal_j)))
  else Ret distance.

Definition manhattan_distance (st : state) : result Z :=
  for_each (add_cell_distance st) grid_cells 0.

(** ** Breadth-first search *)

(** The body of [for neighbor in self.get_neighbors(state)] in [solve_bfs]:
    the queue is a deque used first-in first-out, [visited] a set of keys. *)
Definition bfs_visit (path : list state)
    (acc : list (state * list state) * gset string) (neighbor : state)
  : list (state * list state) * gset string :=
  let '(queue, visited) := acc in
  let neighbor_str := state_to_string neighbor in
  if bool_decide (neighbor_str ∈ visited) then (queue, visited)
  else (queue ++ [(neighbor, path ++ [neighbor])], {[neighbor_str]} ∪ visited).

(** The [while queue:] loop; one unit of fuel per iteration.  [Ret None] is
    the [return None] after the loop. *)
Fixpoint bfs_loop (fuel : nat) (queue : list (state * list state))
    (visited : gset string) : result (option (list state)) :=
  match queue with
  | [] => Ret None
  | (st, path) :: queue =>
      match fuel with
      | O => OutOfFuel
      | S fuel =>
          if is_goal st then Ret (Some path)
          else
            neighbors ← get_neighbors st;
            let '(queue, visited) :=
              foldl (bfs_visit path) (queue, visited) neighbors in
            bfs_loop fuel queue visited
      end
  end.

Definition solve_bfs (fuel : nat) (initial_state : state)
  : result (option (list state)) :=
  bfs_loop fuel [(initial_state, [])] {[state_to_string initial_state]}.

(** ** Bidirectional search *)

(** The body of the two neighbour loops of [solve_bidirectional]; [visited]
    is a dict from keys to paths. *)
Definition bidir_visit (path : list state)
    (acc : list (state * list state) * gmap string (list state))
    (neighbor : state)
  : list (state * list state) * gmap string (list state) :=
  let '(queue, visited) := acc in
  let neighbor_str := state_to_string neighbor in
  match visited !! neighbor_str with
  | Some _ => (queue, visited)
  | None =>
      (queue ++ [(neighbor, path ++ [neighbor])],
       <[neighbor_str := path ++ [neighbor]]> visited)
  end.

(** The [while forward_queue and backward_queue:] loop. *)
Fixpoint bidir_loop (fuel : nat)
    (forward_queue : list (state * list state))
    (forward_visited : gmap string (list state))
    (backward_queue : list (state * list state))
    (backward_visited : gmap string (list state))
  : result (option (list state)) :=
  match forward_queue, backward_queue with
  | (st, path) :: forward_queue, (bst, bpath) :: backward_queue =>
      match fuel with
      | O => OutOfFuel
      | S fuel =>
          (* forward search step *)
          match backward_visited !! state_to_string st with
          | Some backward_path => Ret (Some (path ++ reverse backward_path))
          | None =>
              neighbors ← get_neighbors st;
              let '(forward_queue, forward_visited) :=
                foldl (bidir_visit path) (forward_queue, forward_visited)
                  neighbors in
              (* backward search step *)
              match forward_visited !! state_to_string bst with
              | Some forward_path =>
                  Ret (Some (forward_path ++ reverse bpath))
              | None =>
                  neighbors ← get_neighbors bst;
                  let '(backward_queue, backward_visited) :=
                    foldl (bidir_visit bpath)
                      (backward_queue, backward_visited) neighbors in
                  bidir_loop fuel forward_queue forward_visited
                    backward_queue backward_visited
              end
          end
      end
  | _, _ => Ret None
  end.

Definition solve_bidirectional (fuel : nat) (initial_state : state)
  : result (option (list state)) :=
  bidir_loop fuel
    [(initial_state, [])] {[state_to_string initial_state := []]}
    [(goal_state, [])] {[state_to_string goal_state := []]}.

(** ** Simulated annealing *)

(** Python floats are IEEE binary64 numbers, as are Rocq's primitive floats.
    [float_of_int] is the conversion of an int operand of a float operation;
    it is exact below 2^53, far above any energy of a 3x3 grid. *)
Definition float_of_int (n : Z) : float :=
  match n with
  | Z0 => PrimFloat.zero
  | Zpos _ => PrimFloat.of_uint63 (Uint63.of_Z n)
  | Zneg _ => PrimFloat.opp (PrimFloat.of_uint63 (Uint63.of_Z (- n)))
  end.

(** [n / t] with an int [n] and a float [t]. *)
Definition int_div_float (n : Z) (t : float) : result float :=
  if PrimFloat.is_zero t then Raise ZeroDivisionError
  else Ret (PrimFloat.div (float_of_int n) t).

Record annealing : Type := Annealing {
  current_state : state;
  current_energy : Z;
  best_state : state;
  best_energy : Z;
  temperature : float;
  path : list state
}.

Section simulated_annealing.
(** The sources of randomness and the C library's [exp] are parameters:
    [random_below k n] is the index drawn by the [random.choice] of
    iteration [k] among [n] elements, [random_random k] the number drawn by
    the [random.random()] of iteration [k]. *)
Variable random_below : nat → nat → nat.
Variable random_random : nat → float.
Variable libm_exp : float → float.

(** [random.choice(seq)] *)
Definition random_choice {A : Type} (k : nat) (seq : list A) : result A :=
  match seq with
  | [] => Raise IndexError
  | _ =>
      getitem seq
        (Z.of_nat (Nat.modulo (random_below k (length seq)) (length seq)))
  end.

(** [math.exp(x)]: CPython reports a NaN result of a non-NaN argument as
    [ValueError] and an infinite result of a finite argument as
    [OverflowError]. *)
Definition math_exp (x : float) : result float :=
  let r := libm_exp x in
  if PrimFloat.is_nan r && negb (PrimFloat.is_nan x) then Raise ValueError
  else if PrimFloat.is_infinity r && PrimFloat.is_finite x
       then Raise OverflowError
  else Ret r.

(** The acceptance test of one iteration. *)
Definition anneal_accept (iteration : nat) (s : annealing)
    (next_state : state) (next_energy : Z) : result annealing :=
  if next_energy <? current_energy s then
    (* accept better state *)
    let s := Annealing next_state next_energy (best_state s) (best_energy s)
               (temperature s) (path s ++ [next_state]) in
    if current_energy s <? best_energy s then
      Ret (Annealing (current_state s) (current_energy s)
             (current_state s) (current_energy s)
             (temperature s) (path s))
    else Ret s
  else
    (* accept worse state with a probability based on temperature *)
    let delta_energy := next_energy - current_energy s in
    x ← int_div_float (- delta_energy) (temperature s);
    acceptance_probability ← math_exp x;
    if PrimFloat.ltb (random_random iteration) acceptance_probability then
      Ret (Annealing next_state next_energy (best_state s) (best_energy s)
             (temperature s) (path s ++ [next_state]))
    else Ret s.

(** Cooling, and the restart from the best state. *)
Definition anneal_cool (initial_temp cooling_rate : float) (s : annealing)
  : annealing :=
  let temperature := PrimFloat.mul (temperature s) cooling_rate in
  if PrimFloat.ltb temperature 0.01%float then
    Annealing (best_state s) (best_energy s) (best_state s) (best_energy s)
      (PrimFloat.mul initial_temp 0.5%float) (path s)
  else
    Annealing (current_state s) (current_energy s) (best_state s)
      (best_energy s) temperature (path s).

(** The body of the [for] loop after its goal test. *)
Definition anneal_step (initial_temp cooling_rate : float)
    (iteration : nat) (s : annealing) : result annealing :=
  neighbors ← get_neighbors (current_state s);
  next_state ← random_choice iteration neighbors;
  next_energy ← manhattan_distance next_state;
  s ← anneal_accept iteration s next_state next_energy;
  Ret (anneal_cool initial_temp cooling_rate s).

(** [for iteration in range(max_iterations)], with the [return path] inside
    it and the one after it. *)
Fixpoint anneal_loop (initial_temp cooling_rate : float)
    (iterations : list nat) (s : annealing) : result (option (list state)) :=
  match iterations with
  | [] => Ret (Some (path s))
  | iteration :: iterations =>
      if current_energy s =? 0 then Ret (Some (path s))
      else
        s ← anneal_step initial_temp cooling_rate iteration s;
        anneal_loop initial_temp cooling_rate iterations s
  end.

Definition solve_simulated_annealing (max_iterations : Z)
    (initial_temp cooling_rate : float) (initial_state : state)
  : result (option (list state)) :=
  current_energy ← manhattan_distance initial_state;
  anneal_loop initial_temp cooling_rate (seq 0 (Z.to_nat max_iterations))
    (Annealing initial_state current_energy initial_state current_energy
       initial_temp [initial_state]).
End simulated_annealing.

(** ** Well-formed configurations *)

Definition shape_3x3 (st : state) : Prop :=
  length st = 3%nat ∧ Forall (λ row, length row = 3%nat) st.

(** A configuration: a 3x3 grid whose cells are a permutation of 0..8. *)
Definition valid_state (st : state) : Prop :=
  shape_3x3 st ∧ concat st ≡ₚ seqZ 0 9.

(** The eight numbered tiles, in reading order around the blank. *)
Definition tiles (l : list Z) : Prop := l ≡ₚ seqZ 1 8.

(** The graph of [get_neighbors] on configurations, one rule per position of
    the blank; the neighbours are listed in the order up, down, left, right
    of the moves that stay on the board. *)
Inductive neighbors_of : state → Z * Z → list state → Prop :=
  | nb_00 a b c d e f g h :
      tiles [a; b; c; d; e; f; g; h] →
      neighbors_of [[0; a; b]; [c; d; e]; [f; g; h]] (0, 0)
        [ [[c; a; b]; [0; d; e]; [f; g; h]];
          [[a; 0; b]; [c; d; e]; [f; g; h]] ]
  | nb_01 a b c d e f g h :
      tiles [a; b; c; d; e; f; g; h] →
      neighbors_of [[a; 0; b]; [c; d; e]; [f; g; h]] (0, 1)
        [ [[a; d; b]; [c; 0; e]; [f; g; h]];
          [[0; a; b]; [c; d; e]; [f; g; h]];
          [[a; b; 0]; [c; d; e]; [f; g; h]] ]
  | nb_02 a b c d e f g h :
      tiles [a; b; c; d; e; f; g; h] →
      neighbors_of [[a; b; 0]; [c; d; e]; [f; g; h]] (0, 2)
        [ [[a; b; e]; [c; d; 0]; [f; g; h]];
          [[a; 0; b]; [c; d; e]; [f; g; h]] ]
  | nb_10 a b c d e f g h :
      tiles [a; b; c; d; e; f; g; h] →
      neighbors_of [[a; b; c]; [0; d; e]; [f; g; h]] (1, 0)
        [ [[0; b; c]; [a; d; e]; [f; g; h]];
          [[a; b; c]; [f; d; e]; [0; g; h]];
          [[a; b; c]; [d; 0; e]; [f; g; h]] ]
  | nb_11 a b c d e f g h :
      tiles [a; b; c; d; e; f; g; h] →
      neighbors_of [[a; b; c]; [d; 0; e]; [f; g; h]] (1, 1)
        [ [[a; 0; c]; [d; b; e]; [f; g; h]];
          [[a; b; c]; [d; g; e]; [f; 0; h]];
          [[a; b; c]; [0; d; e]; [f; g; h]];
          [[a; b; c]; [d; e; 0]; [f; g; h]] ]
  | nb_12 a b c d e f g h :
      tiles [a; b; c; d; e; f; g; h] →
      neighbors_of [[a; b; c]; [d; e; 0]; [f; g; h]] (1, 2)
        [ [[a; b; 0]; [d; e; c]; [f; g; h]];
          [[a; b; c]; [d; e; h]; [f; g; 0]];
          [[a; b; c]; [d; 0; e]; [f; g; h]] ]
  | nb_20 a b c d e f g h :
      tiles [a; b; c; d; e; f; g; h] →
      neighbors_of [[a; b; c]; [d; e; f]; [0; g; h]] (2, 0)
        [ [[a; b; c]; [0; e; f]; [d; g; h]];
          [[a; b; c]; [d; e; f]; [g; 0; h]] ]
  | nb_21 a b c d e f g h :
      tiles [a; b; c; d; e; f; g; h] →
      neighbors_of [[a; b; c]; [d; e; f]; [g; 0; h]] (2, 1)
        [ [[a; b; c]; [d; 0; f]; [g; e; h]];
          [[a; b; c]; [d; e; f]; [0; g; h]];
          [[a; b; c]; [d; e; f]; [g; h; 0]] ]
  | nb_22 a b c d e f g h :
      tiles [a; b; c; d; e; f; g; h] →
      neighbors_of [[a; b; c]; [d; e; f]; [g; h; 0]] (2, 2)
        [ [[a; b; c]; [d; e; 0]; [g; h; f]];
          [[a; b; c]; [d; e; f]; [g; 0; h]] ].

(** Cell access for specifications: [None] off the grid. *)
Definition cell (st : state) (p : nat * nat) : option Z :=
  st !! p.1 ≫= λ row, row !! p.2.

(** Orthogonally adjacent grid positions. *)
Definition adjacent (p q : nat * nat) : Prop :=
  (p.1 = q.1 ∧ (p.2 = S q.2 ∨ q.2 = S p.2)) ∨
  (p.2 = q.2 ∧ (p.1 = S q.1 ∨ q.1 = S p.1)).

(** [st'] is [st] after one legal move: the blank at [p] and the tile at an
    adjacent position [q] have changed places, and nothing else has. *)
Definition blank_swap (st st' : state) : Prop :=
  ∃ p q v,
    adjacent p q ∧
    cell st p = Some 0 ∧ cell st q = Some v ∧
    cell st' p = Some v ∧ cell st' q = Some 0 ∧
    shape_3x3 st' ∧
    ∀ r, r ≠ p → r ≠ q → cell st' r = cell st r.

(** ** The puzzle graph *)

(** [swap_reach n st st']: [st'] is reached from [st] by exactly [n] legal
    moves. *)
Inductive swap_reach : nat → state → state → Prop :=
  | swap_reach_O st : swap_reach 0 st st
  | swap_reach_S n st st' st'' :
      blank_swap st st' → swap_reach n st' st'' → swap_reach (S n) st st''.

(** The goal can be reached from [st]. *)
Definition solvable (st : state) : Prop := ∃ n, swap_reach n st goal_state.

(** [n] is the length of a shortest sequence of legal moves from [st] to
    [st']. *)
Definition swap_distance (st st' : state) (n : nat) : Prop :=
  swap_reach n st st' ∧ ∀ m, swap_reach m st st' → (n ≤ m)%nat.

(** A list of configurations in move order: each one is the one before it
    after a blank swap, the first being [st] after a blank swap. *)
Fixpoint swaps_from (st : state) (p : list state) : Prop :=
  match p with
  | [] => True
  | st' :: p' => blank_swap st st' ∧ swaps_from st' p'
  end.

(** The same graph as the code generates it: an edge leads from [st] to
    every element of [get_neighbors st]. *)
Definition step (st st' : state) : Prop :=
  ∃ ns, get_neighbors st = Ret ns ∧ st' ∈ ns.

Inductive reach : nat → state → state → Prop :=
  | reach_O st : reach 0 st st
  | reach_S n st st' st'' : step st st' → reach n st' st'' → reach (S n) st st''.

Definition reachable (st st' : state) : Prop := ∃ n, reach n st st'.

Fixpoint moves_from (st : state) (path : list state) : Prop :=
  match path with
  | [] => True
  | st' :: path' => step st st' ∧ moves_from st' path'
  end.

(** A path recorded by a search: the moves from [start], ending in [st]. *)
Definition path_to (start : state) (p : list state) (st : state) : Prop :=
  moves_from start p ∧ last (start :: p) = Some st.

(** ** Vocabulary of the claims *)

(** A grid whose cells are values in 0..8, distinct or not. *)
Definition cells_in_range (st : state) : Prop :=
  Forall (Forall (λ x, 0 ≤ x ≤ 8)) st.

(** Position of the blank as a grid position of the specification. *)
Definition grid_pos (p : Z * Z) : nat * nat := (Z.to_nat p.1, Z.to_nat p.2).

(** The number of neighbours by the place of the blank: 2 in a corner, 4 in
    the center, 3 on an edge. *)
Definition is_corner (p : Z * Z) : bool :=
  bool_decide (p.1 ≠ 1 ∧ p.2 ≠ 1).

Definition is_center (p : Z * Z) : bool :=
  bool_decide (p.1 = 1 ∧ p.2 = 1).

Definition expected_neighbors (p : Z * Z) : nat :=
  if is_corner p then 2 else if is_center p then 4 else 3.

(** The contribution of the cell [(i, j)] holding [x] to the heuristic. *)
Definition cell_distance (i j x : Z) : Z :=
  if x =? 0 then 0
  else Z.abs (i - (x - 1) `div` 3) + Z.abs (j - (x - 1) `mod` 3).

(** Concrete configurations used as test inputs. *)
Definition one_move_state : state := [[1; 2; 3]; [4; 5; 6]; [7; 0; 8]].
Definition two_move_state : state := [[1; 2; 3]; [4; 5; 6]; [0; 7; 8]].
Definition center_state : state := [[1; 2; 3]; [4; 0; 6]; [7; 5; 8]].

(** A bound on the number of configurations: the number of permutations of
    0..8. *)
Definition state_space : nat := length (permutations (seqZ 0 9)).

(** The parity class of a configuration is the parity of the number of
    inversions of its tile sequence. *)
Definition smaller (x : Z) (l : list Z) : nat :=
  length (List.filter (λ y, y <? x) l).

Fixpoint inversions (l : list Z) : nat :=
  match l with
  | [] => 0
  | x :: l => smaller x l + inversions l
  end.

(** The numbered tiles of a grid in reading order. *)
Definition tile_sequence (st : state) : list Z :=
  List.filter (λ x, negb (x =? 0)) (concat st).

Definition even_parity (st : state) : bool :=
  Nat.even (inversions (tile_sequence st)).

(** The goal with its first two tiles exchanged. *)
Definition unsolvable_state : state := [[2; 1; 3]; [4; 5; 6]; [7; 8; 0]].

(** The temperature after the cooling and the restart of one iteration of
    the annealing. *)
Definition cool (initial_temp cooling_rate t : float) : float :=
  let t' := PrimFloat.mul t cooling_rate in
  if PrimFloat.ltb t' 0.01%float then PrimFloat.mul initial_temp 0.5%float
  else t'.

(** The default parameters: [initial_temp=1.0], [cooling_rate=0.995]. *)
Definition default_cool : float → float := cool 1%float 0.995%float.

(** The temperature at the start of iteration [k] under the defaults: it
    does not depend on the random draws. *)
Definition temperature_at (k : nat) : float := Nat.iter k default_cool 1%float.

(** At a safe temperature the acceptance probability of every energy gap
    from 0 to 32 is computed without exception: the temperature is not zero
    and the argument passed to [math.exp] is not positive. *)
Definition safe_temperature (t : float) : bool :=
  negb (PrimFloat.is_zero t) &&
  forallb (λ d, PrimFloat.leb
                  (PrimFloat.div (float_of_int (- Z.of_nat d)) t) 0%float)
    (seq 0 33).

(** [n] successive temperatures from [t] on are safe. *)
Fixpoint safe_schedule (n : nat) (t : float) : bool :=
  match n with
  | O => true
  | S n => safe_temperature t && safe_schedule n (default_cool t)
  end.

(** No configuration but the last of a trace is the goal. *)
Definition nongoal_prefix (p : list state) : Prop :=
  ∀ i st, p !! i = Some st → (S i < length p)%nat → st ≠ goal_state.


(** ** Loop invariants *)

(** A queue entry: a configuration and the path recorded for it. *)
Abbreviation entry := (state * list state)%type (only parsing).

(** The loop invariant of [solve_bfs] started on [start].  [done] lists the
    entries already taken from the queue, in order; [cur] is the entry being
    expanded and [todo] its neighbours still to be visited (none between two
    iterations); [d] is the length of the paths at the front of the queue. *)
Record bfs_inv (start : state) (d : nat) (done queue : list entry)
    (visited : gset string) (cur : entry) (todo : list state) : Prop := {
  inv_start : (start, []) ∈ done ++ queue;
  inv_path : ∀ st p,
    (st, p) ∈ done ++ queue → valid_state st ∧ path_to start p st;
  inv_nodup : NoDup (done ++ queue).*1;
  inv_visited : ∀ st, valid_state st →
    state_to_string st ∈ visited ↔ ∃ p, (st, p) ∈ done ++ queue;
  inv_levels :
    (∀ e, e ∈ done → (length e.2 ≤ d)%nat) ∧
    ∃ q1 q2, queue = q1 ++ q2 ∧
      (∀ e, e ∈ q1 → length e.2 = d) ∧
      (∀ e, e ∈ q2 → length e.2 = S d);
  inv_done : ∀ st p, (st, p) ∈ done →
    st ≠ goal_state ∧
    ∀ n, step st n →
      (∃ p', (n, p') ∈ done ++ queue ∧ (length p' ≤ S (length p))%nat) ∨
      ((st, p) = cur ∧ n ∈ todo);
  inv_todo : ∀ n, n ∈ todo → cur ∈ done ∧ length cur.2 = d ∧ step cur.1 n
}.

(** What [solve_bfs] started on [start] owes its caller. *)
Definition bfs_post (start : state) (r : option (list state)) : Prop :=
  match r with
  | Some p =>
      path_to start p goal_state ∧
      ∀ m, reach m start goal_state → (length p ≤ m)%nat
  | None => ¬ reachable start goal_state
  end.

(** The invariant of one side of [solve_bidirectional], grown from [seed]. *)
Record side_inv (seed : state) (done queue : list entry)
    (visited : gmap string (list state)) : Prop := {
  side_reach : ∀ st p,
    (st, p) ∈ done ++ queue → valid_state st ∧ reachable seed st;
  side_nodup : NoDup (done ++ queue).*1;
  side_visited : ∀ st, valid_state st →
    is_Some (visited !! state_to_string st) ↔ ∃ p, (st, p) ∈ done ++ queue
}.

(** The loop invariant of [solve_simulated_annealing] started on [start]
    with the default parameters: [kt] iterations of cooling have been done,
    and at most [kp] moves have been appended to the trace. *)
Record anneal_inv (start : state) (kt kp : nat) (s : annealing) : Prop := {
  ai_current : valid_state (current_state s) ∧
    manhattan_distance (current_state s) = Ret (current_energy s);
  ai_best : valid_state (best_state s) ∧
    manhattan_distance (best_state s) = Ret (best_energy s);
  ai_best_le : best_energy s ≤ current_energy s;
  ai_best_zero : best_energy s = 0 → current_energy s = 0;
  ai_temperature : temperature s = temperature_at kt;
  ai_path : ∃ rest, path s = start :: rest ∧ (length rest ≤ kp)%nat;
  ai_nongoal : current_energy s ≠ 0 → ∀ st, st ∈ path s → st ≠ goal_state;
  ai_prefix : nongoal_prefix (path s)
}.

(** The invariant of one side of [solve_bidirectional] on a configuration
    from which the goal can be reached: besides [side_inv], the path of
    every entry leads from [seed] to its configuration and is the value of
    the dict at its key, and the neighbours of the entries taken from the
    queue are recorded, but for the neighbours [todo] of the entry [cur]
    being expanded. *)
Record meet_inv (seed : state) (done queue : list entry)
    (visited : gmap string (list state)) (cur : entry) (todo : list state)
  : Prop := {
  meet_side : side_inv seed done queue visited;
  meet_seed : (seed, []) ∈ done ++ queue;
  meet_paths : ∀ st p,
    (st, p) ∈ done ++ queue →
    path_to seed p st ∧ visited !! state_to_string st = Some p;
  meet_closed : ∀ st p, (st, p) ∈ done → ∀ n, step st n →
    (∃ p', (n, p') ∈ done ++ queue) ∨ ((st, p) = cur ∧ n ∈ todo);
  meet_todo : ∀ n, n ∈ todo → cur ∈ done ∧ step cur.1 n
}.

(** A trace grown move by move: every entry but the first is one move away
    from an entry before it. *)
Definition trace_grown (p : list state) : Prop :=
  ∀ i x, p !! S i = Some x →
    ∃ j y, (j ≤ i)%nat ∧ p !! j = Some y ∧ blank_swap y x.

(** The invariant of the loop of [solve_simulated_annealing] started on
    [start], whatever its parameters: the trace begins with [start], holds
    configurations reachable from it, among them the current and the best
    one, and has grown move by move. *)
Record trace_inv (start : state) (s : annealing) : Prop := {
  ti_head : head (path s) = Some start;
  ti_reach : Forall (λ x, valid_state x ∧ reachable start x) (path s);
  ti_current : current_state s ∈ path s;
  ti_best : best_state s ∈ path s;
  ti_grown : trace_grown (path s)
}.

(** ** The constructor *)

(** [l[lo:hi]]: a negative bound counts from the end, and both bounds are
    clamped to the list. *)
Definition slice {A : Type} (l : list A) (lo hi : Z) : list A :=
  let n := Z.of_nat (length l) in
  let clamp i := Z.max 0 (Z.min n (if i <? 0 then i + n else i)) in
  take (Z.to_nat (clamp hi - clamp lo)) (drop (Z.to_nat (clamp lo)) l).

(** [range(start, stop, step)] *)
Definition range_step (start stop step : Z) : result (list Z) :=
  if step =? 0 then Raise ValueError
  else
    let count :=
      if 0 <? step then (stop - start + step - 1) `div` step
      else (start - stop - step - 1) `div` (- step) in
    Ret (map (λ k, start + k * step) (seqZ 0 count)).

(** [__init__], as the value of [self.initial_state]; [self.goal_state] is
    the constant [goal_state].  [shuffle] is the list [random.shuffle]
    leaves in place of its argument. *)
Definition EightPuzzle_init (shuffle : list Z → list Z)
    (initial_state : option state) : result state :=
  match initial_state with
  | None =>
      let numbers := range 9 in
      let numbers := shuffle numbers in
      starts ← range_step 0 9 3;
      Ret (map (λ i, slice numbers i (i + 3)) starts)
  | Some initial_state => Ret initial_state
  end.


(** ** The driver *)

(** A program that prints: the lines printed, and how the program ended. *)
Definition io (A : Type) : Type := (list string * result A)%type.

Definition io_ret {A : Type} (a : A) : io A := ([], Ret a).

Definition io_bind {A B : Type} (m : io A) (k : A → io B) : io B :=
  match m with
  | (out, Ret a) => let '(out', r) := k a in (out ++ out', r)
  | (out, Raise e) => (out, Raise e)
  | (out, OutOfFuel) => (out, OutOfFuel)
  end.

Definition print (line : string) : io unit := ([line], Ret tt).

(** A call that prints nothing. *)
Definition call {A : Type} (r : result A) : io A := ([], r).

(** [str] of a list of ints. *)
Definition str_list (row : list Z) : string :=
  "[" +:+ String.concat ", " (map str row) +:+ "]".

(** [for row in rows: print(row)] *)
Fixpoint print_rows (rows : state) : io unit :=
  match rows with
  | [] => io_ret tt
  | row :: rows => io_bind (print (str_list row)) (λ _, print_rows rows)
  end.

(** The truth value of what a solver returns: [None] and the empty list are
    false. *)
Definition truthy (solution : option (list state)) : bool :=
  match solution with
  | Some (_ :: _) => true
  | _ => false
  end.

(** The line printed after a solver has returned, for the solver called
    [name] in the messages. *)
Definition report_line (name : string) (solution : option (list state))
  : string :=
  match solution with
  | Some (x :: l) =>
      name +:+ " found a solution in " +:+ str (Z.of_nat (length (x :: l)))
        +:+ " moves"
  | _ => name +:+ " could not find a solution"
  end.

Definition newline : string :=
  String (Ascii.ascii_of_nat 10) EmptyString.

(** The [__main__] block; the two searches are given [fuel] iterations
    each. *)
Definition main (shuffle : list Z → list Z)
    (random_below : nat → nat → nat) (random_random : nat → float)
    (libm_exp : float → float) (fuel : nat) : io unit :=
  io_bind (call (EightPuzzle_init shuffle None)) (λ initial_state,
  io_bind (print "Initial state:") (λ _,
  io_bind (print_rows initial_state) (λ _,
  io_bind (print (newline +:+ "Goal state:")) (λ _,
  io_bind (print_rows goal_state) (λ _,
  io_bind (print (newline +:+ "Solving with BFS...")) (λ _,
  io_bind (call (solve_bfs fuel initial_state)) (λ bfs_solution,
  io_bind (print (report_line "BFS" bfs_solution)) (λ _,
  io_bind (print (newline +:+ "Solving with Bidirectional Search..."))
    (λ _,
  io_bind (call (solve_bidirectional fuel initial_state))
    (λ bidirectional_solution,
  io_bind (print (report_line "Bidirectional Search" bidirectional_solution))
    (λ _,
  io_bind (print (newline +:+ "Solving with Simulated Annealing...")) (λ _,
  io_bind (call (solve_simulated_annealing random_below random_random
                   libm_exp 10000 1%float 0.995%float initial_state))
    (λ annealing_solution,
  print (report_line "Simulated Annealing" annealing_solution)
  ))))))))))))).




(** ** The annealing in the words of the specification *)

(** The heuristic of the specification: the sum over the cells of the
    distance between a tile and its place in the goal. *)
Definition spec_heuristic (st : state) : Z :=
  let d (i j : nat) :=
    cell_distance (Z.of_nat i) (Z.of_nat j) (default 0 (cell st (i, j))) in
  0 + d 0%nat 0%nat + d 0%nat 1%nat + d 0%nat 2%nat
    + d 1%nat 0%nat + d 1%nat 1%nat + d 1%nat 2%nat
    + d 2%nat 0%nat + d 2%nat 1%nat + d 2%nat 2%nat.

(** What the specification carries across iterations; the energies are the
    heuristic of the current and of the best configuration. *)
Record spec_walk_state : Type := SpecWalk {
  spec_current : state;
  spec_best : state;
  spec_temperature : float;
  spec_trace : list state
}.

(** The Metropolis criterion: a move that raises the energy by [delta] is
    accepted when the uniform draw [u] is below [exp (- delta / t)]. *)
Definition spec_metropolis (exp : float → float) (u t : float) (delta : Z)
  : bool :=
  PrimFloat.ltb u (exp (PrimFloat.div (float_of_int (- delta)) t)).

(** Steps 2 and 3 of an iteration: a successor of strictly lower energy is
    accepted, appended to the trace and made the best configuration if it
    improves on it; any other successor is accepted and appended by the
    Metropolis criterion, the best configuration being kept. *)
Definition spec_move (exp : float → float) (u : float) (w : spec_walk_state)
    (next : state) : spec_walk_state :=
  if spec_heuristic next <? spec_heuristic (spec_current w) then
    SpecWalk next
      (if spec_heuristic next <? spec_heuristic (spec_best w) then next
       else spec_best w)
      (spec_temperature w) (spec_trace w ++ [next])
  else if spec_metropolis exp u (spec_temperature w)
            (spec_heuristic next - spec_heuristic (spec_current w)) then
    SpecWalk next (spec_best w) (spec_temperature w) (spec_trace w ++ [next])
  else w.

(** Steps 4 and 5: the temperature is multiplied by the cooling rate; below
    the restart threshold 0.01 the walk goes back to the best configuration
    at half the initial temperature. *)
Definition spec_cool (initial_temp cooling_rate : float) (w : spec_walk_state)
  : spec_walk_state :=
  let t := PrimFloat.mul (spec_temperature w) cooling_rate in
  if PrimFloat.ltb t 0.01%float then
    SpecWalk (spec_best w) (spec_best w)
      (PrimFloat.mul initial_temp 0.5%float) (spec_trace w)
  else SpecWalk (spec_current w) (spec_best w) t (spec_trace w).

Section spec_annealing.
Variable random_below : nat → nat → nat.
Variable random_random : nat → float.
Variable exp : float → float.
Variable initial_temp cooling_rate : float.

(** Iteration [k]: the successor drawn among the successors of the current
    configuration, in the order up, down, left, right, is the one at the
    index [random_below k n] drawn among [n]; then the acceptance, then the
    cooling. *)
Inductive spec_iteration (k : nat) : spec_walk_state → spec_walk_state → Prop :=
  | spec_iteration_intro w pos ns next :
      neighbors_of (spec_current w) pos ns →
      ns !! (random_below k (length ns) `mod` length ns)%nat = Some next →
      spec_iteration k w
        (spec_cool initial_temp cooling_rate
           (spec_move exp (random_random k) w next)).

(** [spec_walk start k w]: [w] is the state after the iterations
    [0 .. k - 1] of the walk started on [start], each of them run with a
    current energy other than 0. *)
Inductive spec_walk (start : state) : nat → spec_walk_state → Prop :=
  | spec_walk_O :
      spec_walk start 0 (SpecWalk start start initial_temp [start])
  | spec_walk_S k w w' :
      spec_walk start k w →
      spec_heuristic (spec_current w) ≠ 0 →
      spec_iteration k w w' →
      spec_walk start (S k) w'.
End spec_annealing.

(** The state of the loop of [solve_simulated_annealing] as a state of the
    specification. *)
Definition walk_of (s : annealing) : spec_walk_state :=
  SpecWalk (current_state s) (best_state s) (temperature s) (path s).

(** ** Facts about the state model *)

Lemma valid_state_inv st :
  valid_state st →
  ∃ a b c d e f g h i,
    st = [[a; b; c]; [d; e; f]; [g; h; i]] ∧
    [a; b; c; d; e; f; g; h; i] ≡ₚ seqZ 0 9.
Proof.
  intros [[Hlen Hrows] Hperm].
  destruct st as [|r1 [|r2 [|r3 [|]]]]; try discriminate.
  apply Forall_cons in Hrows as [H1 Hrows].
  apply Forall_cons in Hrows as [H2 Hrows].
  apply Forall_cons in Hrows as [H3 _].
  destruct r1 as [|a [|b [|c [|]]]]; try discriminate.
  destruct r2 as [|d [|e [|f [|]]]]; try discriminate.
  destruct r3 as [|g [|h [|i [|]]]]; try discriminate.
  by exists a, b, c, d, e, f, g, h, i.
Qed.

Lemma valid_state_grid a b c d e f g h i :
  [a; b; c; d; e; f; g; h; i] ≡ₚ seqZ 0 9 →
  valid_state [[a; b; c]; [d; e; f]; [g; h; i]].
Proof.
  intros Hp. split; [|done]. split; [done|]. by repeat constructor.
Qed.

Lemma tiles_nonzero l x : tiles l → x ∈ l → (x =? 0) = false.
Proof.
  unfold tiles. intros Hl Hx. rewrite Hl in Hx.
  apply elem_of_seqZ in Hx. apply Z.eqb_neq. lia.
Qed.

Lemma get_blank_position_grid a b c d e f g h i :
  get_blank_position [[a; b; c]; [d; e; f]; [g; h; i]] =
  if a =? 0 then Ret (Some (0, 0)) else
  if b =? 0 then Ret (Some (0, 1)) else
  if c =? 0 then Ret (Some (0, 2)) else
  if d =? 0 then Ret (Some (1, 0)) else
  if e =? 0 then Ret (Some (1, 1)) else
  if f =? 0 then Ret (Some (1, 2)) else
  if g =? 0 then Ret (Some (2, 0)) else
  if h =? 0 then Ret (Some (2, 1)) else
  if i =? 0 then Ret (Some (2, 2)) else Ret None.
Proof. reflexivity. Qed.

Lemma tiles_nonzero_all l : tiles l → Forall (λ x, (x =? 0) = false) l.
Proof. intros Ht. apply Forall_forall. intros x. by apply tiles_nonzero. Qed.

(** Rewrites the tests [x =? 0] of the numbered tiles away. *)
Ltac tiles_nonzero Ht :=
  let H := fresh "Hnz" in
  pose proof (tiles_nonzero_all _ Ht) as H;
  rewrite !Forall_cons in H; destruct_and!;
  repeat match goal with
  | E : (?x =? 0) = false |- context [?x =? 0] => rewrite E
  end.

Lemma neighbors_of_blank st p ns :
  neighbors_of st p ns → get_blank_position st = Ret (Some p).
Proof.
  destruct 1 as [? ? ? ? ? ? ? ? Ht|? ? ? ? ? ? ? ? Ht|? ? ? ? ? ? ? ? Ht
                |? ? ? ? ? ? ? ? Ht|? ? ? ? ? ? ? ? Ht|? ? ? ? ? ? ? ? Ht
                |? ? ? ? ? ? ? ? Ht|? ? ? ? ? ? ? ? Ht|? ? ? ? ? ? ? ? Ht];
    rewrite get_blank_position_grid; tiles_nonzero Ht; reflexivity.
Qed.

Lemma neighbors_of_sound st p ns :
  neighbors_of st p ns → get_neighbors st = Ret ns.
Proof.
  intros H. unfold get_neighbors.
  rewrite (neighbors_of_blank _ _ _ H).
  destruct H; reflexivity.
Qed.

Lemma seqZ_0_9 : seqZ 0 9 = 0 :: seqZ 1 8.
Proof. reflexivity. Qed.

(** Every configuration falls under one rule of [neighbors_of]. *)
Lemma valid_neighbors_of st :
  valid_state st → ∃ p ns, neighbors_of st p ns.
Proof.
  intros (a & b & c & d & e & f & g & h & i & -> & Hp)%valid_state_inv.
  assert (H0 : 0 ∈ [a; b; c; d; e; f; g; h; i]).
  { rewrite Hp. apply elem_of_seqZ. lia. }
  rewrite seqZ_0_9 in Hp.
  decompose_list_elem_of; subst;
    (eexists _, _; constructor; unfold tiles;
     apply (Permutation_cons_inv (a := 0)); rewrite <- Hp; solve_Permutation).
Qed.

Ltac neighbors_of_inv H Ht :=
  destruct H as [? ? ? ? ? ? ? ? Ht|? ? ? ? ? ? ? ? Ht|? ? ? ? ? ? ? ? Ht
                |? ? ? ? ? ? ? ? Ht|? ? ? ? ? ? ? ? Ht|? ? ? ? ? ? ? ? Ht
                |? ? ? ? ? ? ? ? Ht|? ? ? ? ? ? ? ? Ht|? ? ? ? ? ? ? ? Ht].

Ltac solve_valid_grid Ht :=
  apply valid_state_grid; rewrite seqZ_0_9; unfold tiles in Ht;
  rewrite <- Ht; solve_Permutation.

Lemma neighbors_of_valid st p ns : neighbors_of st p ns → valid_state st.
Proof. intros H. neighbors_of_inv H Ht; solve_valid_grid Ht. Qed.

Lemma neighbors_of_valid_neighbor st p ns n :
  neighbors_of st p ns → n ∈ ns → valid_state n.
Proof.
  intros H Hn.
  neighbors_of_inv H Ht; decompose_list_elem_of; subst; solve_valid_grid Ht.
Qed.

(** The move relation is symmetric: moving the tile back is a move. *)
Lemma neighbors_of_sym st p ns n :
  neighbors_of st p ns → n ∈ ns → ∃ q ns', neighbors_of n q ns' ∧ st ∈ ns'.
Proof.
  intros H Hn.
  neighbors_of_inv H Ht; decompose_list_elem_of; subst;
    (eexists _, _; split;
     [ econstructor; unfold tiles in *; rewrite <- Ht; solve_Permutation
     | set_solver ]).
Qed.

Lemma neighbors_of_blank_cell st p ns :
  neighbors_of st p ns →
  cell st (grid_pos p) = Some 0 ∧ ∀ q, cell st q = Some 0 → q = grid_pos p.
Proof.
  intros H. neighbors_of_inv H Ht; (split; [reflexivity|]);
    intros [[|[|[|?]]] [|[|[|?]]]] Hq; try done;
    cbv in Hq; injection Hq as ->;
    (assert ((0 =? 0) = false) by (apply (tiles_nonzero _ 0 Ht); set_solver));
    done.
Qed.

Ltac solve_blank_swap p q :=
  exists p, q; eexists; split_and!;
    [ cbv; lia | reflexivity | reflexivity | reflexivity | reflexivity
    | split; [done | by repeat constructor]
    | intros [[|[|[|?]]] [|[|[|?]]]] ? ?; done ].

Ltac solve_blank_swap_around i j :=
  first
    [ solve_blank_swap (i, j) (pred i, j)
    | solve_blank_swap (i, j) (S i, j)
    | solve_blank_swap (i, j) (i, pred j)
    | solve_blank_swap (i, j) (i, S j) ].

Lemma neighbors_of_blank_swap st p ns n :
  neighbors_of st p ns → n ∈ ns → blank_swap st n.
Proof.
  intros H Hn.
  neighbors_of_inv H Ht; decompose_list_elem_of; subst.
  all: match goal with
       | |- blank_swap [[0; _; _]; _; _] _ => solve_blank_swap_around 0%nat 0%nat
       | |- blank_swap [[_; 0; _]; _; _] _ => solve_blank_swap_around 0%nat 1%nat
       | |- blank_swap [[_; _; 0]; _; _] _ => solve_blank_swap_around 0%nat 2%nat
       | |- blank_swap [_; [0; _; _]; _] _ => solve_blank_swap_around 1%nat 0%nat
       | |- blank_swap [_; [_; 0; _]; _] _ => solve_blank_swap_around 1%nat 1%nat
       | |- blank_swap [_; [_; _; 0]; _] _ => solve_blank_swap_around 1%nat 2%nat
       | |- blank_swap [_; _; [0; _; _]] _ => solve_blank_swap_around 2%nat 0%nat
       | |- blank_swap [_; _; [_; 0; _]] _ => solve_blank_swap_around 2%nat 1%nat
       | |- blank_swap [_; _; [_; _; 0]] _ => solve_blank_swap_around 2%nat 2%nat
       end.
Qed.
Lemma shape_3x3_inv st :
  shape_3x3 st →
  ∃ a b c d e f g h i, st = [[a; b; c]; [d; e; f]; [g; h; i]].
Proof.
  intros [Hlen Hrows].
  destruct st as [|r1 [|r2 [|r3 [|]]]]; try discriminate.
  apply Forall_cons in Hrows as [H1 Hrows].
  apply Forall_cons in Hrows as [H2 Hrows].
  apply Forall_cons in Hrows as [H3 _].
  destruct r1 as [|a [|b [|c [|]]]]; try discriminate.
  destruct r2 as [|d [|e [|f [|]]]]; try discriminate.
  destruct r3 as [|g [|h [|i [|]]]]; try discriminate.
  by exists a, b, c, d, e, f, g, h, i.
Qed.

(** Reads the cell [r] of the swapped grid off the frame condition [Hrest]
    of a blank swap, when [r] is neither of the two swapped positions. *)
Ltac read_cell Hrest r :=
  let H := fresh "Hcell" in
  try (assert (H := Hrest r ltac:(discriminate) ltac:(discriminate));
       cbv in H; injection H as ->).

(** Every blank swap of a configuration is generated by [get_neighbors]. *)
Lemma blank_swap_step st st' : valid_state st → blank_swap st st' → step st st'.
Proof.
  intros (p0 & ns & H)%valid_neighbors_of
         (p & q & v & Hadj & Hp & Hq & Hp' & Hq' & Hshape & Hrest).
  exists ns. split; [by eapply neighbors_of_sound|].
  apply (neighbors_of_blank_cell _ _ _ H) in Hp. subst p.
  destruct (shape_3x3_inv _ Hshape)
    as (a' & b' & c' & d' & e' & f' & g' & h' & i' & ->).
  neighbors_of_inv H Ht;
    destruct q as [[|[|[|?]]] [|[|[|?]]]]; try discriminate Hq;
    cbv in Hadj; try lia;
    cbv in Hq, Hp', Hq'; simplify_eq;
    read_cell Hrest (0, 0)%nat; read_cell Hrest (0, 1)%nat;
    read_cell Hrest (0, 2)%nat; read_cell Hrest (1, 0)%nat;
    read_cell Hrest (1, 1)%nat; read_cell Hrest (1, 2)%nat;
    read_cell Hrest (2, 0)%nat; read_cell Hrest (2, 1)%nat;
    read_cell Hrest (2, 2)%nat;
    repeat first [apply list_elem_of_here | apply list_elem_of_further].
Qed.

Lemma str_digit x : 0 ≤ x ≤ 8 → ∃ ch, str x = String ch EmptyString.
Proof.
  intros Hx.
  assert (x = 0 ∨ x = 1 ∨ x = 2 ∨ x = 3 ∨ x = 4 ∨ x = 5 ∨ x = 6 ∨ x = 7 ∨ x = 8)
    as Hc by lia.
  destruct_or!; subst; eexists; reflexivity.
Qed.

Lemma str_inj x y : str x = str y → x = y.
Proof. apply (inj pretty). Qed.

Lemma grid_in_range_inv st :
  shape_3x3 st → cells_in_range st →
  ∃ a b c d e f g h i,
    st = [[a; b; c]; [d; e; f]; [g; h; i]] ∧
    Forall (λ x, 0 ≤ x ≤ 8) [a; b; c; d; e; f; g; h; i].
Proof.
  intros [Hlen Hrows] Hr.
  destruct st as [|r1 [|r2 [|r3 [|]]]]; try discriminate.
  apply Forall_cons in Hrows as [H1 Hrows].
  apply Forall_cons in Hrows as [H2 Hrows].
  apply Forall_cons in Hrows as [H3 _].
  destruct r1 as [|a [|b [|c [|]]]]; try discriminate.
  destruct r2 as [|d [|e [|f [|]]]]; try discriminate.
  destruct r3 as [|g [|h [|i [|]]]]; try discriminate.
  exists a, b, c, d, e, f, g, h, i. split; [done|].
  unfold cells_in_range in Hr. rewrite !Forall_cons in Hr.
  rewrite !Forall_cons. tauto.
Qed.

Lemma key_grid a b c d e f g h i :
  Forall (λ x, 0 ≤ x ≤ 8) [a; b; c; d; e; f; g; h; i] →
  ∃ ca cb cc cd ce cf cg ch ci,
    str a = String ca "" ∧ str b = String cb "" ∧ str c = String cc "" ∧
    str d = String cd "" ∧ str e = String ce "" ∧ str f = String cf "" ∧
    str g = String cg "" ∧ str h = String ch "" ∧ str i = String ci "" ∧
    state_to_string [[a; b; c]; [d; e; f]; [g; h; i]] =
    String ca (String cb (String cc (String cd (String ce (String cf
      (String cg (String ch (String ci "")))))))).
Proof.
  rewrite !Forall_cons.
  intros ([ca Ha]%str_digit & [cb Hb]%str_digit & [cc Hc]%str_digit &
          [cd Hd]%str_digit & [ce He]%str_digit & [cf Hf]%str_digit &
          [cg Hg]%str_digit & [ch Hh]%str_digit & [ci Hi]%str_digit & _).
  exists ca, cb, cc, cd, ce, cf, cg, ch, ci. split_and!; try done.
  unfold state_to_string. cbn [map String.concat].
  rewrite Ha, Hb, Hc, Hd, He, Hf, Hg, Hh, Hi. reflexivity.
Qed.

Lemma grid_key_inj st1 st2 :
  shape_3x3 st1 → cells_in_range st1 →
  shape_3x3 st2 → cells_in_range st2 →
  state_to_string st1 = state_to_string st2 → st1 = st2.
Proof.
  intros Hs1 Hr1 Hs2 Hr2.
  destruct (grid_in_range_inv _ Hs1 Hr1)
    as (a1 & b1 & c1 & d1 & e1 & f1 & g1 & h1 & i1 & -> & Hc1).
  destruct (grid_in_range_inv _ Hs2 Hr2)
    as (a2 & b2 & c2 & d2 & e2 & f2 & g2 & h2 & i2 & -> & Hc2).
  destruct (key_grid _ _ _ _ _ _ _ _ _ Hc1)
    as (? & ? & ? & ? & ? & ? & ? & ? & ? &
        Ea1 & Eb1 & Ec1 & Ed1 & Ee1 & Ef1 & Eg1 & Eh1 & Ei1 & ->).
  destruct (key_grid _ _ _ _ _ _ _ _ _ Hc2)
    as (? & ? & ? & ? & ? & ? & ? & ? & ? &
        Ea2 & Eb2 & Ec2 & Ed2 & Ee2 & Ef2 & Eg2 & Eh2 & Ei2 & ->).
  intros Hk. simplify_eq.
  rewrite <- Ea2 in Ea1. rewrite <- Eb2 in Eb1. rewrite <- Ec2 in Ec1.
  rewrite <- Ed2 in Ed1. rewrite <- Ee2 in Ee1. rewrite <- Ef2 in Ef1.
  rewrite <- Eg2 in Eg1. rewrite <- Eh2 in Eh1. rewrite <- Ei2 in Ei1.
  repeat match goal with H : str _ = str _ |- _ => apply str_inj in H end.
  by subst.
Qed.

(** C8: on 3x3 grids with cells in 0..8, two configurations are equal if and
    only if their keys are equal: [state_to_string] is injective there. *)
Theorem state_to_string_injective st1 st2 :
  shape_3x3 st1 → cells_in_range st1 →
  shape_3x3 st2 → cells_in_range st2 →
  st1 = st2 ↔ state_to_string st1 = state_to_string st2.
Proof.
  intros Hs1 Hr1 Hs2 Hr2. split; [by intros ->|by apply grid_key_inj].
Qed.

Lemma state_to_string_injective_witness :
  shape_3x3 goal_state ∧ cells_in_range goal_state ∧
  shape_3x3 [[0; 0; 0]; [0; 0; 0]; [0; 0; 8]] ∧
  cells_in_range [[0; 0; 0]; [0; 0; 0]; [0; 0; 8]] ∧
  (goal_state = [[0; 0; 0]; [0; 0; 0]; [0; 0; 8]] ↔
   state_to_string goal_state =
   state_to_string [[0; 0; 0]; [0; 0; 0]; [0; 0; 8]]).
Proof.
  assert (∀ st : state, length st = 3%nat →
            Forall (λ row, length row = 3%nat) st → shape_3x3 st) as Hs
    by (by split).
  assert (shape_3x3 goal_state) as H1 by (apply Hs; [done|by repeat constructor]).
  assert (cells_in_range goal_state) as H2 by (repeat constructor; lia).
  assert (shape_3x3 [[0; 0; 0]; [0; 0; 0]; [0; 0; 8]]) as H3
    by (apply Hs; [done|by repeat constructor]).
  assert (cells_in_range [[0; 0; 0]; [0; 0; 0]; [0; 0; 8]]) as H4
    by (repeat constructor; lia).
  do 4 (split; [assumption|]).
  exact (state_to_string_injective _ _ H1 H2 H3 H4).
Defined.

(** ** The heuristic *)

Lemma add_cell_distance_eq st d i j x :
  getcell st i j = Ret x →
  add_cell_distance st d (i, j) = Ret (d + cell_distance i j x).
Proof.
  intros Hx. unfold add_cell_distance, cell_distance. rewrite Hx. cbn.
  by destruct (x =? 0); cbn; rewrite ?Z.add_0_r.
Qed.

Lemma manhattan_distance_grid a b c d e f g h i :
  manhattan_distance [[a; b; c]; [d; e; f]; [g; h; i]] =
  Ret (0 + cell_distance 0 0 a + cell_distance 0 1 b + cell_distance 0 2 c
         + cell_distance 1 0 d + cell_distance 1 1 e + cell_distance 1 2 f
         + cell_distance 2 0 g + cell_distance 2 1 h + cell_distance 2 2 i).
Proof.
  unfold manhattan_distance.
  change grid_cells with
    [(0, 0); (0, 1); (0, 2); (1, 0); (1, 1); (1, 2); (2, 0); (2, 1); (2, 2)].
  cbn [for_each].
  repeat (erewrite add_cell_distance_eq by reflexivity;
          cbn [mbind result_bind]).
  reflexivity.
Qed.

Lemma cell_distance_nonneg i j x : 0 ≤ cell_distance i j x.
Proof. unfold cell_distance. destruct (x =? 0); lia. Qed.

Lemma cell_distance_blank i j : cell_distance i j 0 = 0.
Proof. reflexivity. Qed.

(** A numbered tile contributes nothing exactly on its goal cell, and never
    more than 4. *)
Lemma cell_distance_tile i j x :
  0 ≤ i < 3 → 0 ≤ j < 3 → 1 ≤ x ≤ 8 →
  cell_distance i j x ≤ 4 ∧ (cell_distance i j x = 0 → x = 3 * i + j + 1).
Proof.
  intros Hi Hj Hx.
  assert (i = 0 ∨ i = 1 ∨ i = 2) as Hi' by lia.
  assert (j = 0 ∨ j = 1 ∨ j = 2) as Hj' by lia.
  assert (x = 1 ∨ x = 2 ∨ x = 3 ∨ x = 4 ∨ x = 5 ∨ x = 6 ∨ x = 7 ∨ x = 8)
    as Hx' by lia.
  destruct_or!; subst; vm_compute; split; congruence.
Qed.

Lemma tiles_range l x : tiles l → x ∈ l → 1 ≤ x ≤ 8.
Proof.
  unfold tiles. intros Hl Hx. rewrite Hl in Hx.
  apply elem_of_seqZ in Hx. lia.
Qed.

Lemma tiles_Forall l : tiles l → Forall (λ x, 1 ≤ x ≤ 8) l.
Proof. intros Ht. apply Forall_forall. intros x. by apply tiles_range. Qed.

(** On a configuration the heuristic is the sum of the eight tile
    contributions: it lies between 0 and 32 and vanishes only at the goal. *)
Lemma neighbors_of_manhattan st p ns :
  neighbors_of st p ns →
  ∃ d, manhattan_distance st = Ret d ∧ 0 ≤ d ≤ 32 ∧ (d = 0 → st = goal_state).
Proof.
  intros H.
  neighbors_of_inv H Ht; rewrite manhattan_distance_grid, cell_distance_blank;
    eexists; (split; [reflexivity|]);
    apply tiles_Forall in Ht; rewrite !Forall_cons in Ht; destruct_and!.
  all: repeat match goal with
       | |- context [cell_distance ?i ?j ?x] =>
           lazymatch goal with
           | _ : 0 ≤ cell_distance i j x |- _ => fail
           | _ =>
               assert (cell_distance i j x ≤ 4 ∧
                       (cell_distance i j x = 0 → x = 3 * i + j + 1))
                 by (apply cell_distance_tile; lia);
               pose proof (cell_distance_nonneg i j x)
           end
       end.
  all: split; [lia|]; intros Hd.
  all: first [lia | unfold goal_state; repeat (f_equal; try lia)].
Qed.

(** ** The claims about the state model *)

(** Validity of a concrete grid is decided by computation. *)
Ltac solve_valid_state :=
  split; [split; [reflexivity | by repeat constructor]
         | by apply (bool_decide_unpack _); vm_compute].

Lemma goal_state_valid : valid_state goal_state.
Proof. solve_valid_state. Qed.

Lemma one_move_state_valid : valid_state one_move_state.
Proof. solve_valid_state. Qed.

Lemma two_move_state_valid : valid_state two_move_state.
Proof. solve_valid_state. Qed.

Lemma center_state_valid : valid_state center_state.
Proof. solve_valid_state. Qed.

Lemma neighbors_of_length st p ns :
  neighbors_of st p ns → length ns = expected_neighbors p.
Proof. by destruct 1. Qed.

Lemma neighbors_of_on_grid st p ns :
  neighbors_of st p ns → 0 ≤ p.1 < 3 ∧ 0 ≤ p.2 < 3.
Proof. destruct 1; cbn; lia. Qed.

(** C3: on a configuration, with the blank at the position [p] of the grid,
    [get_neighbors] returns [expected_neighbors p] configurations: 2 when
    the blank is in a corner, 3 when it is on an edge and 4 when it is in the
    center; each of them is the input after one swap of the blank with an
    orthogonally adjacent cell, and is again a permutation of 0..8. *)
Theorem get_neighbors_count_and_shape st :
  valid_state st →
  ∃ p ns,
    get_blank_position st = Ret (Some p) ∧
    (0 ≤ p.1 < 3 ∧ 0 ≤ p.2 < 3) ∧
    get_neighbors st = Ret ns ∧
    length ns = expected_neighbors p ∧
    ∀ n, n ∈ ns → blank_swap st n ∧ valid_state n.
Proof.
  intros (p & ns & H)%valid_neighbors_of. exists p, ns.
  split; [by eapply neighbors_of_blank|].
  split; [by eapply neighbors_of_on_grid|].
  split; [by eapply neighbors_of_sound|].
  split; [by eapply neighbors_of_length|].
  intros n Hn. split.
  - by eapply neighbors_of_blank_swap.
  - by eapply neighbors_of_valid_neighbor.
Qed.

Lemma get_neighbors_count_and_shape_witness :
  valid_state center_state ∧
  ∃ p ns,
    get_blank_position center_state = Ret (Some p) ∧
    (0 ≤ p.1 < 3 ∧ 0 ≤ p.2 < 3) ∧
    get_neighbors center_state = Ret ns ∧
    length ns = expected_neighbors p ∧
    ∀ n, n ∈ ns → blank_swap center_state n ∧ valid_state n.
Proof.
  split; [exact center_state_valid|].
  apply (get_neighbors_count_and_shape center_state), center_state_valid.
Defined.

(** C4: on a configuration [manhattan_distance] returns a non-negative
    integer, which is 0 exactly when the configuration is the goal; in
    particular it is 0 on the goal configuration. *)
Theorem manhattan_distance_zero_iff_goal st :
  valid_state st →
  manhattan_distance goal_state = Ret 0 ∧
  ∃ d, manhattan_distance st = Ret d ∧ 0 ≤ d ∧ (d = 0 ↔ st = goal_state).
Proof.
  intros (p & ns & H)%valid_neighbors_of. split; [reflexivity|].
  destruct (neighbors_of_manhattan _ _ _ H) as (d & Hd & Hr & H0).
  exists d. split; [done|]. split; [lia|]. split; [done|].
  intros ->. cbv in Hd. congruence.
Qed.

Lemma manhattan_distance_zero_iff_goal_witness :
  valid_state one_move_state ∧
  manhattan_distance goal_state = Ret 0 ∧
  ∃ d, manhattan_distance one_move_state = Ret d ∧ 0 ≤ d ∧
       (d = 0 ↔ one_move_state = goal_state).
Proof.
  split; [exact one_move_state_valid|].
  apply (manhattan_distance_zero_iff_goal one_move_state), one_move_state_valid.
Defined.

(** C9: on a configuration [get_blank_position] returns the coordinates of
    the one cell that holds 0, never [None], so that [get_neighbors] unpacks
    the position and returns without raising. *)
Theorem get_blank_position_finds_blank st :
  valid_state st →
  ∃ p,
    get_blank_position st = Ret (Some p) ∧
    (0 ≤ p.1 < 3 ∧ 0 ≤ p.2 < 3) ∧
    getcell st p.1 p.2 = Ret 0 ∧
    cell st (grid_pos p) = Some 0 ∧
    (∀ q, cell st q = Some 0 → q = grid_pos p) ∧
    ∃ ns, get_neighbors st = Ret ns.
Proof.
  intros (p & ns & H)%valid_neighbors_of. exists p.
  split; [by eapply neighbors_of_blank|].
  split; [by eapply neighbors_of_on_grid|].
  split; [by destruct H|].
  split; [by eapply neighbors_of_blank_cell|].
  split; [by eapply neighbors_of_blank_cell|].
  exists ns. by eapply neighbors_of_sound.
Qed.

Lemma get_blank_position_finds_blank_witness :
  valid_state center_state ∧
  ∃ p,
    get_blank_position center_state = Ret (Some p) ∧
    (0 ≤ p.1 < 3 ∧ 0 ≤ p.2 < 3) ∧
    getcell center_state p.1 p.2 = Ret 0 ∧
    cell center_state (grid_pos p) = Some 0 ∧
    (∀ q, cell center_state q = Some 0 → q = grid_pos p) ∧
    ∃ ns, get_neighbors center_state = Ret ns.
Proof.
  split; [exact center_state_valid|].
  apply (get_blank_position_finds_blank center_state), center_state_valid.
Defined.

Lemma valid_state_cells_in_range st : valid_state st → cells_in_range st.
Proof.
  intros (a & b & c & d & e & f & g & h & i & -> & Hp)%valid_state_inv.
  assert (Forall (λ x, 0 ≤ x ≤ 8) [a; b; c; d; e; f; g; h; i]) as Hr.
  { apply Forall_forall. intros x Hx. rewrite Hp in Hx.
    apply elem_of_seqZ in Hx. lia. }
  rewrite !Forall_cons in Hr. destruct_and!.
  repeat apply Forall_cons_2; try apply Forall_nil_2; lia.
Qed.

(** Keys decide equality of configurations. *)
Lemma state_to_string_inj st1 st2 :
  valid_state st1 → valid_state st2 →
  state_to_string st1 = state_to_string st2 → st1 = st2.
Proof.
  intros H1 H2.
  apply grid_key_inj;
    auto using valid_state_cells_in_range; by apply H1 || apply H2.
Qed.

(** ** Paths in the state graph *)

Lemma valid_get_neighbors st :
  valid_state st → ∃ ns, get_neighbors st = Ret ns.
Proof.
  intros (p & ns & H)%valid_neighbors_of. exists ns.
  by eapply neighbors_of_sound.
Qed.

Lemma step_valid st st' : valid_state st → step st st' → valid_state st'.
Proof.
  intros (p & ns & H)%valid_neighbors_of (ns' & Hns & Hin).
  rewrite (neighbors_of_sound _ _ _ H) in Hns. simplify_eq.
  by eapply neighbors_of_valid_neighbor.
Qed.

Lemma step_blank_swap st st' : valid_state st → step st st' → blank_swap st st'.
Proof.
  intros (p & ns & H)%valid_neighbors_of (ns' & Hns & Hin).
  rewrite (neighbors_of_sound _ _ _ H) in Hns. simplify_eq.
  by eapply neighbors_of_blank_swap.
Qed.

(** On configurations the code generates exactly the legal moves. *)
Lemma step_iff_blank_swap st st' :
  valid_state st → step st st' ↔ blank_swap st st'.
Proof. split; [by apply step_blank_swap|by apply blank_swap_step]. Qed.

Lemma step_sym st st' : valid_state st → step st st' → step st' st.
Proof.
  intros (p & ns & H)%valid_neighbors_of (ns' & Hns & Hin).
  rewrite (neighbors_of_sound _ _ _ H) in Hns. simplify_eq.
  destruct (neighbors_of_sym _ _ _ _ H Hin) as (q & ms & H' & Hin').
  exists ms. split; [by eapply neighbors_of_sound|done].
Qed.

Lemma reach_iff_swap_reach n st st' :
  valid_state st → reach n st st' ↔ swap_reach n st st'.
Proof.
  intros Hv. split.
  - intros Hr. induction Hr as [|n st st' st'' Hs Hr IH]; [constructor|].
    econstructor; [by apply step_blank_swap|].
    apply IH. by eapply step_valid.
  - intros Hr. induction Hr as [|n st st' st'' Hs Hr IH]; [constructor|].
    apply blank_swap_step in Hs; [|done].
    econstructor; [done|]. apply IH. by eapply step_valid.
Qed.

Lemma reachable_iff_solvable st :
  valid_state st → reachable st goal_state ↔ solvable st.
Proof.
  intros Hv. unfold reachable, solvable.
  split; intros [n Hn]; exists n; by apply reach_iff_swap_reach.
Qed.

Lemma moves_from_swaps st p : valid_state st → moves_from st p → swaps_from st p.
Proof.
  revert st. induction p as [|x p IH]; intros st Hv; [done|].
  intros [Hs Hm]. split; [by apply step_blank_swap|].
  apply IH; [by eapply step_valid|done].
Qed.

Lemma reach_app n m st1 st2 st3 :
  reach n st1 st2 → reach m st2 st3 → reach (n + m) st1 st3.
Proof. induction 1; intros; simpl; eauto using reach. Qed.

Lemma reach_snoc n st1 st2 st3 :
  reach n st1 st2 → step st2 st3 → reach (S n) st1 st3.
Proof.
  intros H1 H2. replace (S n) with (n + 1)%nat by lia.
  eapply reach_app; eauto using reach.
Qed.

Lemma reach_sym n st st' : valid_state st → reach n st st' → reach n st' st.
Proof.
  intros Hv Hr. induction Hr as [|n st st' st'' Hs Hr IH]; [constructor|].
  eapply reach_snoc; [apply IH; by eapply step_valid|by apply step_sym].
Qed.

Lemma reachable_sym st st' :
  valid_state st → reachable st st' → reachable st' st.
Proof. intros Hv [n Hr]. exists n. by apply reach_sym. Qed.

Lemma reachable_trans st1 st2 st3 :
  reachable st1 st2 → reachable st2 st3 → reachable st1 st3.
Proof. intros [n Hn] [m Hm]. exists (n + m)%nat. by eapply reach_app. Qed.

Lemma reachable_step st1 st2 st3 :
  reachable st1 st2 → step st2 st3 → reachable st1 st3.
Proof. intros [n Hn] Hs. exists (S n). by eapply reach_snoc. Qed.

Lemma path_to_nil st : path_to st [] st.
Proof. by split. Qed.

Lemma path_to_snoc start p st st' :
  path_to start p st → step st st' → path_to start (p ++ [st']) st'.
Proof.
  intros [Hm Hl] Hs. split.
  - revert start Hm Hl. induction p as [|x p IH]; intros start Hm Hl.
    + simpl in *. by simplify_eq.
    + destruct Hm as [Hx Hm]. split; [done|].
      apply IH; [done|]. by rewrite last_cons_cons in Hl.
  - by rewrite app_comm_cons, last_snoc.
Qed.

Lemma path_to_reach start p st :
  path_to start p st → reach (length p) start st.
Proof.
  intros [Hm Hl]. revert start Hm Hl.
  induction p as [|x p IH]; intros start Hm Hl.
  - simpl in *. simplify_eq. constructor.
  - destruct Hm as [Hx Hm]. rewrite last_cons_cons in Hl.
    econstructor; eauto.
Qed.

Lemma fst_unique {A B} (l : list (A * B)) x y1 y2 :
  NoDup l.*1 → (x, y1) ∈ l → (x, y2) ∈ l → y1 = y2.
Proof.
  induction l as [|[a b] l IH]; csimpl; [by intros _ ?%elem_of_nil|].
  rewrite NoDup_cons, !elem_of_cons. intros [Hn Hnd] [?|H1] [?|H2];
    simplify_eq; auto.
  - destruct Hn. apply list_elem_of_fmap. by exists (a, y2).
  - destruct Hn. apply list_elem_of_fmap. by exists (a, y1).
Qed.

(** ** The finite state space *)

Lemma concat_grid_inj st1 st2 :
  valid_state st1 → valid_state st2 → concat st1 = concat st2 → st1 = st2.
Proof.
  intros (? & ? & ? & ? & ? & ? & ? & ? & ? & -> & _)%valid_state_inv
         (? & ? & ? & ? & ? & ? & ? & ? & ? & -> & _)%valid_state_inv.
  cbn. intros. by simplify_eq.
Qed.

Lemma distinct_states_bound (l : list state) :
  NoDup l → Forall valid_state l → (length l ≤ state_space)%nat.
Proof.
  intros Hnd Hv. rewrite Forall_forall in Hv. unfold state in *.
  rewrite <- (length_fmap (@concat Z) l). apply submseteq_length, NoDup_submseteq.
  - apply NoDup_fmap_2_strong; [|done].
    intros; apply concat_grid_inj; auto.
  - intros x (st & -> & Hst)%list_elem_of_fmap.
    apply permutations_Permutation. symmetry. by apply Hv.
Qed.

(** ** Correctness of the breadth-first search *)

Lemma snoc_app {A} (l k : list A) x : (l ++ [x]) ++ k = l ++ x :: k.
Proof. by rewrite <- app_assoc. Qed.

Section bfs_correct.
Variable start : state.
Hypothesis start_valid : valid_state start.

Lemma bfs_inv_init :
  bfs_inv start 0 [] [(start, [])] {[state_to_string start]} (start, []) [].
Proof.
  split; simpl.
  - set_solver.
  - intros st p Heq%list_elem_of_singleton. simplify_eq.
    split; [done|apply path_to_nil].
  - apply NoDup_singleton.
  - intros st Hst. rewrite elem_of_singleton. split.
    + intros ->%state_to_string_inj; [|done..]. exists []. set_solver.
    + intros [p Hp]. set_solver.
  - split; [set_solver|]. exists [(start, [])], []. set_solver.
  - set_solver.
  - set_solver.
Qed.

Lemma bfs_inv_length_le d done queue visited cur todo e :
  bfs_inv start d done queue visited cur todo →
  e ∈ done ++ queue → (length e.2 ≤ S d)%nat.
Proof.
  intros [_ _ _ _ [Hd (q1 & q2 & -> & H1 & H2)] _ _].
  rewrite !elem_of_app. intros [He|[He|He]].
  - specialize (Hd e He). lia.
  - specialize (H1 e He). lia.
  - specialize (H2 e He). lia.
Qed.

Lemma bfs_inv_visit d done queue visited cur n todo q' v' :
  bfs_inv start d done queue visited cur (n :: todo) →
  bfs_visit cur.2 (queue, visited) n = (q', v') →
  bfs_inv start d done q' v' cur todo.
Proof.
  intros Hinv. pose proof Hinv as [Hst Hp Hnd Hv Hl Hdone Htodo].
  destruct cur as [cst cp].
  destruct (Htodo n) as (Hcur & Hlen & Hstep); [set_solver|]. simpl in *.
  assert (valid_state cst ∧ path_to start cp cst) as [Hcv Hcp].
  { apply Hp. set_solver. }
  assert (valid_state n) as Hn by eauto using step_valid.
  unfold bfs_visit. case_bool_decide as Hin; intros ?; simplify_eq.
  - (* already visited *)
    split; try done.
    + intros st p Hin'. destruct (Hdone st p Hin') as [Hg Hnb].
      split; [done|]. intros n' Hn'.
      destruct (Hnb n' Hn') as [?|[? [-> |?]%elem_of_cons]]; auto.
      left. apply Hv in Hin as [p' Hp']; [|done]. exists p'. split; [done|].
      simplify_eq.
      apply (bfs_inv_length_le _ _ _ _ _ _ (n, p') Hinv Hp').
    + intros n' Hn'. apply Htodo. set_solver.
  - (* a new configuration *)
    assert (∀ p, (n, p) ∉ done ++ queue) as Hnew.
    { intros p Hp'. apply Hin, Hv; eauto. }
    split.
    + set_solver.
    + intros st p. rewrite app_assoc, elem_of_app, list_elem_of_singleton.
      intros [?|?]; [by apply Hp|]. simplify_eq.
      split; [done|]. by eapply path_to_snoc.
    + rewrite app_assoc, fmap_app. apply NoDup_app. split_and!; [done| |].
      * intros st [[st' p] [-> Hin']]%list_elem_of_fmap.
        simpl. intros ->%list_elem_of_singleton. by eapply Hnew.
      * apply NoDup_singleton.
    + intros st Hst'. rewrite elem_of_union, elem_of_singleton, (Hv st Hst').
      split.
      * intros [->%state_to_string_inj|[p Hp']]; [| |done|].
        -- eexists. rewrite app_assoc. apply elem_of_app. right.
           by apply list_elem_of_singleton.
        -- done.
        -- exists p. set_solver.
      * intros [p Hp']. rewrite app_assoc, elem_of_app in Hp'.
        destruct Hp' as [?|Heq%list_elem_of_singleton]; [right; eauto|].
        left. by simplify_eq.
    + destruct Hl as [Hd (q1 & q2 & -> & H1 & H2)]. split; [done|].
      exists q1, (q2 ++ [(n, cp ++ [n])]). split; [by rewrite app_assoc|].
      split; [done|]. intros e [?| ->%list_elem_of_singleton]%elem_of_app.
      * by apply H2.
      * simpl. rewrite length_app. simpl. lia.
    + intros st p Hin'. destruct (Hdone st p Hin') as [Hg Hnb].
      split; [done|]. intros n' Hn'.
      destruct (Hnb n' Hn') as [(p' & ? & ?)|[? [-> |?]%elem_of_cons]]; auto.
      * left. exists p'. split; [set_solver|done].
      * left. exists (cp ++ [n]). split; [set_solver|].
        simplify_eq. rewrite length_app. simpl. lia.
    + intros n' Hn'. apply Htodo. set_solver.
Qed.

Lemma bfs_inv_fold d done cur todo :
  ∀ queue visited q' v',
    bfs_inv start d done queue visited cur todo →
    foldl (bfs_visit cur.2) (queue, visited) todo = (q', v') →
    bfs_inv start d done q' v' cur [].
Proof.
  induction todo as [|n todo IH]; intros queue visited q' v' Hinv Hf.
  - simpl in Hf. by simplify_eq.
  - cbn [foldl] in Hf.
    destruct (bfs_visit cur.2 (queue, visited) n) as [q1 v1] eqn:Hv.
    eapply IH; [|exact Hf]. by eapply bfs_inv_visit.
Qed.

Lemma bfs_inv_pop d done st p queue visited cur ns :
  bfs_inv start d done ((st, p) :: queue) visited cur [] →
  st ≠ goal_state →
  get_neighbors st = Ret ns →
  bfs_inv start (length p) (done ++ [(st, p)]) queue visited (st, p) ns.
Proof.
  intros [Hst Hp Hnd Hv Hl Hdone Htodo] Hg Hns. split.
  - by rewrite snoc_app.
  - intros st' p'. rewrite snoc_app. apply Hp.
  - by rewrite snoc_app.
  - intros st' Hv'. rewrite snoc_app. by apply Hv.
  - destruct Hl as [Hd (q1 & q2 & Hq & H1 & H2)].
    destruct q1 as [|e q1]; simpl in Hq; simplify_eq.
    + assert (length p = S d) as Hlen by (apply (H2 (st, p)); set_solver).
      split.
      * intros e [?%Hd| ->%list_elem_of_singleton]%elem_of_app; simpl; lia.
      * exists queue, []. rewrite app_nil_r.
        split; [done|]. split; [|set_solver].
        intros e He. rewrite Hlen. apply H2. set_solver.
    + assert (length p = d) as Hlen by (apply (H1 (st, p)); set_solver).
      split.
      * intros e [?%Hd| ->%list_elem_of_singleton]%elem_of_app; simpl; lia.
      * exists q1, q2. rewrite Hlen. split; [done|].
        split; [|done]. intros e He. apply H1. set_solver.
  - intros st' p' [Hin|Heq%list_elem_of_singleton]%elem_of_app.
    + destruct (Hdone st' p' Hin) as [Hg' Hnb]. split; [done|].
      intros n Hn. rewrite snoc_app.
      destruct (Hnb n Hn) as [?|[_ []%elem_of_nil]]. by left.
    + simplify_eq. split; [done|]. intros n (ns' & Hns' & Hn).
      right. split; [done|congruence].
  - intros n Hn. split_and!; [set_solver|done|by exists ns].
Qed.

(** Every configuration reachable from a recorded one is recorded with a
    path at most as long, or lies behind an entry still in the queue. *)
Lemma bfs_inv_cover d done queue visited cur k st y :
  bfs_inv start d done queue visited cur [] →
  reach k st y →
  ∀ p, (st, p) ∈ done ++ queue →
    (∃ py, (y, py) ∈ done ++ queue ∧ (length py ≤ length p + k)%nat) ∨
    (∃ z pz, (z, pz) ∈ queue ∧ (length pz ≤ length p + k)%nat).
Proof.
  intros Hinv Hr. induction Hr as [st|k st st' st'' Hs Hr IH]; intros p Hp.
  - left. exists p. split; [done|lia].
  - apply elem_of_app in Hp as [Hp|Hp].
    + destruct (inv_done _ _ _ _ _ _ _ Hinv st p Hp) as [_ Hnb].
      destruct (Hnb st' Hs) as [(p' & Hp' & Hle)|[_ ?%elem_of_nil]]; [|done].
      destruct (IH p' Hp') as [(py & ? & ?)|(z & pz & ? & ?)].
      * left. exists py. split; [done|lia].
      * right. exists z, pz. split; [done|lia].
    + right. exists st, p. split; [done|lia].
Qed.

Lemma bfs_inv_front d done st p queue visited cur e :
  bfs_inv start d done ((st, p) :: queue) visited cur [] →
  e ∈ (st, p) :: queue → (length p ≤ length e.2)%nat.
Proof.
  intros [_ _ _ _ [_ (q1 & q2 & Hq & H1 & H2)] _ _] He.
  rewrite Hq in He. apply elem_of_app in He.
  destruct q1 as [|e1 q1]; simpl in Hq; simplify_eq.
  - destruct He as [[]%elem_of_nil|He].
    pose proof (H2 (st, p)) as Hp. pose proof (H2 e He) as Hlen.
    simpl in Hp. rewrite Hp, Hlen by set_solver. done.
  - pose proof (H1 (st, p)) as Hp. simpl in Hp. rewrite Hp by set_solver.
    destruct He as [He|He].
    + by rewrite (H1 e He).
    + rewrite (H2 e He). lia.
Qed.

Lemma bfs_inv_size d done queue visited cur todo :
  bfs_inv start d done queue visited cur todo →
  (length done + length queue ≤ state_space)%nat.
Proof.
  intros Hinv. rewrite <- length_app, <- (length_fmap fst).
  apply distinct_states_bound; [apply Hinv|].
  apply Forall_forall. intros st [[st' p] [-> Hin]]%list_elem_of_fmap.
  by apply (inv_path _ _ _ _ _ _ _ Hinv st' p).
Qed.

Lemma bfs_loop_correct fuel :
  ∀ d done queue visited cur,
    bfs_inv start d done queue visited cur [] →
    (state_space < fuel + length done)%nat →
    ∃ r, bfs_loop fuel queue visited = Ret r ∧ bfs_post start r.
Proof.
  induction fuel as [|fuel IH]; intros d done queue visited cur Hinv Hfuel.
  all: destruct queue as [|[st p] queue].
  all: try (exists None; split; [done|]; intros [k Hk];
    destruct (bfs_inv_cover _ _ _ _ _ _ _ _ Hinv Hk [] (inv_start _ _ _ _ _ _ _ Hinv))
      as [(py & Hpy & _)|(? & ? & []%elem_of_nil & _)];
    rewrite app_nil_r in Hpy;
    by destruct (inv_done _ _ _ _ _ _ _ Hinv _ _ Hpy)).
  - apply bfs_inv_size in Hinv. simpl in *. lia.
  - simpl. unfold is_goal. case_bool_decide as Hg.
    + subst st. exists (Some p). split; [done|]. split.
      * apply (inv_path _ _ _ _ _ _ _ Hinv). set_solver.
      * intros m Hm.
        destruct (bfs_inv_cover _ _ _ _ _ _ _ _ Hinv Hm []
                    (inv_start _ _ _ _ _ _ _ Hinv))
          as [(py & Hpy & Hle)|(z & pz & Hz & Hle)]; simpl in Hle.
        -- assert (py = p) as ->; [|done].
           eapply fst_unique; [apply Hinv|done|set_solver].
        -- pose proof (bfs_inv_front _ _ _ _ _ _ _ (z, pz) Hinv Hz).
           simpl in *. lia.
    + assert (valid_state st) as Hv
        by (apply (inv_path _ _ _ _ _ _ _ Hinv st p); set_solver).
      destruct (valid_get_neighbors _ Hv) as [ns Hns]. rewrite Hns. simpl.
      destruct (foldl (bfs_visit p) (queue, visited) ns) as [q' v'] eqn:Hf.
      eapply (IH (length p) (done ++ [(st, p)]) q' v' (st, p)).
      * eapply (bfs_inv_fold _ _ (st, p)); [|done].
        by apply (bfs_inv_pop d _ _ _ _ _ cur).
      * rewrite length_app. simpl. lia.
Qed.

(** [solve_bfs] returns, and what it returns is right. *)
Lemma solve_bfs_correct fuel :
  (state_space < fuel)%nat →
  ∃ r, solve_bfs fuel start = Ret r ∧ bfs_post start r.
Proof.
  intros Hfuel. eapply bfs_loop_correct; [apply bfs_inv_init|].
  simpl. lia.
Qed.
End bfs_correct.

(** More fuel does not change a result. *)
Lemma bfs_loop_mono fuel :
  ∀ queue visited r fuel',
    bfs_loop fuel queue visited = Ret r → (fuel ≤ fuel')%nat →
    bfs_loop fuel' queue visited = Ret r.
Proof.
  induction fuel as [|fuel IH]; intros [|[st p] queue] visited r fuel' Hr Hle;
    try done; try (by destruct fuel').
  destruct fuel' as [|fuel']; [lia|]. simpl in *.
  destruct (is_goal st); [done|].
  destruct (get_neighbors st) as [ns| |]; try done. simpl in *.
  destruct (foldl (bfs_visit p) (queue, visited) ns) as [q' v'].
  apply IH; [done|lia].
Qed.

Lemma solve_bfs_mono fuel fuel' st r :
  solve_bfs fuel st = Ret r → (fuel ≤ fuel')%nat → solve_bfs fuel' st = Ret r.
Proof. apply bfs_loop_mono. Qed.

(** Whatever fuel it is given, [solve_bfs] returns nothing but what the
    specification allows. *)
Lemma solve_bfs_sound fuel st r :
  valid_state st → solve_bfs fuel st = Ret r → bfs_post st r.
Proof.
  intros Hv Hr.
  destruct (solve_bfs_correct st Hv (S (fuel `max` state_space)))
    as (r' & Hr' & Hpost); [lia|].
  rewrite (solve_bfs_mono fuel _ st r Hr) in Hr' by lia. by simplify_eq.
Qed.

(** ** Bidirectional search on an unsolvable configuration *)

Section bidir_unsolvable.
Variable start : state.
Hypothesis start_valid : valid_state start.
Hypothesis unsolvable : ¬ reachable start goal_state.

Lemma side_inv_init seed :
  valid_state seed →
  side_inv seed [] [(seed, [])] {[state_to_string seed := []]}.
Proof.
  intros Hv. split; simpl.
  - intros st p Heq%list_elem_of_singleton. simplify_eq.
    split; [done|]. exists 0%nat. constructor.
  - apply NoDup_singleton.
  - intros st Hst. split.
    + intros [x Hx]. apply lookup_singleton_Some in Hx as [Hk _].
      apply state_to_string_inj in Hk; [|done..]. subst.
      exists []. by apply list_elem_of_singleton.
    + intros [p Heq%list_elem_of_singleton]. simplify_eq.
      rewrite lookup_singleton_eq. eauto.
Qed.

Lemma side_inv_visit seed done queue visited path n q' v' :
  side_inv seed done queue visited →
  valid_state n → reachable seed n →
  bidir_visit path (queue, visited) n = (q', v') →
  side_inv seed done q' v'.
Proof.
  intros [Hr Hnd Hv] Hn Hrn. unfold bidir_visit.
  destruct (visited !! state_to_string n) as [x|] eqn:Hlook;
    intros ?; simplify_eq; [done|].
  assert (∀ p, (n, p) ∉ done ++ queue) as Hnew.
  { intros p Hp. assert (is_Some (visited !! state_to_string n)) as [? ?].
    { apply Hv; eauto. }
    congruence. }
  split.
  - intros st p. rewrite app_assoc, elem_of_app, list_elem_of_singleton.
    intros [?|?]; [by apply (Hr st p)|]. by simplify_eq.
  - rewrite app_assoc, fmap_app. apply NoDup_app. split_and!; [done| |].
    + intros st [[st' p] [-> Hin']]%list_elem_of_fmap.
      simpl. intros ->%list_elem_of_singleton. by eapply Hnew.
    + apply NoDup_singleton.
  - intros st Hst. rewrite lookup_insert_is_Some, (Hv st Hst). split.
    + intros [Hk|[_ [p Hp]]].
      * apply state_to_string_inj in Hk; [|done..]. subst.
        exists (path ++ [st]). rewrite app_assoc. apply elem_of_app.
        right. by apply list_elem_of_singleton.
      * exists p. rewrite app_assoc. apply elem_of_app. by left.
    + intros [p Hp]. rewrite app_assoc in Hp.
      apply elem_of_app in Hp as [Hp|Hp%list_elem_of_singleton].
      * destruct (decide (state_to_string n = state_to_string st));
          [by left|right; split; eauto].
      * simplify_eq. by left.
Qed.

Lemma side_inv_fold seed done path ns :
  ∀ queue visited q' v',
    side_inv seed done queue visited →
    Forall (λ n, valid_state n ∧ reachable seed n) ns →
    foldl (bidir_visit path) (queue, visited) ns = (q', v') →
    side_inv seed done q' v'.
Proof.
  induction ns as [|n ns IH]; intros queue visited q' v' Hinv Hns Hf.
  - simpl in Hf. by simplify_eq.
  - cbn [foldl] in Hf. apply Forall_cons in Hns as [[Hn Hr] Hns].
    destruct (bidir_visit path (queue, visited) n) as [q1 v1] eqn:Hv.
    eapply IH; [|done|exact Hf]. by eapply side_inv_visit.
Qed.

Lemma side_inv_pop seed done st p queue visited :
  side_inv seed done ((st, p) :: queue) visited →
  side_inv seed (done ++ [(st, p)]) queue visited.
Proof.
  intros [Hr Hnd Hv]. split.
  - intros st' p'. rewrite snoc_app. apply Hr.
  - by rewrite snoc_app.
  - intros st' Hv'. rewrite snoc_app. by apply Hv.
Qed.

Lemma side_inv_expand seed done st p queue visited :
  side_inv seed done ((st, p) :: queue) visited →
  ∃ ns, get_neighbors st = Ret ns ∧
    ∀ q' v', foldl (bidir_visit p) (queue, visited) ns = (q', v') →
             side_inv seed (done ++ [(st, p)]) q' v'.
Proof.
  intros Hinv.
  destruct (side_reach _ _ _ _ Hinv st p) as [Hv Hr]; [set_solver|].
  destruct (valid_get_neighbors _ Hv) as [ns Hns]. exists ns.
  split; [done|]. intros q' v'.
  apply side_inv_fold; [by apply side_inv_pop|].
  apply Forall_forall. intros n Hn.
  assert (step st n) by (by exists ns).
  split; [by eapply step_valid|by eapply reachable_step].
Qed.

Lemma side_inv_size seed done queue visited :
  side_inv seed done queue visited →
  (length done + length queue ≤ state_space)%nat.
Proof.
  intros Hinv. rewrite <- length_app, <- (length_fmap fst).
  apply distinct_states_bound; [apply Hinv|].
  apply Forall_forall. intros st [[st' p] [-> Hin]]%list_elem_of_fmap.
  by apply (side_reach _ _ _ _ Hinv st' p).
Qed.

(** The two sides never meet. *)
Lemma sides_disjoint fdone fq fv bdone bq bv st :
  side_inv start fdone fq fv → side_inv goal_state bdone bq bv →
  (∃ p, (st, p) ∈ fdone ++ fq) → (∃ p, (st, p) ∈ bdone ++ bq) → False.
Proof.
  intros Hf Hb [p Hp] [p' Hp'].
  destruct (side_reach _ _ _ _ Hf st p Hp) as [Hv Hr].
  destruct (side_reach _ _ _ _ Hb st p' Hp') as [_ Hr'].
  apply unsolvable. eapply reachable_trans; [done|].
  apply reachable_sym; [apply goal_state_valid|done].
Qed.

Lemma bidir_loop_unsolvable fuel :
  ∀ fdone fq fv bdone bq bv,
    side_inv start fdone fq fv → side_inv goal_state bdone bq bv →
    (state_space < fuel + length fdone)%nat →
    bidir_loop fuel fq fv bq bv = Ret None.
Proof.
  induction fuel as [|fuel IH]; intros fdone fq fv bdone bq bv Hf Hb Hfuel;
    destruct fq as [|[st p] fq]; try done;
    destruct bq as [|[bst bp] bq]; try done.
  - apply side_inv_size in Hf. simpl in *. lia.
  - simpl.
    destruct (bv !! state_to_string st) as [x|] eqn:Hbv.
    { exfalso. eapply (sides_disjoint _ _ _ _ _ _ st Hf Hb).
      - exists p. set_solver.
      - apply (side_visited _ _ _ _ Hb); [|by eauto].
        apply (side_reach _ _ _ _ Hf st p). set_solver. }
    destruct (side_inv_expand _ _ _ _ _ _ Hf) as (ns & -> & Hf'). simpl.
    destruct (foldl (bidir_visit p) (fq, fv) ns) as [fq' fv'] eqn:Hfold.
    specialize (Hf' _ _ eq_refl).
    destruct (fv' !! state_to_string bst) as [x|] eqn:Hfv.
    { exfalso. eapply (sides_disjoint _ _ _ _ _ _ bst Hf' Hb).
      - apply (side_visited _ _ _ _ Hf'); [|by eauto].
        apply (side_reach _ _ _ _ Hb bst bp). set_solver.
      - exists bp. set_solver. }
    destruct (side_inv_expand _ _ _ _ _ _ Hb) as (bns & -> & Hb'). simpl.
    destruct (foldl (bidir_visit bp) (bq, bv) bns) as [bq' bv'] eqn:Hbfold.
    eapply IH; [done|by apply Hb'|].
    rewrite length_app. simpl. lia.
Qed.

Lemma solve_bidirectional_unsolvable fuel :
  (state_space < fuel)%nat → solve_bidirectional fuel start = Ret None.
Proof.
  intros Hfuel.
  eapply (bidir_loop_unsolvable _ [] _ _ []);
    [by apply side_inv_init|apply side_inv_init, goal_state_valid|].
  simpl. lia.
Qed.
End bidir_unsolvable.

Lemma bidir_loop_mono fuel :
  ∀ fq fv bq bv r fuel',
    bidir_loop fuel fq fv bq bv = Ret r → (fuel ≤ fuel')%nat →
    bidir_loop fuel' fq fv bq bv = Ret r.
Proof.
  induction fuel as [|fuel IH];
    intros [|[st p] fq] fv [|[bst bp] bq] bv r fuel' Hr Hle;
    try done; try (by destruct fuel').
  destruct fuel' as [|fuel']; [lia|]. simpl in *.
  destruct (bv !! state_to_string st); [done|].
  destruct (get_neighbors st) as [ns| |]; try done. simpl in *.
  destruct (foldl (bidir_visit p) (fq, fv) ns) as [fq' fv'].
  destruct (fv' !! state_to_string bst); [done|].
  destruct (get_neighbors bst) as [bns| |]; try done. simpl in *.
  destruct (foldl (bidir_visit bp) (bq, bv) bns) as [bq' bv'].
  apply IH; [done|lia].
Qed.

(** ** The parity class of a configuration *)

Lemma smaller_Permutation x l l' : l ≡ₚ l' → smaller x l = smaller x l'.
Proof.
  unfold smaller. induction 1 as [|y l l' _ IH|y z l|l l' l'' _ IH1 _ IH2].
  - done.
  - simpl. destruct (y <? x); simpl; congruence.
  - simpl. by destruct (y <? x), (z <? x).
  - congruence.
Qed.

(** Moving an element over two others changes the number of inversions by
    an even number. *)
Lemma inversions_shift l1 x a b l2 :
  x ≠ a → x ≠ b →
  ∃ k1 k2 : nat,
    (inversions (l1 ++ x :: a :: b :: l2) + 2 * k1 =
     inversions (l1 ++ a :: b :: x :: l2) + 2 * k2)%nat.
Proof.
  intros Ha Hb. induction l1 as [|y l1 (k1 & k2 & IH)].
  - exists ((if (x <? a)%Z then 1 else 0) + (if (x <? b)%Z then 1 else 0))%nat,
      1%nat.
    cbn [app inversions]. unfold smaller. cbn [List.filter].
    destruct (Z.ltb_spec a x), (Z.ltb_spec b x), (Z.ltb_spec x a),
      (Z.ltb_spec x b), (Z.ltb_spec b a); cbn [length]; lia.
  - exists k1, k2. cbn [app inversions].
    rewrite (smaller_Permutation y (l1 ++ x :: a :: b :: l2)
               (l1 ++ a :: b :: x :: l2)) by solve_Permutation.
    lia.
Qed.

Lemma inversions_shift_even l1 x a b l2 :
  x ≠ a → x ≠ b →
  Nat.even (inversions (l1 ++ x :: a :: b :: l2)) =
  Nat.even (inversions (l1 ++ a :: b :: x :: l2)).
Proof.
  intros Ha Hb. destruct (inversions_shift l1 x a b l2 Ha Hb) as (k1 & k2 & H).
  rewrite <- (Nat.even_add_mul_2 (inversions (l1 ++ x :: _)) k1), H.
  apply Nat.even_add_mul_2.
Qed.

Lemma tiles_NoDup l : tiles l → NoDup l.
Proof.
  unfold tiles. intros ->. apply NoDup_seqZ.
Qed.

(** A move keeps the parity of the number of inversions: a horizontal move
    keeps the tile sequence, a vertical one shifts a tile over two others. *)
Ltac solve_distinct := assumption || (apply not_eq_sym; assumption).

Lemma neighbors_of_parity st p ns n :
  neighbors_of st p ns → n ∈ ns → even_parity n = even_parity st.
Proof.
  intros H Hn.
  neighbors_of_inv H Ht; decompose_list_elem_of; subst;
    unfold even_parity, tile_sequence; cbn [concat app List.filter];
    tiles_nonzero Ht; cbn [Z.eqb negb];
    try reflexivity;
    apply tiles_NoDup in Ht;
    repeat (apply NoDup_cons in Ht as [? Ht]);
    repeat match goal with
           | H : _ ∉ _ :: _ |- _ => apply not_elem_of_cons in H as [? ?]
           end;
    first
      [ apply (inversions_shift_even []); solve_distinct
      | apply (inversions_shift_even [_]); solve_distinct
      | apply (inversions_shift_even [_; _]); solve_distinct
      | apply (inversions_shift_even [_; _; _]); solve_distinct
      | apply (inversions_shift_even [_; _; _; _]); solve_distinct
      | apply (inversions_shift_even [_; _; _; _; _]); solve_distinct
      | symmetry; apply (inversions_shift_even []); solve_distinct
      | symmetry; apply (inversions_shift_even [_]); solve_distinct
      | symmetry; apply (inversions_shift_even [_; _]); solve_distinct
      | symmetry; apply (inversions_shift_even [_; _; _]); solve_distinct
      | symmetry; apply (inversions_shift_even [_; _; _; _]); solve_distinct
      | symmetry; apply (inversions_shift_even [_; _; _; _; _]);
        solve_distinct ].
Qed.

Lemma step_parity st st' :
  valid_state st → step st st' → even_parity st' = even_parity st.
Proof.
  intros (p & ns & H)%valid_neighbors_of (ns' & Hns & Hin).
  rewrite (neighbors_of_sound _ _ _ H) in Hns. simplify_eq.
  by eapply neighbors_of_parity.
Qed.

Lemma reach_parity n st st' :
  valid_state st → reach n st st' → even_parity st' = even_parity st.
Proof.
  intros Hv Hr. induction Hr as [|n st st' st'' Hs Hr IH]; [done|].
  rewrite IH by eauto using step_valid. by apply step_parity.
Qed.

Lemma unsolvable_state_valid : valid_state unsolvable_state.
Proof. solve_valid_state. Qed.

Lemma unsolvable_state_unreachable : ¬ reachable unsolvable_state goal_state.
Proof.
  intros [n Hn]. apply reach_parity in Hn; [|apply unsolvable_state_valid].
  discriminate Hn.
Qed.

(** ** The claims about the two graph searches *)

Lemma goal_state_not_own_neighbor : ¬ step goal_state goal_state.
Proof.
  intros (ns & Hns & Hin). vm_compute in Hns. simplify_eq.
  decompose_list_elem_of; discriminate.
Qed.

(** C1: from a configuration from which the goal is reachable, [solve_bfs]
    returns a path whose number of moves is the shortest-path distance [n]
    to the goal in the graph of legal moves; a configuration one move from
    the goal has [n = 1], hence a path of length 1. *)
Theorem solve_bfs_shortest_path st n :
  valid_state st → swap_distance st goal_state n →
  (∃ p,
     (∀ fuel, (state_space < fuel)%nat → solve_bfs fuel st = Ret (Some p)) ∧
     length p = n ∧
     swaps_from st p ∧ last (st :: p) = Some goal_state) ∧
  (blank_swap st goal_state → n = 1%nat).
Proof.
  intros Hv [Hn Hmin]. split.
  - destruct (solve_bfs_correct st Hv (S state_space)) as ([p|] & Hr & Hpost);
      [lia| |].
    + destruct Hpost as [Hp Hle]. exists p. split_and!.
      * intros fuel Hfuel. eapply solve_bfs_mono; [done|lia].
      * apply Nat.le_antisymm.
        -- by apply Hle, reach_iff_swap_reach.
        -- by apply Hmin, reach_iff_swap_reach, path_to_reach.
      * apply moves_from_swaps; [done|apply Hp].
      * apply Hp.
    + destruct Hpost. exists n. by apply reach_iff_swap_reach.
  - intros Hs. destruct n as [|[|n]]; [|done|].
    + inversion Hn; subst. apply blank_swap_step in Hs; [|done].
      by destruct goal_state_not_own_neighbor.
    + assert (S (S n) ≤ 1)%nat; [|lia].
      apply Hmin. econstructor; [done|constructor].
Qed.

Lemma one_move_state_distance : swap_distance one_move_state goal_state 1.
Proof.
  split.
  - apply reach_iff_swap_reach; [apply one_move_state_valid|].
    econstructor; [|constructor]. eexists. split; [reflexivity|set_solver].
  - intros [|m] Hm; [inversion Hm|lia].
Qed.

Lemma solve_bfs_shortest_path_witness :
  valid_state one_move_state ∧ swap_distance one_move_state goal_state 1 ∧
  (∃ p,
     (∀ fuel, (state_space < fuel)%nat →
              solve_bfs fuel one_move_state = Ret (Some p)) ∧
     length p = 1%nat ∧
     swaps_from one_move_state p ∧
     last (one_move_state :: p) = Some goal_state) ∧
  (blank_swap one_move_state goal_state → 1%nat = 1%nat).
Proof.
  split; [exact one_move_state_valid|].
  split; [exact one_move_state_distance|].
  exact (solve_bfs_shortest_path one_move_state 1 one_move_state_valid
           one_move_state_distance).
Defined.

(** The searches run on a few concrete inputs. *)
Example solve_bfs_one_move fuel :
  solve_bfs (4 + fuel) one_move_state = Ret (Some [goal_state]).
Proof. vm_compute. reflexivity. Qed.

Example solve_bfs_two_moves fuel :
  solve_bfs (9 + fuel) two_move_state =
  Ret (Some [one_move_state; goal_state]).
Proof. vm_compute. reflexivity. Qed.

(** C5: from a configuration from which the goal cannot be reached, both
    [solve_bfs] and [solve_bidirectional] stop within [state_space]
    iterations with their frontier exhausted and return the no-solution
    sentinel; whatever the fuel, neither returns a path. *)
Theorem unsolvable_searches_return_none st :
  valid_state st → ¬ solvable st →
  ∀ fuel,
    ((state_space < fuel)%nat →
     solve_bfs fuel st = Ret None ∧ solve_bidirectional fuel st = Ret None) ∧
    (∀ p, solve_bfs fuel st ≠ Ret (Some p) ∧
          solve_bidirectional fuel st ≠ Ret (Some p)).
Proof.
  intros Hv Hun fuel.
  assert (¬ reachable st goal_state) as Hun'
    by (by rewrite reachable_iff_solvable).
  split.
  - intros Hfuel. split; [|by apply solve_bidirectional_unsolvable].
    destruct (solve_bfs_correct st Hv fuel Hfuel) as ([p|] & Hr & Hpost);
      [|done].
    destruct Hun'. exists (length p). apply path_to_reach, Hpost.
  - intros p. split; intros Hr.
    + apply solve_bfs_sound in Hr as [Hp _]; [|done].
      apply Hun'. exists (length p). by apply path_to_reach.
    + apply (bidir_loop_mono _ _ _ _ _ _ (S (fuel `max` state_space))) in Hr;
        [|lia].
      unfold solve_bidirectional in *.
      pose proof (solve_bidirectional_unsolvable st Hv Hun'
                    (S (fuel `max` state_space))) as Hnone.
      unfold solve_bidirectional in Hnone. rewrite Hnone in Hr; [done|lia].
Qed.

Lemma unsolvable_state_unsolvable : ¬ solvable unsolvable_state.
Proof.
  rewrite <- reachable_iff_solvable by apply unsolvable_state_valid.
  apply unsolvable_state_unreachable.
Qed.

Lemma unsolvable_searches_return_none_witness :
  valid_state unsolvable_state ∧ ¬ solvable unsolvable_state ∧
  ∀ fuel,
    ((state_space < fuel)%nat →
     solve_bfs fuel unsolvable_state = Ret None ∧
     solve_bidirectional fuel unsolvable_state = Ret None) ∧
    (∀ p, solve_bfs fuel unsolvable_state ≠ Ret (Some p) ∧
          solve_bidirectional fuel unsolvable_state ≠ Ret (Some p)).
Proof.
  split; [exact unsolvable_state_valid|].
  split; [exact unsolvable_state_unsolvable|].
  exact (unsolvable_searches_return_none unsolvable_state
           unsolvable_state_valid unsolvable_state_unsolvable).
Defined.

(** C10: started on the goal configuration, both [solve_bfs] and
    [solve_bidirectional] return the empty path in their first iteration. *)
Theorem solved_start_returns_empty_path fuel :
  solve_bfs (S fuel) goal_state = Ret (Some []) ∧
  solve_bidirectional (S fuel) goal_state = Ret (Some []).
Proof. split; vm_compute; reflexivity. Qed.

Lemma blank_swap_irrefl_one_move : ¬ blank_swap one_move_state one_move_state.
Proof.
  intros (p & q & v & Hadj & Hp & Hq & Hp' & Hq' & _).
  destruct p as [[|[|[|?]]] [|[|[|?]]]]; try done.
  destruct q as [[|[|[|?]]] [|[|[|?]]]]; try done.
  cbv in Hadj. lia.
Qed.

(** C2, on the code: on a configuration two moves from the goal
    [solve_bidirectional] returns the meeting configuration twice and stops
    short of the goal.  The two consecutive configurations are equal, which
    is no blank swap, and the last one is not the goal. *)
Theorem solve_bidirectional_disconnected fuel :
  solve_bidirectional (3 + fuel) two_move_state =
    Ret (Some [one_move_state; one_move_state]) ∧
  ¬ blank_swap one_move_state one_move_state ∧
  last [one_move_state; one_move_state] ≠ Some goal_state.
Proof.
  split; [vm_compute; reflexivity|].
  split; [exact blank_swap_irrefl_one_move|]. discriminate.
Qed.

(** What C2 asks of a path does hold for the non-empty paths of [solve_bfs]:
    they are chains of blank swaps from the start, and end in the goal. *)
Lemma solve_bfs_path_connected fuel st p :
  valid_state st → solve_bfs fuel st = Ret (Some p) →
  swaps_from st p ∧ last (st :: p) = Some goal_state.
Proof.
  intros Hv Hr. apply solve_bfs_sound in Hr as [[Hm Hl] _]; [|done].
  split; [by apply moves_from_swaps|done].
Qed.

(** ** The cooling schedule of the simulated annealing *)

Lemma anneal_cool_temperature T c s :
  temperature (anneal_cool T c s) = cool T c (temperature s).
Proof.
  unfold anneal_cool, cool.
  by destruct (PrimFloat.ltb (PrimFloat.mul (temperature s) c) 0.01%float).
Qed.

Lemma safe_schedule_iter n :
  ∀ t, safe_schedule n t = true →
       ∀ k, (k < n)%nat → safe_temperature (Nat.iter k default_cool t) = true.
Proof.
  induction n as [|n IH]; intros t Hs k Hk; [lia|].
  cbn [safe_schedule] in Hs. apply andb_true_iff in Hs as [Ht Hs].
  destruct k as [|k]; [done|].
  rewrite Nat.iter_succ_r. apply IH; [done|lia].
Qed.

(** The schedule first restarts, at temperature 0.5, in iteration 919, and
    from there on repeats itself every 781 iterations. *)
Lemma temperature_first_restart : temperature_at 919 = 0.5%float.
Proof. vm_compute. reflexivity. Qed.

Lemma temperature_period : Nat.iter 781 default_cool 0.5%float = 0.5%float.
Proof. vm_compute. reflexivity. Qed.

Lemma temperature_after_restart j :
  temperature_at (j + 919) = Nat.iter j default_cool 0.5%float.
Proof.
  unfold temperature_at. rewrite Nat.iter_add.
  change (Nat.iter 919 default_cool 1%float) with (temperature_at 919).
  by rewrite temperature_first_restart.
Qed.

Lemma temperature_at_periodic k :
  (919 ≤ k)%nat → temperature_at (k + 781) = temperature_at k.
Proof.
  intros Hk.
  replace (k + 781)%nat with (((k - 919) + 781) + 919)%nat by lia.
  rewrite temperature_after_restart, Nat.iter_add, temperature_period.
  rewrite <- temperature_after_restart. f_equal. lia.
Qed.

Lemma temperature_table : safe_schedule 1700 1%float = true.
Proof. vm_compute. reflexivity. Qed.

Lemma temperature_at_safe k : safe_temperature (temperature_at k) = true.
Proof.
  induction (lt_wf k) as [k _ IH].
  destruct (decide (k < 1700)%nat) as [Hk|Hk].
  - by apply (safe_schedule_iter 1700 _ temperature_table).
  - replace k with ((k - 781) + 781)%nat by lia.
    rewrite temperature_at_periodic by lia. apply IH. lia.
Qed.

(** ** Simulated annealing under the default parameters *)

Lemma valid_manhattan st :
  valid_state st →
  ∃ d, manhattan_distance st = Ret d ∧ 0 ≤ d ≤ 32 ∧ (d = 0 ↔ st = goal_state).
Proof.
  intros (p & ns & H)%valid_neighbors_of.
  destruct (neighbors_of_manhattan _ _ _ H) as (d & Hd & Hr & H0).
  exists d. split; [done|]. split; [done|]. split; [done|].
  intros ->. cbv in Hd. congruence.
Qed.

Lemma getitem_nat {A} (l : list A) (i : nat) :
  (i < length l)%nat → ∃ x, getitem l (Z.of_nat i) = Ret x ∧ x ∈ l.
Proof.
  intros Hi. destruct (lookup_lt_is_Some_2 l i Hi) as [x Hx].
  exists x. split; [|by eapply list_elem_of_lookup_2].
  unfold getitem, norm_index.
  destruct (Z.ltb_spec (Z.of_nat i) 0); [lia|].
  destruct (Z.leb_spec 0 (Z.of_nat i)); [|lia].
  destruct (Z.ltb_spec (Z.of_nat i) (Z.of_nat (length l))); [|lia].
  simpl. by rewrite Nat2Z.id, Hx.
Qed.

Section annealing_correct.
Variable random_below : nat → nat → nat.
Variable random_random : nat → float.
Variable libm_exp : float → float.

(** The one assumption on the C library: [exp] of a non-positive number is
    a number, and finite. *)
Hypothesis libm_exp_nonpositive : ∀ x,
  PrimFloat.leb x 0%float = true →
  PrimFloat.is_nan (libm_exp x) = false ∧
  PrimFloat.is_infinity (libm_exp x) = false.

Variable start : state.

Lemma energy_range st e :
  valid_state st → manhattan_distance st = Ret e →
  0 ≤ e ≤ 32 ∧ (e = 0 ↔ st = goal_state).
Proof.
  intros (d & Hd & Hr & H0)%valid_manhattan He.
  rewrite Hd in He. by simplify_eq.
Qed.

Lemma random_choice_neighbor k st :
  valid_state st →
  ∃ ns next, get_neighbors st = Ret ns ∧
    random_choice random_below k ns = Ret next ∧ valid_state next.
Proof.
  intros (p & ns & H)%valid_neighbors_of. exists ns.
  assert (length ns ≠ 0%nat) as Hlen.
  { rewrite (neighbors_of_length _ _ _ H). unfold expected_neighbors.
    by destruct (is_corner p), (is_center p). }
  destruct (getitem_nat ns (random_below k (length ns) `mod` length ns)%nat)
    as (next & Hnext & Hin).
  { by apply Nat.mod_upper_bound. }
  exists next. split; [by eapply neighbors_of_sound|].
  split; [|by eapply neighbors_of_valid_neighbor].
  unfold random_choice. by destruct ns.
Qed.

Lemma acceptance_probability_ok k delta :
  0 ≤ delta ≤ 32 →
  ∃ x, int_div_float (- delta) (temperature_at k) = Ret x ∧
       math_exp libm_exp x = Ret (libm_exp x).
Proof.
  intros Hd. pose proof (temperature_at_safe k) as Hsafe.
  unfold safe_temperature in Hsafe.
  apply andb_true_iff in Hsafe as [Hz Hall].
  rewrite forallb_forall in Hall. specialize (Hall (Z.to_nat delta)).
  rewrite Z2Nat.id in Hall by lia.
  eexists. split.
  - unfold int_div_float. apply negb_true_iff in Hz. by rewrite Hz.
  - unfold math_exp.
    destruct (libm_exp_nonpositive _ (Hall ltac:(apply in_seq; lia)))
      as [-> ->].
    done.
Qed.

Lemma snoc_nongoal p x :
  (∀ st, st ∈ p → st ≠ goal_state) → nongoal_prefix (p ++ [x]).
Proof.
  intros Hp i st Hi Hlt. rewrite length_app in Hlt. simpl in Hlt.
  rewrite lookup_app_l in Hi by lia.
  by eapply Hp, list_elem_of_lookup_2.
Qed.

Lemma anneal_accept_inv k s next e :
  anneal_inv start k k s → current_energy s ≠ 0 →
  valid_state next → manhattan_distance next = Ret e →
  ∃ s', anneal_accept random_random libm_exp k s next e = Ret s' ∧
        anneal_inv start k (S k) s'.
Proof.
  intros [[Hcv Hce] [Hbv Hbe] Hle Hz Ht (rest & Hp & Hlen) Hng Hpre] Hne Hv He.
  destruct (energy_range _ _ Hv He) as [Her He0].
  destruct (energy_range _ _ Hcv Hce) as [Hcr _].
  destruct (energy_range _ _ Hbv Hbe) as [Hbr _].
  assert (∃ rest', path s ++ [next] = start :: rest' ∧
                   (length rest' ≤ S k)%nat) as Hpath'.
  { exists (rest ++ [next]). rewrite Hp. split; [done|].
    rewrite length_app. simpl. lia. }
  assert (e ≠ 0 → ∀ st, st ∈ path s ++ [next] → st ≠ goal_state) as Hng'.
  { intros He' st [?| ->%list_elem_of_singleton]%elem_of_app; [by apply Hng|].
    intros Hg. by apply He', He0. }
  unfold anneal_accept. destruct (Z.ltb_spec e (current_energy s)) as [Hlt|Hge].
  - (* a better state *)
    cbn [current_energy best_energy current_state best_state temperature path].
    destruct (Z.ltb_spec e (best_energy s)); eexists; (split; [done|]);
      split; cbn; try done; try lia; by apply snoc_nongoal, Hng.
  - (* a state that is not better *)
    destruct (acceptance_probability_ok k (e - current_energy s))
      as (x & Hx & Hexp); [lia|].
    rewrite Ht, Hx. cbn [mbind result_bind]. rewrite Hexp.
    cbn [mbind result_bind].
    destruct (PrimFloat.ltb (random_random k) (libm_exp x)).
    + eexists. split; [done|].
      split; cbn; try done; try lia; by apply snoc_nongoal, Hng.
    + exists s. split; [done|]. split; try done. exists rest. split; [done|lia].
Qed.

Lemma anneal_cool_inv k s :
  anneal_inv start k (S k) s →
  anneal_inv start (S k) (S k) (anneal_cool 1%float 0.995%float s).
Proof.
  intros [[Hcv Hce] [Hbv Hbe] Hle Hz Ht Hp Hng Hpre].
  destruct (energy_range _ _ Hbv Hbe) as [Hbr _].
  assert (temperature (anneal_cool 1%float 0.995%float s) =
          temperature_at (S k)) as Ht'.
  { by rewrite anneal_cool_temperature, Ht. }
  revert Ht'. unfold anneal_cool.
  destruct (PrimFloat.ltb _ _); intros Ht'; split; cbn; try done.
  intros Hb. apply Hng. lia.
Qed.

Lemma anneal_step_inv k s :
  anneal_inv start k k s → current_energy s ≠ 0 →
  ∃ s', anneal_step random_below random_random libm_exp
          1%float 0.995%float k s = Ret s' ∧
        anneal_inv start (S k) (S k) s'.
Proof.
  intros Hinv Hne. unfold anneal_step.
  destruct (random_choice_neighbor k (current_state s))
    as (ns & next & -> & Hnext & Hv); [apply Hinv|].
  cbn [mbind result_bind]. rewrite Hnext. cbn [mbind result_bind].
  destruct (valid_manhattan _ Hv) as (e & He & _). rewrite He.
  cbn [mbind result_bind].
  destruct (anneal_accept_inv k s next e Hinv Hne Hv He) as (s' & -> & Hinv').
  cbn [mbind result_bind]. eexists. split; [done|]. by apply anneal_cool_inv.
Qed.

Lemma anneal_loop_inv n :
  ∀ k s, anneal_inv start k k s →
    ∃ p, anneal_loop random_below random_random libm_exp
           1%float 0.995%float (seq k n) s = Ret (Some p) ∧
         (∃ rest, p = start :: rest ∧ (length rest ≤ k + n)%nat) ∧
         nongoal_prefix p.
Proof.
  induction n as [|n IH]; intros k s Hinv.
  - exists (path s). split; [done|]. split; [|apply Hinv].
    destruct (ai_path _ _ _ _ Hinv) as (rest & ? & ?). exists rest.
    split; [done|lia].
  - cbn [seq anneal_loop]. destruct (Z.eqb_spec (current_energy s) 0) as [H0|H0].
    + exists (path s). split; [done|]. split; [|apply Hinv].
      destruct (ai_path _ _ _ _ Hinv) as (rest & ? & ?). exists rest.
      split; [done|lia].
    + destruct (anneal_step_inv k s Hinv H0) as (s' & -> & Hinv').
      cbn [mbind result_bind].
      destruct (IH (S k) s' Hinv') as (p & Hp & (rest & ? & ?) & Hpre).
      exists p. split; [done|]. split; [|done]. exists rest. split; [done|lia].
Qed.
End annealing_correct.

(** ** The annealing loop refines the specification *)

Lemma manhattan_spec_heuristic st :
  valid_state st → manhattan_distance st = Ret (spec_heuristic st).
Proof.
  intros (a & b & c & d & e & f & g & h & i & -> & _)%valid_state_inv.
  apply manhattan_distance_grid.
Qed.

Lemma getitem_nat_lookup {A} (l : list A) (i : nat) x :
  getitem l (Z.of_nat i) = Ret x → l !! i = Some x.
Proof.
  unfold getitem, norm_index.
  destruct (Z.ltb_spec (Z.of_nat i) 0); [lia|].
  destruct (_ && _); [|done]. rewrite Nat2Z.id.
  destruct (l !! i); [|done]. by intros ?; simplify_eq.
Qed.

Lemma random_choice_lookup {A} rb k (l : list A) x :
  random_choice rb k l = Ret x →
  l !! (rb k (length l) `mod` length l)%nat = Some x.
Proof.
  unfold random_choice. destruct l as [|y l]; [done|].
  apply getitem_nat_lookup.
Qed.

Lemma walk_of_anneal_cool T c s :
  walk_of (anneal_cool T c s) = spec_cool T c (walk_of s).
Proof.
  unfold anneal_cool, spec_cool, walk_of. cbn.
  by destruct (PrimFloat.ltb _ _).
Qed.

Lemma walk_of_anneal_accept rr ex k s next s' :
  manhattan_distance (current_state s) = Ret (current_energy s) →
  manhattan_distance (best_state s) = Ret (best_energy s) →
  valid_state (current_state s) → valid_state (best_state s) →
  valid_state next →
  anneal_accept rr ex k s next (spec_heuristic next) = Ret s' →
  walk_of s' = spec_move ex (rr k) (walk_of s) next.
Proof.
  intros Hce Hbe Hcv Hbv Hv.
  rewrite (manhattan_spec_heuristic _ Hcv) in Hce.
  rewrite (manhattan_spec_heuristic _ Hbv) in Hbe.
  injection Hce as Hce. injection Hbe as Hbe.
  unfold anneal_accept, spec_move, walk_of.
  cbn [spec_current spec_best spec_temperature spec_trace].
  rewrite <- Hce, <- Hbe.
  destruct (spec_heuristic next <? spec_heuristic (current_state s)).
  - cbn [current_energy best_energy current_state best_state temperature
         path].
    destruct (spec_heuristic next <? spec_heuristic (best_state s));
      by intros ?; simplify_eq.
  - unfold int_div_float, spec_metropolis.
    destruct (PrimFloat.is_zero (temperature s)); [done|].
    cbn [mbind result_bind]. unfold math_exp.
    destruct (_ && _); [done|]. destruct (_ && _); [done|].
    cbn [mbind result_bind].
    destruct (PrimFloat.ltb _ _); by intros ?; simplify_eq.
Qed.

Section annealing_refines.
Variable random_below : nat → nat → nat.
Variable random_random : nat → float.
Variable libm_exp : float → float.
Hypothesis libm_exp_nonpositive : ∀ x,
  PrimFloat.leb x 0%float = true →
  PrimFloat.is_nan (libm_exp x) = false ∧
  PrimFloat.is_infinity (libm_exp x) = false.
Variable start : state.

(** An iteration of the loop is an iteration of the specification. *)
Lemma anneal_step_spec k s :
  anneal_inv start k k s → current_energy s ≠ 0 →
  ∃ s', anneal_step random_below random_random libm_exp
          1%float 0.995%float k s = Ret s' ∧
        anneal_inv start (S k) (S k) s' ∧
        spec_iteration random_below random_random libm_exp
          1%float 0.995%float k (walk_of s) (walk_of s').
Proof.
  intros Hinv Hne.
  destruct (anneal_step_inv random_below random_random libm_exp
              libm_exp_nonpositive start k s Hinv Hne) as (s' & Hstep & Hinv').
  exists s'. split; [done|]. split; [done|].
  destruct Hinv as [[Hcv Hce] [Hbv Hbe] _ _ _ _ _ _].
  unfold anneal_step in Hstep.
  destruct (valid_neighbors_of _ Hcv) as (pos & ns & Hnb).
  rewrite (neighbors_of_sound _ _ _ Hnb) in Hstep.
  cbn [mbind result_bind] in Hstep.
  destruct (random_choice random_below k ns) as [next| |] eqn:Hnext;
    try done.
  cbn [mbind result_bind] in Hstep.
  assert (valid_state next) as Hv.
  { eapply neighbors_of_valid_neighbor; [done|].
    eapply list_elem_of_lookup_2. by apply random_choice_lookup. }
  rewrite (manhattan_spec_heuristic _ Hv) in Hstep.
  cbn [mbind result_bind] in Hstep.
  destruct (anneal_accept random_random libm_exp k s next
              (spec_heuristic next)) as [s1| |] eqn:Hacc; try done.
  cbn [mbind result_bind] in Hstep. simplify_eq.
  rewrite walk_of_anneal_cool.
  rewrite (walk_of_anneal_accept _ _ _ _ _ _ Hce Hbe Hcv Hbv Hv Hacc).
  econstructor; [exact Hnb|]. by apply random_choice_lookup.
Qed.

(** The loop returns the trace of the walk of the specification, stopped at
    the first iteration that starts with energy 0 or after the last one. *)
Lemma anneal_loop_spec n :
  ∀ k s p,
    anneal_inv start k k s →
    spec_walk random_below random_random libm_exp 1%float 0.995%float
      start k (walk_of s) →
    anneal_loop random_below random_random libm_exp
      1%float 0.995%float (seq k n) s = Ret (Some p) →
    ∃ j w,
      (k ≤ j ≤ k + n)%nat ∧
      spec_walk random_below random_random libm_exp 1%float 0.995%float
        start j w ∧
      p = spec_trace w ∧
      (j = (k + n)%nat ∨ spec_heuristic (spec_current w) = 0).
Proof.
  induction n as [|n IH]; intros k s p Hinv Hw Hrun.
  - simpl in Hrun. simplify_eq. exists k, (walk_of s).
    split; [lia|]. split; [done|]. split; [done|]. left. lia.
  - assert (spec_heuristic (current_state s) = current_energy s) as He.
    { destruct (ai_current _ _ _ _ Hinv) as [Hcv Hce].
      rewrite (manhattan_spec_heuristic _ Hcv) in Hce. by simplify_eq. }
    cbn [seq anneal_loop] in Hrun.
    destruct (Z.eqb_spec (current_energy s) 0) as [H0|H0].
    + simplify_eq. exists k, (walk_of s).
      split; [lia|]. split; [done|]. split; [done|]. right.
      cbn. by rewrite He.
    + destruct (anneal_step_spec k s Hinv H0) as (s' & Hstep & Hinv' & Hit).
      rewrite Hstep in Hrun. cbn [mbind result_bind] in Hrun.
      destruct (IH (S k) s' p Hinv') as (j & w & Hj & Hwj & Hp & Hend);
        [|done|].
      { eapply spec_walk_S; [exact Hw| |exact Hit]. cbn. by rewrite He. }
      exists j, w. split; [lia|]. split; [done|]. split; [done|].
      destruct Hend as [->|?]; [left; lia|by right].
Qed.
End annealing_refines.

(** The walk of the specification is determined by the draws. *)
Lemma spec_iteration_functional rb rr ex T c k w w1 w2 :
  spec_iteration rb rr ex T c k w w1 → spec_iteration rb rr ex T c k w w2 →
  w1 = w2.
Proof.
  intros H1 H2.
  inversion H1 as [? pos ns next Hnb Hnext].
  inversion H2 as [? pos' ns' next' Hnb' Hnext'].
  pose proof (neighbors_of_sound _ _ _ Hnb) as E1.
  pose proof (neighbors_of_sound _ _ _ Hnb') as E2.
  assert (ns' = ns) as -> by congruence.
  assert (next' = next) as -> by congruence.
  reflexivity.
Qed.

Lemma spec_walk_functional rb rr ex T c start k w1 w2 :
  spec_walk rb rr ex T c start k w1 → spec_walk rb rr ex T c start k w2 →
  w1 = w2.
Proof.
  intros H1. revert w2. induction H1 as [|k w w' H1 IH Hne Hit]; intros w2 H2.
  - by inversion H2.
  - inversion H2 as [|? v v' Hv Hne' Hit']; subst.
    rewrite <- (IH _ Hv) in Hit'. by eapply spec_iteration_functional.
Qed.

(** C6: under the default temperature schedule, whatever the random draws,
    [solve_simulated_annealing] returns a trace and never the failure
    sentinel.  The trace is the one accumulated by the walk of the
    specification: the iterations [0 .. k - 1] have been run, each from a
    current energy other than 0, and the trace is returned either at the
    first [k] at which the current energy is 0 or when [k] is
    [max_iterations], whatever its last configuration.  It starts with the
    start configuration and has at most [max_iterations] further entries;
    nothing is appended after the goal (energy 0) has been reached, so only
    its last configuration can be the goal, and it need not be; with
    [max_iterations = 0] the trace is the start configuration alone. *)
Theorem solve_simulated_annealing_returns_trace
    (random_below : nat → nat → nat) (random_random : nat → float)
    (libm_exp : float → float) (st : state) (max_iterations : Z) :
  (∀ x, PrimFloat.leb x 0%float = true →
        PrimFloat.is_nan (libm_exp x) = false ∧
        PrimFloat.is_infinity (libm_exp x) = false) →
  valid_state st →
  ∃ p,
    solve_simulated_annealing random_below random_random libm_exp
      max_iterations 1%float 0.995%float st = Ret (Some p) ∧
    (∃ k w,
       (k ≤ Z.to_nat max_iterations)%nat ∧
       spec_walk random_below random_random libm_exp 1%float 0.995%float
         st k w ∧
       p = spec_trace w ∧
       (k = Z.to_nat max_iterations ∨ spec_heuristic (spec_current w) = 0)) ∧
    (∃ rest, p = st :: rest ∧ (length rest ≤ Z.to_nat max_iterations)%nat) ∧
    nongoal_prefix p ∧
    (max_iterations ≤ 0 → p = [st]) ∧
    (st = goal_state → p = [st]).
Proof.
  intros Hexp Hv. unfold solve_simulated_annealing.
  destruct (valid_manhattan _ Hv) as (e & He & Her & He0). rewrite He.
  cbn [mbind result_bind].
  assert (anneal_inv st 0 0 (Annealing st e st e 1%float [st])) as Hinv.
  { split; cbn; try done.
    - exists []. by split.
    - intros Hne x ->%list_elem_of_singleton ->. by apply Hne, He0.
    - intros [|i] x Hi Hlt; simpl in Hlt; lia. }
  destruct (anneal_loop_inv random_below random_random libm_exp Hexp st
              (Z.to_nat max_iterations) 0 _ Hinv)
    as (p & Hp & (rest & -> & Hlen) & Hpre).
  exists (st :: rest). split; [done|]. split.
  { destruct (anneal_loop_spec random_below random_random libm_exp Hexp st
                (Z.to_nat max_iterations) 0 _ _ Hinv (spec_walk_O _ _ _ _ _ _)
                Hp) as (k & w & Hk & Hw & Htrace & Hend).
    exists k, w. split; [lia|]. by split. }
  split; [by exists rest|]. split; [done|]. split.
  - intros Hmax. destruct rest; [done|].
    rewrite Z2Nat.nonpos in Hlen by done. simpl in Hlen. lia.
  - intros ->. destruct rest as [|x rest]; [done|].
    destruct (Hpre 0%nat goal_state); [done|simpl; lia|done].
Qed.

Lemma solve_simulated_annealing_returns_trace_witness :
  (∀ x, PrimFloat.leb x 0%float = true →
        PrimFloat.is_nan ((λ _, 1%float) x) = false ∧
        PrimFloat.is_infinity ((λ _, 1%float) x) = false) ∧
  valid_state two_move_state ∧
  ∃ p,
    solve_simulated_annealing (λ _ _, 0%nat) (λ _, 0%float) (λ _, 1%float)
      5 1%float 0.995%float two_move_state = Ret (Some p) ∧
    (∃ k w,
       (k ≤ Z.to_nat 5)%nat ∧
       spec_walk (λ _ _, 0%nat) (λ _, 0%float) (λ _, 1%float)
         1%float 0.995%float two_move_state k w ∧
       p = spec_trace w ∧
       (k = Z.to_nat 5 ∨ spec_heuristic (spec_current w) = 0)) ∧
    (∃ rest, p = two_move_state :: rest ∧ (length rest ≤ Z.to_nat 5)%nat) ∧
    nongoal_prefix p ∧
    (5 ≤ 0 → p = [two_move_state]) ∧
    (two_move_state = goal_state → p = [two_move_state]).
Proof.
  assert (∀ x : float, PrimFloat.leb x 0%float = true →
            PrimFloat.is_nan ((λ _, 1%float) x) = false ∧
            PrimFloat.is_infinity ((λ _, 1%float) x) = false) as Hexp
    by (intros x _; split; reflexivity).
  split; [exact Hexp|]. split; [exact two_move_state_valid|].
  exact (solve_simulated_annealing_returns_trace (λ _ _, 0%nat) (λ _, 0%float)
           (λ _, 1%float) two_move_state 5 Hexp two_move_state_valid).
Defined.

(** Two iterations of that run, computed: the blank moves up twice; both
    moves lead to a worse state and are accepted. *)
Example solve_simulated_annealing_run :
  solve_simulated_annealing (λ _ _, 0%nat) (λ _, 0%float) (λ _, 1%float)
    2 1%float 0.995%float two_move_state =
  Ret (Some [two_move_state; [[1; 2; 3]; [0; 5; 6]; [4; 7; 8]];
             [[0; 2; 3]; [1; 5; 6]; [4; 7; 8]]]).
Proof. vm_compute. reflexivity. Qed.

(** Outside the default schedule the acceptance test can raise: at
    [initial_temp = 0] the first move to a state that is not better divides
    by zero. *)
Example solve_simulated_annealing_zero_temperature :
  solve_simulated_annealing (λ _ _, 0%nat) (λ _, 0%float) (λ _, 1%float)
    1 0%float 0.995%float two_move_state = Raise ZeroDivisionError.
Proof. vm_compute. reflexivity. Qed.

(** Whatever the parameters, the failure sentinel is never returned. *)
Lemma anneal_loop_never_none rb rr ex T c iterations :
  ∀ s, anneal_loop rb rr ex T c iterations s ≠ Ret None.
Proof.
  induction iterations as [|k iterations IH]; intros s; [done|].
  cbn [anneal_loop]. destruct (current_energy s =? 0); [done|].
  destruct (anneal_step rb rr ex T c k s); [apply IH|done..].
Qed.

Lemma solve_simulated_annealing_never_none rb rr ex max T c st :
  solve_simulated_annealing rb rr ex max T c st ≠ Ret None.
Proof.
  unfold solve_simulated_annealing.
  destruct (manhattan_distance st); [apply anneal_loop_never_none|done..].
Qed.

(** ** What a returned path is *)



(** ** Further properties of the state model *)

(** X1: every move can be undone: a configuration is among the neighbours
    of each of its neighbours. *)
Theorem get_neighbors_reversible st ns n :
  valid_state st → get_neighbors st = Ret ns → n ∈ ns →
  ∃ ns', get_neighbors n = Ret ns' ∧ st ∈ ns'.
Proof.
  intros Hv Hns Hn. apply (step_sym st n Hv). by exists ns.
Qed.

Lemma get_neighbors_reversible_witness :
  valid_state goal_state ∧
  get_neighbors goal_state =
    Ret [[[1; 2; 3]; [4; 5; 0]; [7; 8; 6]]; one_move_state] ∧
  one_move_state ∈ [[[1; 2; 3]; [4; 5; 0]; [7; 8; 6]]; one_move_state] ∧
  ∃ ns', get_neighbors one_move_state = Ret ns' ∧ goal_state ∈ ns'.
Proof.
  assert (one_move_state ∈ [[[1; 2; 3]; [4; 5; 0]; [7; 8; 6]]; one_move_state])
    as Hin by (apply list_elem_of_further, list_elem_of_here).
  split; [exact goal_state_valid|]. split; [reflexivity|]. split; [exact Hin|].
  exact (get_neighbors_reversible goal_state _ one_move_state
           goal_state_valid eq_refl Hin).
Defined.

Lemma neighbors_of_distinct st p ns :
  neighbors_of st p ns → NoDup ns ∧ st ∉ ns.
Proof.
  intros H. neighbors_of_inv H Ht;
    pose proof (tiles_nonzero_all _ Ht) as Hnz;
    rewrite !Forall_cons in Hnz; destruct_and!;
    rewrite ?NoDup_cons, ?not_elem_of_cons;
    split_and!;
    try apply NoDup_nil_2; try apply not_elem_of_nil;
    intros ?; simplify_eq; discriminate.
Qed.

(** X2: the neighbours of a configuration are pairwise different, and none
    of them is the configuration itself. *)
Theorem get_neighbors_distinct st ns :
  valid_state st → get_neighbors st = Ret ns → NoDup ns ∧ st ∉ ns.
Proof.
  intros (p & ns' & H)%valid_neighbors_of Hns.
  rewrite (neighbors_of_sound _ _ _ H) in Hns. simplify_eq.
  by eapply neighbors_of_distinct.
Qed.

Lemma get_neighbors_distinct_witness :
  valid_state goal_state ∧
  get_neighbors goal_state =
    Ret [[[1; 2; 3]; [4; 5; 0]; [7; 8; 6]]; one_move_state] ∧
  NoDup [[[1; 2; 3]; [4; 5; 0]; [7; 8; 6]]; one_move_state] ∧
  goal_state ∉ [[[1; 2; 3]; [4; 5; 0]; [7; 8; 6]]; one_move_state].
Proof.
  split; [exact goal_state_valid|]. split; [reflexivity|].
  exact (get_neighbors_distinct goal_state _ goal_state_valid eq_refl).
Defined.

(** X3: [get_neighbors] generates the legal moves and nothing else: a grid
    is in the returned list exactly when it is the configuration after one
    blank swap. *)
Theorem get_neighbors_complete st :
  valid_state st →
  ∃ ns, get_neighbors st = Ret ns ∧ ∀ n, n ∈ ns ↔ blank_swap st n.
Proof.
  intros Hv. destruct (valid_get_neighbors _ Hv) as [ns Hns].
  exists ns. split; [done|]. intros n. split.
  - intros Hn. apply step_blank_swap; [done|]. by exists ns.
  - intros (ns' & Hns' & Hn)%blank_swap_step; [|done]. congruence.
Qed.

Lemma get_neighbors_complete_witness :
  valid_state center_state ∧
  ∃ ns, get_neighbors center_state = Ret ns ∧
        ∀ n, n ∈ ns ↔ blank_swap center_state n.
Proof.
  split; [exact center_state_valid|].
  exact (get_neighbors_complete center_state center_state_valid).
Defined.

(** X4: on a 3x3 grid [get_blank_position] returns [None] exactly when no
    cell holds 0, and then [get_neighbors] raises [TypeError] when it
    unpacks the position. *)
Theorem get_neighbors_without_blank st :
  shape_3x3 st →
  (get_blank_position st = Ret None ↔ 0 ∉ concat st) ∧
  (0 ∉ concat st → get_neighbors st = Raise TypeError).
Proof.
  intros (a & b & c & d & e & f & g & h & i & ->)%shape_3x3_inv.
  unfold get_neighbors. rewrite get_blank_position_grid. cbn [concat app].
  rewrite !not_elem_of_cons.
  destruct (Z.eqb_spec a 0), (Z.eqb_spec b 0), (Z.eqb_spec c 0),
    (Z.eqb_spec d 0), (Z.eqb_spec e 0), (Z.eqb_spec f 0), (Z.eqb_spec g 0),
    (Z.eqb_spec h 0), (Z.eqb_spec i 0);
    (split; [split|]); try done; intros; destruct_and?; try congruence;
    split_and?; try congruence; apply not_elem_of_nil.
Qed.

Lemma get_neighbors_without_blank_witness :
  shape_3x3 [[1; 2; 3]; [4; 5; 6]; [7; 8; 9]] ∧
  (get_blank_position [[1; 2; 3]; [4; 5; 6]; [7; 8; 9]] = Ret None ↔
   0 ∉ concat [[1; 2; 3]; [4; 5; 6]; [7; 8; 9]]) ∧
  (0 ∉ concat [[1; 2; 3]; [4; 5; 6]; [7; 8; 9]] →
   get_neighbors [[1; 2; 3]; [4; 5; 6]; [7; 8; 9]] = Raise TypeError).
Proof.
  assert (shape_3x3 [[1; 2; 3]; [4; 5; 6]; [7; 8; 9]]) as Hs
    by (split; [done|by repeat constructor]).
  split; [exact Hs|].
  exact (get_neighbors_without_blank _ Hs).
Defined.

(** Moving a numbered tile to an orthogonally adjacent cell changes its
    contribution to the heuristic by exactly one. *)
Lemma cell_distance_move i j i' j' x :
  1 ≤ x ≤ 8 → Z.abs (i - i') + Z.abs (j - j') = 1 →
  cell_distance i' j' x = cell_distance i j x + 1 ∨
  cell_distance i' j' x = cell_distance i j x - 1.
Proof.
  intros Hx Hadj. unfold cell_distance.
  destruct (Z.eqb_spec x 0) as [?|_]; [lia|].
  generalize ((x - 1) `div` 3) ((x - 1) `mod` 3). lia.
Qed.

Lemma neighbors_of_manhattan_move st p ns n :
  neighbors_of st p ns → n ∈ ns →
  ∃ d d', manhattan_distance st = Ret d ∧ manhattan_distance n = Ret d' ∧
          (d' = d + 1 ∨ d' = d - 1).
Proof.
  intros H Hn.
  neighbors_of_inv H Ht; apply tiles_Forall in Ht;
    rewrite !Forall_cons in Ht; destruct_and!;
    decompose_list_elem_of; simplify_eq; rewrite !manhattan_distance_grid;
    do 2 eexists; (split; [reflexivity|]); (split; [reflexivity|]);
    rewrite !cell_distance_blank;
    match goal with
    | |- context [cell_distance ?i ?j ?x] =>
        match goal with
        | |- context [cell_distance ?i' ?j' x] =>
            assert (Z.abs (i - i') + Z.abs (j - j') = 1) as Hadj
              by reflexivity;
            assert (1 ≤ x ≤ 8) as Hx by (split; assumption);
            pose proof (cell_distance_move i j i' j' x Hx Hadj)
        end
    end; lia.
Qed.

(** X5: a move changes the Manhattan-distance heuristic by exactly one, up
    or down. *)
Theorem manhattan_distance_move st ns n :
  valid_state st → get_neighbors st = Ret ns → n ∈ ns →
  ∃ d d', manhattan_distance st = Ret d ∧ manhattan_distance n = Ret d' ∧
          (d' = d + 1 ∨ d' = d - 1).
Proof.
  intros (p & ns' & H)%valid_neighbors_of Hns Hn.
  rewrite (neighbors_of_sound _ _ _ H) in Hns. simplify_eq.
  by eapply neighbors_of_manhattan_move.
Qed.

Lemma manhattan_distance_move_witness :
  valid_state goal_state ∧
  get_neighbors goal_state =
    Ret [[[1; 2; 3]; [4; 5; 0]; [7; 8; 6]]; one_move_state] ∧
  one_move_state ∈ [[[1; 2; 3]; [4; 5; 0]; [7; 8; 6]]; one_move_state] ∧
  ∃ d d', manhattan_distance goal_state = Ret d ∧
          manhattan_distance one_move_state = Ret d' ∧
          (d' = d + 1 ∨ d' = d - 1).
Proof.
  assert (one_move_state ∈ [[[1; 2; 3]; [4; 5; 0]; [7; 8; 6]]; one_move_state])
    as Hin by (apply list_elem_of_further, list_elem_of_here).
  split; [exact goal_state_valid|]. split; [reflexivity|]. split; [exact Hin|].
  exact (manhattan_distance_move goal_state _ one_move_state
           goal_state_valid eq_refl Hin).
Defined.

Lemma step_manhattan st st' :
  valid_state st → step st st' →
  ∃ d d', manhattan_distance st = Ret d ∧ manhattan_distance st' = Ret d' ∧
          (d' = d + 1 ∨ d' = d - 1).
Proof.
  intros (p & ns' & H)%valid_neighbors_of (ns & Hns & Hn).
  rewrite (neighbors_of_sound _ _ _ H) in Hns. simplify_eq.
  by eapply neighbors_of_manhattan_move.
Qed.

Lemma reach_manhattan n st :
  valid_state st → reach n st goal_state →
  ∃ d, manhattan_distance st = Ret d ∧ d ≤ Z.of_nat n.
Proof.
  intros Hv Hr. remember goal_state as g eqn:Hg.
  induction Hr as [|n st st' st'' Hs Hr IH]; subst.
  - exists 0. split; [reflexivity|lia].
  - destruct IH as (d' & Hd' & Hle); [by eapply step_valid|done|].
    destruct (step_manhattan _ _ Hv Hs) as (d & d2 & Hd & Hd2 & Hdd).
    exists d. split; [done|].
    assert (d2 = d') by congruence. lia.
Qed.

(** X6: the heuristic is admissible: it never exceeds the number of moves of
    any sequence of legal moves that leads to the goal. *)
Theorem manhattan_distance_admissible n st :
  valid_state st → swap_reach n st goal_state →
  ∃ d, manhattan_distance st = Ret d ∧ d ≤ Z.of_nat n.
Proof.
  intros Hv Hr. apply reach_manhattan; [done|].
  by apply reach_iff_swap_reach.
Qed.

Lemma manhattan_distance_admissible_witness :
  valid_state one_move_state ∧ swap_reach 1 one_move_state goal_state ∧
  ∃ d, manhattan_distance one_move_state = Ret d ∧ d ≤ Z.of_nat 1.
Proof.
  assert (swap_reach 1 one_move_state goal_state) as Hr.
  { apply reach_iff_swap_reach; [exact one_move_state_valid|].
    eapply reach_S; [|apply reach_O].
    eexists. split; [reflexivity|].
    apply list_elem_of_further, list_elem_of_further, list_elem_of_here. }
  split; [exact one_move_state_valid|]. split; [exact Hr|].
  exact (manhattan_distance_admissible 1 one_move_state
           one_move_state_valid Hr).
Defined.

(** ** Bidirectional search on a solvable configuration *)

Lemma meet_inv_init seed cur :
  valid_state seed →
  meet_inv seed [] [(seed, [])] {[state_to_string seed := []]} cur [].
Proof.
  intros Hv. split.
  - by apply side_inv_init.
  - apply list_elem_of_here.
  - simpl. intros st p Heq%list_elem_of_singleton. simplify_eq.
    split; [apply path_to_nil|]. apply lookup_singleton_eq.
  - by intros st p ?%elem_of_nil.
  - by intros n ?%elem_of_nil.
Qed.

Lemma meet_inv_visit seed done queue visited st p n todo q' v' :
  meet_inv seed done queue visited (st, p) (n :: todo) →
  bidir_visit p (queue, visited) n = (q', v') →
  meet_inv seed done q' v' (st, p) todo.
Proof.
  intros [Hside Hseed Hpaths Hclosed Htodo] Hvisit.
  destruct (Htodo n) as [Hcur Hstep]; [apply list_elem_of_here|].
  simpl in Hstep.
  destruct (Hpaths st p) as [Hp _]; [apply elem_of_app; by left|].
  destruct (side_reach _ _ _ _ Hside st p) as [Hv Hr];
    [apply elem_of_app; by left|].
  assert (valid_state n) as Hn by (by eapply step_valid).
  assert (side_inv seed done q' v') as Hside'.
  { eapply side_inv_visit; [done|done| |done]. by eapply reachable_step. }
  unfold bidir_visit in Hvisit.
  destruct (visited !! state_to_string n) as [x|] eqn:Hlook; simplify_eq.
  - split; [done|done|done| |].
    + intros st' p' Hin n' Hs.
      destruct (Hclosed st' p' Hin n' Hs) as [?|[? [->|?]%elem_of_cons]];
        [by left| |by right].
      left. apply (side_visited _ _ _ _ Hside); [done|by eauto].
    + intros n' Hn'. apply Htodo. by apply list_elem_of_further.
  - split; [done| | | |].
    + rewrite app_assoc. apply elem_of_app. by left.
    + intros st' p'. rewrite app_assoc, elem_of_app, list_elem_of_singleton.
      intros [Hin|?].
      * destruct (Hpaths st' p' Hin) as [? Hl]. split; [done|].
        rewrite lookup_insert_ne; [done|]. intros Heq.
        rewrite <- Heq in Hl. congruence.
      * simplify_eq. split; [by eapply path_to_snoc|].
        apply lookup_insert_eq.
    + intros st' p' Hin n' Hs.
      destruct (Hclosed st' p' Hin n' Hs) as [[p'' ?]|[? [->|?]%elem_of_cons]];
        [| |by right].
      * left. exists p''. rewrite app_assoc. apply elem_of_app. by left.
      * left. exists (p ++ [n]). rewrite app_assoc. apply elem_of_app.
        right. apply list_elem_of_here.
    + intros n' Hn'. apply Htodo. by apply list_elem_of_further.
Qed.

Lemma meet_inv_fold seed done st p ns :
  ∀ queue visited q' v',
    meet_inv seed done queue visited (st, p) ns →
    foldl (bidir_visit p) (queue, visited) ns = (q', v') →
    meet_inv seed done q' v' (st, p) [].
Proof.
  induction ns as [|n ns IH]; intros queue visited q' v' Hinv Hf.
  - simpl in Hf. by simplify_eq.
  - cbn [foldl] in Hf.
    destruct (bidir_visit p (queue, visited) n) as [q1 v1] eqn:Hv.
    eapply IH; [|exact Hf]. by eapply meet_inv_visit.
Qed.

Lemma meet_inv_pop seed done st p queue visited cur ns :
  meet_inv seed done ((st, p) :: queue) visited cur [] →
  get_neighbors st = Ret ns →
  meet_inv seed (done ++ [(st, p)]) queue visited (st, p) ns.
Proof.
  intros [Hside Hseed Hpaths Hclosed Htodo] Hns. split.
  - by apply side_inv_pop.
  - by rewrite snoc_app.
  - intros st' p'. rewrite snoc_app. apply Hpaths.
  - intros st' p' [Hin|Hin%list_elem_of_singleton]%elem_of_app n Hs.
    + destruct (Hclosed st' p' Hin n Hs) as [?|[_ []%elem_of_nil]].
      left. by rewrite snoc_app.
    + simplify_eq. right. split; [done|].
      destruct Hs as (ns' & Hns' & Hn). congruence.
  - intros n Hn. split; [apply elem_of_app; right; apply list_elem_of_here|].
    by exists ns.
Qed.

(** Expanding the front entry of a queue. *)
Lemma meet_inv_expand seed done st p queue visited cur :
  meet_inv seed done ((st, p) :: queue) visited cur [] →
  ∃ ns, get_neighbors st = Ret ns ∧
    ∀ q' v', foldl (bidir_visit p) (queue, visited) ns = (q', v') →
             meet_inv seed (done ++ [(st, p)]) q' v' (st, p) [].
Proof.
  intros Hinv.
  destruct (side_reach _ _ _ _ (meet_side _ _ _ _ _ _ Hinv) st p) as [Hv Hr];
    [apply elem_of_app; right; apply list_elem_of_here|].
  destruct (valid_get_neighbors _ Hv) as [ns Hns]. exists ns.
  split; [done|]. intros q' v'.
  apply meet_inv_fold. by eapply meet_inv_pop.
Qed.

(** A side whose queue is empty has taken every configuration reachable
    from its seed from the queue. *)
Lemma meet_inv_exhausted seed done visited cur n st :
  meet_inv seed done [] visited cur [] →
  reach n seed st → ∃ p, (st, p) ∈ done.
Proof.
  intros Hinv.
  assert (∃ p, (seed, p) ∈ done) as Hseed.
  { exists []. pose proof (meet_seed _ _ _ _ _ _ Hinv) as H.
    by rewrite app_nil_r in H. }
  revert Hseed. generalize seed as a. intros a Hseed Hr. revert Hseed.
  induction Hr as [|n a st' st'' Hs Hr IH]; [done|].
  intros [p Hp]. apply IH.
  destruct (meet_closed _ _ _ _ _ _ Hinv a p Hp st' Hs)
    as [[p' Hp']|[_ []%elem_of_nil]].
  exists p'. by rewrite app_nil_r in Hp'.
Qed.

Section bidir_solvable.
Variable start : state.
Hypothesis start_valid : valid_state start.
Hypothesis start_solvable : reachable start goal_state.

(** The loop ends by a meeting: it returns the path recorded on the forward
    side for a configuration [m], followed by the reversed path recorded for
    [m] on the backward side. *)
Lemma bidir_loop_meets fuel :
  ∀ fdone fq fv fcur bdone bq bv bcur,
    meet_inv start fdone fq fv fcur [] →
    meet_inv goal_state bdone bq bv bcur [] →
    (∀ st p, (st, p) ∈ fdone → st ≠ goal_state) →
    (∀ st p, (st, p) ∈ bdone → st ≠ start) →
    (state_space < fuel + length fdone)%nat →
    ∃ pf pb m,
      bidir_loop fuel fq fv bq bv = Ret (Some (pf ++ reverse pb)) ∧
      path_to start pf m ∧ path_to goal_state pb m.
Proof.
  assert (∀ fdone fv fcur,
            meet_inv start fdone [] fv fcur [] →
            (∀ st p, (st, p) ∈ fdone → st ≠ goal_state) → False) as Hfwd.
  { intros fdone fv fcur Hf Hng. destruct start_solvable as [n Hn].
    destruct (meet_inv_exhausted _ _ _ _ _ _ Hf Hn) as [p Hp].
    by apply (Hng _ _ Hp). }
  assert (∀ bdone bv bcur,
            meet_inv goal_state bdone [] bv bcur [] →
            (∀ st p, (st, p) ∈ bdone → st ≠ start) → False) as Hbwd.
  { intros bdone bv bcur Hb Hns.
    destruct (reachable_sym _ _ start_valid start_solvable) as [n Hn].
    destruct (meet_inv_exhausted _ _ _ _ _ _ Hb Hn) as [p Hp].
    by apply (Hns _ _ Hp). }
  induction fuel as [|fuel IH];
    intros fdone fq fv fcur bdone bq bv bcur Hf Hb Hng Hns Hfuel;
    (destruct fq as [|[st p] fq]; [by destruct (Hfwd _ _ _ Hf Hng)|]);
    (destruct bq as [|[bst bp] bq]; [by destruct (Hbwd _ _ _ Hb Hns)|]).
  - apply meet_side, side_inv_size in Hf. simpl in *. lia.
  - cbn [bidir_loop].
    assert ((st, p) ∈ fdone ++ (st, p) :: fq) as Hst
      by (apply elem_of_app; right; apply list_elem_of_here).
    assert ((bst, bp) ∈ bdone ++ (bst, bp) :: bq) as Hbst
      by (apply elem_of_app; right; apply list_elem_of_here).
    destruct (side_reach _ _ _ _ (meet_side _ _ _ _ _ _ Hf) st p Hst)
      as [Hv _].
    destruct (side_reach _ _ _ _ (meet_side _ _ _ _ _ _ Hb) bst bp Hbst)
      as [Hbv _].
    destruct (bv !! state_to_string st) as [x|] eqn:Hlook.
    { exists p, x, st. split; [done|].
      split; [by apply (meet_paths _ _ _ _ _ _ Hf)|].
      destruct (side_visited _ _ _ _ (meet_side _ _ _ _ _ _ Hb) st Hv)
        as [[p' Hp'] _]; [by eauto|].
      destruct (meet_paths _ _ _ _ _ _ Hb st p' Hp') as [Hpath Hl].
      congruence. }
    assert (st ≠ goal_state) as Hne.
    { intros ->.
      destruct (meet_paths _ _ _ _ _ _ Hb goal_state []
                  (meet_seed _ _ _ _ _ _ Hb)) as [_ Hl]. congruence. }
    destruct (meet_inv_expand _ _ _ _ _ _ _ Hf) as (ns & -> & Hf').
    cbn [mbind result_bind].
    destruct (foldl (bidir_visit p) (fq, fv) ns) as [fq' fv'] eqn:Hfold.
    specialize (Hf' _ _ eq_refl).
    destruct (fv' !! state_to_string bst) as [x|] eqn:Hlook'.
    { exists x, bp, bst. split; [done|].
      split; [|by apply (meet_paths _ _ _ _ _ _ Hb)].
      destruct (side_visited _ _ _ _ (meet_side _ _ _ _ _ _ Hf') bst Hbv)
        as [[p' Hp'] _]; [by eauto|].
      destruct (meet_paths _ _ _ _ _ _ Hf' bst p' Hp') as [Hpath Hl].
      congruence. }
    assert (bst ≠ start) as Hbne.
    { intros ->.
      destruct (meet_paths _ _ _ _ _ _ Hf' start []
                  (meet_seed _ _ _ _ _ _ Hf')) as [_ Hl]. congruence. }
    destruct (meet_inv_expand _ _ _ _ _ _ _ Hb) as (bns & -> & Hb').
    cbn [mbind result_bind].
    destruct (foldl (bidir_visit bp) (bq, bv) bns) as [bq' bv'] eqn:Hbfold.
    specialize (Hb' _ _ eq_refl).
    eapply IH; [exact Hf'|exact Hb'| | |].
    + intros st' p' [?|Heq%list_elem_of_singleton]%elem_of_app;
        [by eapply Hng|by simplify_eq].
    + intros st' p' [?|Heq%list_elem_of_singleton]%elem_of_app;
        [by eapply Hns|by simplify_eq].
    + rewrite length_app. simpl. lia.
Qed.

Lemma solve_bidirectional_meets fuel :
  (state_space < fuel)%nat →
  ∃ pf pb m,
    solve_bidirectional fuel start = Ret (Some (pf ++ reverse pb)) ∧
    path_to start pf m ∧ path_to goal_state pb m.
Proof.
  intros Hfuel.
  eapply (bidir_loop_meets _ [] _ _ (start, []) [] _ _ (goal_state, []));
    [by apply meet_inv_init|apply meet_inv_init, goal_state_valid| | |].
  - by intros st p ?%elem_of_nil.
  - by intros st p ?%elem_of_nil.
  - simpl. lia.
Qed.
End bidir_solvable.

(** [solve_bidirectional] returns within [state_space] iterations: nothing
    when the goal cannot be reached, and otherwise the two recorded paths of
    a meeting configuration. *)
Lemma solve_bidirectional_correct st :
  valid_state st →
  ∃ r,
    (∀ fuel, (state_space < fuel)%nat → solve_bidirectional fuel st = Ret r) ∧
    match r with
    | Some q =>
        ∃ pf pb m, q = pf ++ reverse pb ∧
                   path_to st pf m ∧ path_to goal_state pb m
    | None => ¬ reachable st goal_state
    end.
Proof.
  intros Hv.
  destruct (solve_bfs_correct st Hv (S state_space)) as ([p|] & _ & Hpost);
    [lia| |].
  - assert (reachable st goal_state) as Hr.
    { exists (length p). apply path_to_reach, Hpost. }
    destruct (solve_bidirectional_meets st Hv Hr (S state_space))
      as (pf & pb & m & Hres & Hf & Hb); [lia|].
    exists (Some (pf ++ reverse pb)). split; [|by exists pf, pb, m].
    intros fuel Hfuel. eapply bidir_loop_mono; [exact Hres|lia].
  - exists None. split; [|done]. intros fuel Hfuel.
    by apply solve_bidirectional_unsolvable.
Qed.

(** The list a meeting returns has the length of a sequence of moves from
    the start to the goal. *)
Lemma meeting_reach st pf pb m :
  valid_state st → path_to st pf m → path_to goal_state pb m →
  reach (length (pf ++ reverse pb)) st goal_state.
Proof.
  intros Hv Hf%path_to_reach Hb%path_to_reach.
  rewrite length_app, length_reverse. eapply reach_app; [exact Hf|].
  apply reach_sym; [apply goal_state_valid|done].
Qed.

(** X7: a sequence of legal moves keeps the parity of the number of
    inversions of the tile sequence. *)
Theorem moves_preserve_parity n st st' :
  valid_state st → swap_reach n st st' → even_parity st' = even_parity st.
Proof.
  intros Hv Hr. apply (reach_parity n); [done|].
  by apply reach_iff_swap_reach.
Qed.

Lemma moves_preserve_parity_witness :
  valid_state two_move_state ∧ swap_reach 2 two_move_state goal_state ∧
  even_parity goal_state = even_parity two_move_state.
Proof.
  assert (swap_reach 2 two_move_state goal_state) as Hr.
  { apply reach_iff_swap_reach; [exact two_move_state_valid|].
    apply (reach_S _ _ one_move_state).
    { eexists. split; [reflexivity|].
      apply list_elem_of_further, list_elem_of_here. }
    apply (reach_S _ _ goal_state); [|apply reach_O].
    eexists. split; [reflexivity|].
    apply list_elem_of_further, list_elem_of_further, list_elem_of_here. }
  split; [exact two_move_state_valid|]. split; [exact Hr|].
  exact (moves_preserve_parity 2 two_move_state goal_state
           two_move_state_valid Hr).
Defined.

(** X8: a configuration whose tile sequence has an odd number of inversions
    cannot be solved, and both searches return the no-solution sentinel on
    it. *)
Theorem odd_parity_no_solution st :
  valid_state st → even_parity st = false →
  ¬ solvable st ∧
  ∀ fuel, (state_space < fuel)%nat →
    solve_bfs fuel st = Ret None ∧ solve_bidirectional fuel st = Ret None.
Proof.
  intros Hv Hodd.
  assert (¬ reachable st goal_state) as Hun.
  { intros [n Hn]. apply reach_parity in Hn; [|done].
    rewrite Hodd in Hn. discriminate Hn. }
  split; [by rewrite <- reachable_iff_solvable|].
  intros fuel Hfuel. split; [|by apply solve_bidirectional_unsolvable].
  destruct (solve_bfs_correct st Hv fuel Hfuel) as ([p|] & Hr & Hpost);
    [|done].
  destruct Hun. exists (length p). apply path_to_reach, Hpost.
Qed.

Lemma odd_parity_no_solution_witness :
  valid_state unsolvable_state ∧ even_parity unsolvable_state = false ∧
  ¬ solvable unsolvable_state ∧
  ∀ fuel, (state_space < fuel)%nat →
    solve_bfs fuel unsolvable_state = Ret None ∧
    solve_bidirectional fuel unsolvable_state = Ret None.
Proof.
  split; [exact unsolvable_state_valid|]. split; [reflexivity|].
  exact (odd_parity_no_solution unsolvable_state unsolvable_state_valid
           eq_refl).
Defined.

(** An exception does not depend on the fuel either. *)
Lemma bfs_loop_mono_raise fuel :
  ∀ queue visited e fuel',
    bfs_loop fuel queue visited = Raise e → (fuel ≤ fuel')%nat →
    bfs_loop fuel' queue visited = Raise e.
Proof.
  induction fuel as [|fuel IH]; intros [|[st p] queue] visited r fuel' Hr Hle;
    try done; try (by destruct fuel').
  destruct fuel' as [|fuel']; [lia|]. simpl in *.
  destruct (is_goal st); [done|].
  destruct (get_neighbors st) as [ns| |]; try done. simpl in *.
  destruct (foldl (bfs_visit p) (queue, visited) ns) as [q' v'].
  apply IH; [done|lia].
Qed.

Lemma bidir_loop_mono_raise fuel :
  ∀ fq fv bq bv e fuel',
    bidir_loop fuel fq fv bq bv = Raise e → (fuel ≤ fuel')%nat →
    bidir_loop fuel' fq fv bq bv = Raise e.
Proof.
  induction fuel as [|fuel IH];
    intros [|[st p] fq] fv [|[bst bp] bq] bv r fuel' Hr Hle;
    try done; try (by destruct fuel').
  destruct fuel' as [|fuel']; [lia|]. simpl in *.
  destruct (bv !! state_to_string st); [done|].
  destruct (get_neighbors st) as [ns| |]; try done. simpl in *.
  destruct (foldl (bidir_visit p) (fq, fv) ns) as [fq' fv'].
  destruct (fv' !! state_to_string bst); [done|].
  destruct (get_neighbors bst) as [bns| |]; try done. simpl in *.
  destruct (foldl (bidir_visit bp) (bq, bv) bns) as [bq' bv'].
  apply IH; [done|lia].
Qed.

(** X9: on a configuration neither search raises an exception, however
    many iterations it is allowed. *)
Theorem searches_never_raise st fuel e :
  valid_state st →
  solve_bfs fuel st ≠ Raise e ∧ solve_bidirectional fuel st ≠ Raise e.
Proof.
  intros Hv. split; intros Hr.
  - apply (bfs_loop_mono_raise _ _ _ _ (S (fuel `max` state_space))) in Hr;
      [|lia].
    destruct (solve_bfs_correct st Hv (S (fuel `max` state_space)))
      as (r & Hr' & _); [lia|].
    unfold solve_bfs in Hr'. congruence.
  - apply (bidir_loop_mono_raise _ _ _ _ _ _ (S (fuel `max` state_space)))
      in Hr; [|lia].
    destruct (solve_bidirectional_correct st Hv) as (r & Hr' & _).
    specialize (Hr' (S (fuel `max` state_space))).
    unfold solve_bidirectional in Hr'. rewrite Hr' in Hr; [done|lia].
Qed.

Lemma searches_never_raise_witness :
  valid_state center_state ∧
  solve_bfs 1 center_state ≠ Raise TypeError ∧
  solve_bidirectional 1 center_state ≠ Raise TypeError.
Proof.
  split; [exact center_state_valid|].
  exact (searches_never_raise center_state 1 TypeError center_state_valid).
Defined.

(** X10: on a solvable configuration [solve_bidirectional] returns a list
    within [state_space] iterations: the path recorded by the forward side
    for the configuration [m] where the two sides met, followed by the
    reversed path recorded for [m] by the backward side.  Both are chains of
    legal moves ending in [m], from the start and from the goal, so that the
    length of the list is the number of moves of a solution through [m]. *)
Theorem solve_bidirectional_solvable st :
  valid_state st → solvable st →
  ∃ pf pb m,
    (∀ fuel, (state_space < fuel)%nat →
       solve_bidirectional fuel st = Ret (Some (pf ++ reverse pb))) ∧
    swaps_from st pf ∧ last (st :: pf) = Some m ∧
    swaps_from goal_state pb ∧ last (goal_state :: pb) = Some m ∧
    swap_reach (length (pf ++ reverse pb)) st goal_state.
Proof.
  intros Hv Hs%reachable_iff_solvable; [|done].
  destruct (solve_bidirectional_correct st Hv) as ([q|] & Hr & Hpost);
    [|done].
  destruct Hpost as (pf & pb & m & -> & Hf & Hb).
  exists pf, pb, m. split; [done|].
  split; [apply moves_from_swaps; [done|apply Hf]|]. split; [apply Hf|].
  split; [apply moves_from_swaps; [apply goal_state_valid|apply Hb]|].
  split; [apply Hb|].
  apply reach_iff_swap_reach; [done|]. by eapply meeting_reach.
Qed.

Lemma one_move_state_solvable : solvable one_move_state.
Proof.
  exists 1%nat. apply reach_iff_swap_reach; [exact one_move_state_valid|].
  eapply reach_S; [|apply reach_O].
  eexists. split; [reflexivity|].
  apply list_elem_of_further, list_elem_of_further, list_elem_of_here.
Qed.

Lemma solve_bidirectional_solvable_witness :
  valid_state one_move_state ∧ solvable one_move_state ∧
  ∃ pf pb m,
    (∀ fuel, (state_space < fuel)%nat →
       solve_bidirectional fuel one_move_state =
       Ret (Some (pf ++ reverse pb))) ∧
    swaps_from one_move_state pf ∧ last (one_move_state :: pf) = Some m ∧
    swaps_from goal_state pb ∧ last (goal_state :: pb) = Some m ∧
    swap_reach (length (pf ++ reverse pb)) one_move_state goal_state.
Proof.
  split; [exact one_move_state_valid|].
  split; [exact one_move_state_solvable|].
  exact (solve_bidirectional_solvable one_move_state one_move_state_valid
           one_move_state_solvable).
Defined.

(** X11: the two searches agree on whether there is a solution, and the
    list of [solve_bidirectional] is never shorter than the path of
    [solve_bfs]. *)
Theorem searches_agree st fuel :
  valid_state st → (state_space < fuel)%nat →
  (¬ solvable st ∧
   solve_bfs fuel st = Ret None ∧ solve_bidirectional fuel st = Ret None) ∨
  (solvable st ∧
   ∃ p q, solve_bfs fuel st = Ret (Some p) ∧
          solve_bidirectional fuel st = Ret (Some q) ∧
          (length p ≤ length q)%nat).
Proof.
  intros Hv Hfuel.
  destruct (solve_bfs_correct st Hv fuel Hfuel) as ([p|] & Hbfs & Hpost);
    destruct (solve_bidirectional_correct st Hv) as ([q|] & Hbi & Hpost');
    specialize (Hbi fuel Hfuel).
  - right. destruct Hpost as [Hp Hmin].
    split; [apply reachable_iff_solvable; [done|]; exists (length p);
            by apply path_to_reach|].
    exists p, q. split; [done|]. split; [done|].
    destruct Hpost' as (pf & pb & m & -> & Hf & Hb).
    apply Hmin. by eapply meeting_reach.
  - destruct Hpost'. exists (length p). apply path_to_reach, Hpost.
  - destruct Hpost as []. destruct Hpost' as (pf & pb & m & -> & Hf & Hb).
    eexists. by eapply meeting_reach.
  - left. split; [by rewrite <- reachable_iff_solvable|done].
Qed.

Lemma searches_agree_witness :
  valid_state goal_state ∧ (state_space < S state_space)%nat ∧
  ((¬ solvable goal_state ∧
    solve_bfs (S state_space) goal_state = Ret None ∧
    solve_bidirectional (S state_space) goal_state = Ret None) ∨
   (solvable goal_state ∧
    ∃ p q, solve_bfs (S state_space) goal_state = Ret (Some p) ∧
           solve_bidirectional (S state_space) goal_state = Ret (Some q) ∧
           (length p ≤ length q)%nat)).
Proof.
  split; [exact goal_state_valid|]. split; [apply Nat.lt_succ_diag_r|].
  exact (searches_agree goal_state (S state_space) goal_state_valid
           (Nat.lt_succ_diag_r state_space)).
Defined.

(** ** The path of the breadth-first search visits no configuration twice *)

Lemma not_NoDup_split (l : list state) :
  ¬ NoDup l → ∃ x l1 l2 l3, l = l1 ++ x :: l2 ++ x :: l3.
Proof.
  induction l as [|a l IH]; intros Hnd.
  - destruct Hnd. constructor.
  - destruct (decide (a ∈ l)) as [Hin|Hin].
    + apply list_elem_of_split in Hin as (l2 & l3 & ->).
      by exists a, [], l2, l3.
    + destruct (decide (NoDup l)) as [Hl|Hl].
      * destruct Hnd. by constructor.
      * destruct (IH Hl) as (x & l1 & l2 & l3 & ->).
        by exists x, (a :: l1), l2, l3.
Qed.

Lemma moves_from_app_inv a p1 x p2 :
  moves_from a (p1 ++ x :: p2) →
  path_to a (p1 ++ [x]) x ∧ moves_from x p2.
Proof.
  revert a. induction p1 as [|y p1 IH]; intros a.
  - simpl. intros [Hs Hm]. split; [|done]. by split.
  - simpl. intros [Hs Hm]. destruct (IH y Hm) as [[Hm' Hl] Hm2].
    split; [|done]. split; [by split|].
    rewrite (last_cons_cons a y). exact Hl.
Qed.

Lemma last_app_cons_cons (a : state) p1 x p2 :
  last (a :: p1 ++ x :: p2) = last (x :: p2).
Proof.
  change (a :: p1 ++ x :: p2) with ((a :: p1) ++ x :: p2).
  by rewrite last_app_cons.
Qed.

(** A walk that meets a configuration twice can be shortened. *)
Lemma walk_shortcut a p b :
  path_to a p b → ¬ NoDup (a :: p) → ∃ m, (m < length p)%nat ∧ reach m a b.
Proof.
  intros [Hm Hl] (x & l1 & l2 & l3 & Heq)%not_NoDup_split.
  destruct l1 as [|a' l1]; simplify_eq/=.
  - apply moves_from_app_inv in Hm as [_ Hm].
    exists (length l3). split; [rewrite length_app; simpl; lia|].
    apply path_to_reach. split; [done|].
    by rewrite last_app_cons_cons in Hl.
  - apply moves_from_app_inv in Hm as [Hx Hm].
    apply moves_from_app_inv in Hm as [_ Hm].
    rewrite last_app_cons_cons, last_app_cons_cons in Hl.
    exists (length (l1 ++ [x]) + length l3)%nat. split.
    + rewrite !length_app. simpl. rewrite length_app. simpl. lia.
    + eapply reach_app; [by apply path_to_reach|].
      apply path_to_reach. by split.
Qed.

Lemma moves_from_valid a p :
  valid_state a → moves_from a p → Forall valid_state p.
Proof.
  revert a. induction p as [|x p IH]; intros a Hv; [constructor|].
  intros [Hs Hm]. assert (valid_state x) by (by eapply step_valid).
  constructor; [done|by eapply IH].
Qed.

(** X12: the path returned by [solve_bfs] never comes back to the start and
    visits no configuration twice; with the start it has at most
    [state_space] configurations. *)
Theorem solve_bfs_path_simple fuel st p :
  valid_state st → solve_bfs fuel st = Ret (Some p) →
  NoDup (st :: p) ∧ (length p < state_space)%nat.
Proof.
  intros Hv Hr. apply solve_bfs_sound in Hr as [Hp Hmin]; [|done].
  assert (NoDup (st :: p)) as Hnd.
  { destruct (decide (NoDup (st :: p))) as [?|Hnd]; [done|].
    destruct (walk_shortcut _ _ _ Hp Hnd) as (m & Hlt & Hm).
    apply Hmin in Hm. lia. }
  split; [done|].
  assert (length (st :: p) ≤ state_space)%nat as Hle; [|simpl in Hle; lia].
  apply distinct_states_bound; [done|].
  constructor; [done|]. eapply moves_from_valid; [done|apply Hp].
Qed.

Lemma solve_bfs_path_simple_witness :
  valid_state two_move_state ∧
  solve_bfs 9 two_move_state = Ret (Some [one_move_state; goal_state]) ∧
  NoDup [two_move_state; one_move_state; goal_state] ∧
  (length [one_move_state; goal_state] < state_space)%nat.
Proof.
  split; [exact two_move_state_valid|].
  split; [exact (solve_bfs_two_moves 0)|].
  exact (solve_bfs_path_simple 9 two_move_state [one_move_state; goal_state]
           two_move_state_valid (solve_bfs_two_moves 0)).
Defined.

(** ** The trace of the annealing, whatever its parameters *)

Lemma getitem_elem_of {A} (l : list A) i x : getitem l i = Ret x → x ∈ l.
Proof.
  unfold getitem. destruct (_ && _); [|done].
  destruct (l !! _) as [y|] eqn:Hy; [|done].
  intros ?; simplify_eq. by eapply list_elem_of_lookup_2.
Qed.

Lemma random_choice_elem_of {A} rb k (l : list A) x :
  random_choice rb k l = Ret x → x ∈ l.
Proof.
  unfold random_choice. destruct l; [done|]. apply getitem_elem_of.
Qed.

Lemma anneal_accept_cases rr ex k s next e s' :
  anneal_accept rr ex k s next e = Ret s' →
  s' = s ∨
  (current_state s' = next ∧ path s' = path s ++ [next] ∧
   (best_state s' = best_state s ∨ best_state s' = next)).
Proof.
  unfold anneal_accept. destruct (e <? current_energy s).
  - cbn. destruct (e <? best_energy s); intros ?; simplify_eq; cbn; eauto.
  - destruct (int_div_float _ _) as [x| |]; try done.
    cbn [mbind result_bind].
    destruct (math_exp ex x) as [a| |]; try done. cbn [mbind result_bind].
    destruct (PrimFloat.ltb _ _); intros ?; simplify_eq; cbn; eauto.
Qed.

Lemma anneal_cool_cases T c s :
  path (anneal_cool T c s) = path s ∧
  best_state (anneal_cool T c s) = best_state s ∧
  (current_state (anneal_cool T c s) = current_state s ∨
   current_state (anneal_cool T c s) = best_state s).
Proof. unfold anneal_cool. destruct (PrimFloat.ltb _ _); cbn; eauto. Qed.

Lemma trace_grown_snoc p y x :
  trace_grown p → y ∈ p → blank_swap y x → trace_grown (p ++ [x]).
Proof.
  intros Hg Hy Hs i z Hz.
  destruct (decide (S i < length p)%nat) as [Hlt|Hge].
  - rewrite lookup_app_l in Hz by done.
    destruct (Hg i z Hz) as (j & w & Hj & Hw & Hsw).
    exists j, w. split; [done|]. split; [|done].
    rewrite lookup_app_l; [done|lia].
  - apply list_elem_of_lookup_1 in Hy as [j Hj].
    pose proof (lookup_lt_Some _ _ _ Hj) as Hjlt.
    rewrite lookup_app_r in Hz by lia.
    destruct (S i - length p)%nat as [|n] eqn:Hn; [|by destruct n].
    simpl in Hz. simplify_eq.
    exists j, y. split; [lia|]. split; [|done].
    by rewrite lookup_app_l.
Qed.

Lemma anneal_step_trace rb rr ex T c start k s s' :
  trace_inv start s → anneal_step rb rr ex T c k s = Ret s' →
  trace_inv start s'.
Proof.
  intros [Hh Hr Hc Hb Hg]. unfold anneal_step.
  destruct (get_neighbors (current_state s)) as [ns| |] eqn:Hns; try done.
  cbn [mbind result_bind].
  destruct (random_choice rb k ns) as [next| |] eqn:Hnext; try done.
  cbn [mbind result_bind].
  destruct (manhattan_distance next) as [e| |]; try done.
  cbn [mbind result_bind].
  destruct (anneal_accept rr ex k s next e) as [s1| |] eqn:Hacc; try done.
  cbn [mbind result_bind]. intros ?; simplify_eq.
  destruct (anneal_cool_cases T c s1) as (Hp & Hbest & Hcur).
  assert (trace_inv start s1) as [Hh1 Hr1 Hc1 Hb1 Hg1].
  { apply anneal_accept_cases in Hacc as [->|(Hcur1 & Hp1 & Hb1)]; [done|].
    rewrite Forall_forall in Hr. destruct (Hr _ Hc) as [Hv Hreach].
    assert (step (current_state s) next) as Hstep.
    { exists ns. split; [done|by eapply random_choice_elem_of]. }
    split.
    - rewrite Hp1. by destruct (path s).
    - rewrite Hp1. apply Forall_app. split; [by apply Forall_forall|].
      apply Forall_singleton.
      split; [by eapply step_valid|by eapply reachable_step].
    - rewrite Hp1, Hcur1. apply elem_of_app. right. apply list_elem_of_here.
    - rewrite Hp1. apply elem_of_app.
      destruct Hb1 as [->| ->]; [by left|right; apply list_elem_of_here].
    - rewrite Hp1. eapply trace_grown_snoc; [done|exact Hc|].
      by apply step_blank_swap. }
  split; rewrite ?Hp, ?Hbest; try done.
  by destruct Hcur as [->| ->].
Qed.

Lemma anneal_loop_trace rb rr ex T c start iterations :
  ∀ s p,
    trace_inv start s →
    anneal_loop rb rr ex T c iterations s = Ret (Some p) →
    head p = Some start ∧
    Forall (λ x, valid_state x ∧ reachable start x) p ∧ trace_grown p.
Proof.
  induction iterations as [|k iterations IH]; intros s p Hinv Hr.
  - simpl in Hr. simplify_eq. split_and!; apply Hinv.
  - cbn [anneal_loop] in Hr. destruct (current_energy s =? 0).
    + simplify_eq. split_and!; apply Hinv.
    + destruct (anneal_step rb rr ex T c k s) as [s'| |] eqn:Hstep; try done.
      cbn [mbind result_bind] in Hr.
      eapply IH; [|done]. by eapply anneal_step_trace.
Qed.

(** X13: whatever the parameters and the random draws, a trace returned by
    [solve_simulated_annealing] holds configurations only, each of them
    reachable from the start by legal moves, and every entry but the first
    is one legal move away from an earlier entry; on an unsolvable start the
    goal is not in the trace. *)
Theorem solve_simulated_annealing_trace_reachable
    rb rr ex max_iterations initial_temp cooling_rate st p :
  valid_state st →
  solve_simulated_annealing rb rr ex max_iterations initial_temp
    cooling_rate st = Ret (Some p) →
  Forall (λ x, valid_state x ∧ ∃ n, swap_reach n st x) p ∧
  trace_grown p ∧
  (¬ solvable st → goal_state ∉ p).
Proof.
  intros Hv. unfold solve_simulated_annealing.
  destruct (manhattan_distance st) as [e| |]; try done.
  cbn [mbind result_bind]. intros Hr.
  eapply (anneal_loop_trace _ _ _ _ _ st) in Hr as (_ & Hreach & Hg).
  - rewrite Forall_forall in Hreach.
    split; [|split; [done|]].
    + apply Forall_forall. intros x Hx.
      destruct (Hreach x Hx) as [Hvx [n Hn]]. split; [done|].
      exists n. by apply reach_iff_swap_reach.
    + intros Hun Hin. destruct (Hreach _ Hin) as [_ Hr].
      by apply Hun, reachable_iff_solvable.
  - split; cbn.
    + done.
    + apply Forall_singleton. split; [done|]. exists 0%nat. constructor.
    + apply list_elem_of_here.
    + apply list_elem_of_here.
    + intros i x Hx. by destruct i.
Qed.

Lemma solve_simulated_annealing_trace_reachable_witness :
  valid_state two_move_state ∧
  solve_simulated_annealing (λ _ _, 0%nat) (λ _, 0%float) (λ _, 1%float)
    2 1%float 0.995%float two_move_state =
  Ret (Some [two_move_state; [[1; 2; 3]; [0; 5; 6]; [4; 7; 8]];
             [[0; 2; 3]; [1; 5; 6]; [4; 7; 8]]]) ∧
  Forall (λ x, valid_state x ∧ ∃ n, swap_reach n two_move_state x)
    [two_move_state; [[1; 2; 3]; [0; 5; 6]; [4; 7; 8]];
     [[0; 2; 3]; [1; 5; 6]; [4; 7; 8]]] ∧
  trace_grown [two_move_state; [[1; 2; 3]; [0; 5; 6]; [4; 7; 8]];
               [[0; 2; 3]; [1; 5; 6]; [4; 7; 8]]] ∧
  (¬ solvable two_move_state →
   goal_state ∉ [two_move_state; [[1; 2; 3]; [0; 5; 6]; [4; 7; 8]];
                 [[0; 2; 3]; [1; 5; 6]; [4; 7; 8]]]).
Proof.
  split; [exact two_move_state_valid|].
  split; [exact solve_simulated_annealing_run|].
  exact (solve_simulated_annealing_trace_reachable _ _ _ _ _ _ _ _
           two_move_state_valid solve_simulated_annealing_run).
Defined.

(** X14: with [initial_temp = 0] the acceptance test divides by zero: when
    the heuristic of the start is not 0, [max_iterations] is positive and
    the neighbour drawn in the first iteration is no improvement,
    [solve_simulated_annealing] raises [ZeroDivisionError]. *)
Theorem solve_simulated_annealing_zero_temp_raises
    rb rr ex max_iterations cooling_rate st e ns next e' :
  0 < max_iterations →
  manhattan_distance st = Ret e → e ≠ 0 →
  get_neighbors st = Ret ns → random_choice rb 0 ns = Ret next →
  manhattan_distance next = Ret e' → e ≤ e' →
  solve_simulated_annealing rb rr ex max_iterations 0%float cooling_rate st =
  Raise ZeroDivisionError.
Proof.
  intros Hmax He He0 Hns Hnext He' Hle. unfold solve_simulated_annealing.
  rewrite He. cbn [mbind result_bind].
  destruct (Z.to_nat max_iterations) as [|n] eqn:Hn; [lia|].
  cbn [seq anneal_loop current_energy].
  destruct (Z.eqb_spec e 0) as [?|_]; [done|].
  unfold anneal_step. cbn [current_state]. rewrite Hns.
  cbn [mbind result_bind]. rewrite Hnext. cbn [mbind result_bind].
  rewrite He'. cbn [mbind result_bind].
  unfold anneal_accept. cbn [current_energy temperature].
  destruct (Z.ltb_spec e' e) as [?|_]; [lia|]. reflexivity.
Qed.

Lemma solve_simulated_annealing_zero_temp_raises_witness :
  0 < 1 ∧ manhattan_distance two_move_state = Ret 2 ∧ 2 ≠ 0 ∧
  get_neighbors two_move_state =
    Ret [[[1; 2; 3]; [0; 5; 6]; [4; 7; 8]]; one_move_state] ∧
  random_choice (λ _ _, 0%nat) 0
    [[[1; 2; 3]; [0; 5; 6]; [4; 7; 8]]; one_move_state] =
    Ret [[1; 2; 3]; [0; 5; 6]; [4; 7; 8]] ∧
  manhattan_distance [[1; 2; 3]; [0; 5; 6]; [4; 7; 8]] = Ret 3 ∧ 2 ≤ 3 ∧
  solve_simulated_annealing (λ _ _, 0%nat) (λ _, 0%float) (λ _, 1%float)
    1 0%float 0.995%float two_move_state = Raise ZeroDivisionError.
Proof.
  do 2 (split; [reflexivity|]). split; [discriminate|].
  do 3 (split; [reflexivity|]). split; [discriminate|].
  exact (solve_simulated_annealing_zero_temp_raises (λ _ _, 0%nat)
           (λ _, 0%float) (λ _, 1%float) 1 0.995%float two_move_state 2
           [[[1; 2; 3]; [0; 5; 6]; [4; 7; 8]]; one_move_state]
           [[1; 2; 3]; [0; 5; 6]; [4; 7; 8]] 3
           eq_refl eq_refl ltac:(discriminate) eq_refl eq_refl eq_refl
           ltac:(discriminate)).
Defined.

(** ** The constructor *)

Lemma range_step_0_9_3 : range_step 0 9 3 = Ret [0; 3; 6].
Proof. reflexivity. Qed.

Lemma init_rows (a b c d e f g h i : Z) :
  map (λ k, slice [a; b; c; d; e; f; g; h; i] k (k + 3)) [0; 3; 6] =
  [[a; b; c]; [d; e; f]; [g; h; i]].
Proof. reflexivity. Qed.

Lemma length_9_inv (l : list Z) :
  length l = 9%nat → ∃ a b c d e f g h i, l = [a; b; c; d; e; f; g; h; i].
Proof.
  intros Hl.
  destruct l as [|a [|b [|c [|d [|e [|f [|g [|h [|i [|]]]]]]]]]];
    try discriminate.
  by exists a, b, c, d, e, f, g, h, i.
Qed.

(** X15: when [random.shuffle] leaves a permutation of 0..8, the constructor
    called without argument stores a configuration: a 3x3 grid holding
    every value of 0..8 once, whose rows in reading order are the shuffled
    list. *)
Theorem EightPuzzle_init_random shuffle :
  shuffle (range 9) ≡ₚ range 9 →
  ∃ st, EightPuzzle_init shuffle None = Ret st ∧
        valid_state st ∧ concat st = shuffle (range 9).
Proof.
  intros Hp. unfold EightPuzzle_init. rewrite range_step_0_9_3.
  cbn [mbind result_bind].
  destruct (length_9_inv (shuffle (range 9)))
    as (a & b & c & d & e & f & g & h & i & Heq).
  { by rewrite Hp. }
  rewrite Heq in *. rewrite init_rows. eexists. split; [done|].
  split; [|done]. by apply valid_state_grid.
Qed.

Lemma EightPuzzle_init_random_witness :
  (λ _ : list Z, [1; 2; 3; 4; 5; 6; 7; 0; 8]) (range 9) ≡ₚ range 9 ∧
  ∃ st, EightPuzzle_init (λ _, [1; 2; 3; 4; 5; 6; 7; 0; 8]) None = Ret st ∧
        valid_state st ∧
        concat st = (λ _ : list Z, [1; 2; 3; 4; 5; 6; 7; 0; 8]) (range 9).
Proof.
  assert ((λ _ : list Z, [1; 2; 3; 4; 5; 6; 7; 0; 8]) (range 9) ≡ₚ range 9)
    as Hp by (apply (bool_decide_unpack _); vm_compute; exact I).
  split; [exact Hp|].
  exact (EightPuzzle_init_random (λ _, [1; 2; 3; 4; 5; 6; 7; 0; 8]) Hp).
Defined.

(** X16: every configuration, solvable or not, is the initial state of the
    constructor for some outcome of the shuffle: the list of its cells in
    reading order. *)
Theorem EightPuzzle_init_any_configuration st :
  valid_state st →
  concat st ≡ₚ range 9 ∧
  ∀ shuffle, shuffle (range 9) = concat st →
             EightPuzzle_init shuffle None = Ret st.
Proof.
  intros (a & b & c & d & e & f & g & h & i & -> & Hp)%valid_state_inv.
  split; [done|]. intros shuffle Hs. unfold EightPuzzle_init.
  rewrite range_step_0_9_3, Hs. reflexivity.
Qed.

Lemma EightPuzzle_init_any_configuration_witness :
  valid_state unsolvable_state ∧
  concat unsolvable_state ≡ₚ range 9 ∧
  ∀ shuffle, shuffle (range 9) = concat unsolvable_state →
             EightPuzzle_init shuffle None = Ret unsolvable_state.
Proof.
  split; [exact unsolvable_state_valid|].
  exact (EightPuzzle_init_any_configuration unsolvable_state
           unsolvable_state_valid).
Defined.

(** ** The driver *)

(** A run of the driver on a configuration one move from the goal, with
    draws that move the blank to and fro: the annealing uses up its 10000
    iterations and reports its trace as a solution. *)
Example main_run :
  main (λ _, [1; 2; 3; 4; 5; 6; 7; 0; 8]) (λ _ _, 1%nat) (λ _, 0%float)
       (λ _, 1%float) 10 =
  ([ "Initial state:"; "[1, 2, 3]"; "[4, 5, 6]"; "[7, 0, 8]";
     newline +:+ "Goal state:"; "[1, 2, 3]"; "[4, 5, 6]"; "[7, 8, 0]";
     newline +:+ "Solving with BFS...";
     "BFS found a solution in 1 moves";
     newline +:+ "Solving with Bidirectional Search...";
     "Bidirectional Search found a solution in 1 moves";
     newline +:+ "Solving with Simulated Annealing...";
     "Simulated Annealing found a solution in 10001 moves" ], Ret tt).
Proof. vm_compute. reflexivity. Qed.

Lemma print_rows_eq rows : print_rows rows = (map str_list rows, Ret tt).
Proof.
  induction rows as [|row rows IH]; [done|].
  cbn [print_rows]. rewrite IH. reflexivity.
Qed.

(** Under the default schedule the annealing returns a trace of at most
    [max_iterations] moves, the start alone when the start is the goal. *)
Lemma solve_simulated_annealing_default rb rr ex st max_iterations :
  (∀ x, PrimFloat.leb x 0%float = true →
        PrimFloat.is_nan (ex x) = false ∧
        PrimFloat.is_infinity (ex x) = false) →
  valid_state st →
  ∃ rest,
    solve_simulated_annealing rb rr ex max_iterations 1%float 0.995%float st
      = Ret (Some (st :: rest)) ∧
    (length rest ≤ Z.to_nat max_iterations)%nat ∧
    (st = goal_state → rest = []).
Proof.
  intros Hexp Hv. unfold solve_simulated_annealing.
  destruct (valid_manhattan _ Hv) as (e & He & Her & He0). rewrite He.
  cbn [mbind result_bind].
  destruct (anneal_loop_inv rb rr ex Hexp st (Z.to_nat max_iterations) 0
              (Annealing st e st e 1%float [st]))
    as (p & Hp & (rest & -> & Hlen) & Hpre).
  { split; cbn; try done.
    - exists []. by split.
    - intros Hne x ->%list_elem_of_singleton ->. by apply Hne, He0.
    - intros [|i] x Hi Hlt; simpl in Hlt; lia. }
  exists rest. split; [done|]. split; [done|].
  intros ->. destruct rest as [|x rest]; [done|].
  destruct (Hpre 0%nat goal_state); [done|simpl; lia|done].
Qed.

(** What the driver prints, in terms of what the three solvers return. *)
Lemma main_output shuffle rb rr ex fuel :
  shuffle (range 9) ≡ₚ range 9 →
  (∀ x, PrimFloat.leb x 0%float = true →
        PrimFloat.is_nan (ex x) = false ∧
        PrimFloat.is_infinity (ex x) = false) →
  (state_space < fuel)%nat →
  ∃ st bfs bi rest,
    EightPuzzle_init shuffle None = Ret st ∧ valid_state st ∧
    solve_bfs fuel st = Ret bfs ∧ bfs_post st bfs ∧
    solve_bidirectional fuel st = Ret bi ∧
    match bi with
    | Some q =>
        ∃ pf pb m, q = pf ++ reverse pb ∧
                   path_to st pf m ∧ path_to goal_state pb m
    | None => ¬ reachable st goal_state
    end ∧
    (length rest ≤ Z.to_nat 10000)%nat ∧ (st = goal_state → rest = []) ∧
    main shuffle rb rr ex fuel =
    ("Initial state:" :: map str_list st ++
     [ newline +:+ "Goal state:"; "[1, 2, 3]"; "[4, 5, 6]"; "[7, 8, 0]";
       newline +:+ "Solving with BFS...";
       report_line "BFS" bfs;
       newline +:+ "Solving with Bidirectional Search...";
       report_line "Bidirectional Search" bi;
       newline +:+ "Solving with Simulated Annealing...";
       report_line "Simulated Annealing" (Some (st :: rest)) ], Ret tt).
Proof.
  intros Hp Hexp Hfuel.
  destruct (length_9_inv (shuffle (range 9)))
    as (a & b & c & d & e & f & g & h & i & Heq); [by rewrite Hp|].
  assert (EightPuzzle_init shuffle None =
          Ret [[a; b; c]; [d; e; f]; [g; h; i]]) as Hinit.
  { unfold EightPuzzle_init. rewrite range_step_0_9_3, Heq. reflexivity. }
  assert (valid_state [[a; b; c]; [d; e; f]; [g; h; i]]) as Hv.
  { apply valid_state_grid. by rewrite <- Heq. }
  set (st := [[a; b; c]; [d; e; f]; [g; h; i]]) in *.
  destruct (solve_bfs_correct st Hv fuel Hfuel) as (bfs & Hbfs & Hpost).
  destruct (solve_bidirectional_correct st Hv) as (bi & Hbi & Hpost').
  specialize (Hbi fuel Hfuel).
  destruct (solve_simulated_annealing_default rb rr ex st 10000 Hexp Hv)
    as (rest & Hsa & Hlen & Hgoal).
  exists st, bfs, bi, rest.
  do 6 (split; [done|]). split; [exact Hlen|]. split; [done|].
  unfold main. rewrite Hinit. unfold call at 1. cbn [io_bind].
  rewrite Hbfs, Hbi, Hsa, !print_rows_eq. reflexivity.
Qed.

Lemma swap_reach_0_inv st st' : swap_reach 0 st st' → st = st'.
Proof. by inversion 1. Qed.

Lemma lookup_after_rows st (l : list string) k :
  valid_state st →
  ("Initial state:" :: map str_list st ++ l) !! (4 + k)%nat = l !! k.
Proof.
  by intros (a & b & c & d & e & f & g & h & i & -> & _)%valid_state_inv.
Qed.

Lemma length_after_rows st (l : list string) :
  valid_state st →
  length ("Initial state:" :: map str_list st ++ l) = (4 + length l)%nat.
Proof.
  by intros (a & b & c & d & e & f & g & h & i & -> & _)%valid_state_inv.
Qed.

(** X17: the driver on a random puzzle, with its searches given more than
    [state_space] iterations, ends without an exception.  After the
    searches it prints that no solution was found both when the initial
    state cannot be solved and when it is the goal already, the empty path
    being false; otherwise the breadth-first search reports the least number
    of moves, and the bidirectional search a number at least as large. *)
Theorem main_search_reports shuffle rb rr ex fuel :
  shuffle (range 9) ≡ₚ range 9 →
  (∀ x, PrimFloat.leb x 0%float = true →
        PrimFloat.is_nan (ex x) = false ∧
        PrimFloat.is_infinity (ex x) = false) →
  (state_space < fuel)%nat →
  ∃ st out,
    EightPuzzle_init shuffle None = Ret st ∧
    main shuffle rb rr ex fuel = (out, Ret tt) ∧
    (st = goal_state ∨ ¬ solvable st →
     out !! 9%nat = Some "BFS could not find a solution" ∧
     out !! 11%nat =
       Some "Bidirectional Search could not find a solution") ∧
    (st ≠ goal_state → ∀ n, swap_distance st goal_state n →
     out !! 9%nat =
       Some ("BFS found a solution in " +:+ str (Z.of_nat n) +:+ " moves") ∧
     ∃ m, (n ≤ m)%nat ∧
       out !! 11%nat =
         Some ("Bidirectional Search found a solution in " +:+
               str (Z.of_nat m) +:+ " moves")).
Proof.
  intros Hp Hexp Hfuel.
  destruct (main_output shuffle rb rr ex fuel Hp Hexp Hfuel)
    as (st & bfs & bi & rest & Hinit & Hv & Hbfs & Hpost & Hbi & Hpost' & _
        & _ & Hmain).
  exists st. eexists. split; [done|]. split; [exact Hmain|].
  rewrite (lookup_after_rows st _ 5 Hv), (lookup_after_rows st _ 7 Hv).
  cbn [lookup list_lookup].
  split.
  - intros Hcase.
    assert (bfs = None ∨ bfs = Some []) as Hb1.
    { destruct bfs as [p|]; [|by left]. right. destruct Hpost as [Hpath Hmin].
      destruct Hcase as [->|Hun].
      - specialize (Hmin 0%nat (reach_O _)).
        destruct p; [done|simpl in Hmin; lia].
      - destruct Hun. apply reachable_iff_solvable; [done|].
        exists (length p). by apply path_to_reach. }
    assert (bi = None ∨ bi = Some []) as Hb2.
    { destruct Hcase as [->|Hun].
      - right. destruct fuel as [|fuel]; [lia|].
        assert (solve_bidirectional (S fuel) goal_state = Ret (Some []))
          as Hrun by (vm_compute; reflexivity).
        congruence.
      - destruct bi as [q|]; [|by left].
        destruct Hpost' as (pf & pb & m & -> & Hf & Hb). destruct Hun.
        apply reachable_iff_solvable; [done|].
        eexists. by eapply meeting_reach. }
    destruct Hb1 as [-> | ->], Hb2 as [-> | ->]; split; reflexivity.
  - intros Hne n [Hn Hmin].
    assert (n ≠ 0%nat) as Hn0.
    { intros ->. by apply swap_reach_0_inv in Hn. }
    destruct bfs as [p|]; cycle 1.
    { destruct Hpost. exists n. by apply reach_iff_swap_reach. }
    destruct Hpost as [Hpath Hmin'].
    assert (length p = n) as Hlen.
    { apply Nat.le_antisymm.
      - apply Hmin'. by apply reach_iff_swap_reach.
      - apply Hmin. by apply reach_iff_swap_reach, path_to_reach. }
    destruct bi as [q|]; cycle 1.
    { destruct Hpost'. exists n. by apply reach_iff_swap_reach. }
    destruct Hpost' as (pf & pb & m & Hq & Hf & Hb).
    assert (n ≤ length q)%nat as Hle.
    { subst q. apply Hmin, reach_iff_swap_reach; [done|].
      by eapply meeting_reach. }
    destruct p as [|x p]; [simpl in Hlen; lia|].
    destruct q as [|y q]; [simpl in Hle; lia|].
    split; [by rewrite <- Hlen|]. exists (length (y :: q)). by split.
Qed.

Lemma main_search_reports_witness :
  (λ _ : list Z, [1; 2; 3; 4; 5; 6; 7; 0; 8]) (range 9) ≡ₚ range 9 ∧
  (∀ x, PrimFloat.leb x 0%float = true →
        PrimFloat.is_nan ((λ _, 1%float) x) = false ∧
        PrimFloat.is_infinity ((λ _, 1%float) x) = false) ∧
  (state_space < S state_space)%nat ∧
  ∃ st out,
    EightPuzzle_init (λ _, [1; 2; 3; 4; 5; 6; 7; 0; 8]) None = Ret st ∧
    main (λ _, [1; 2; 3; 4; 5; 6; 7; 0; 8]) (λ _ _, 0%nat) (λ _, 0%float)
      (λ _, 1%float) (S state_space) = (out, Ret tt) ∧
    (st = goal_state ∨ ¬ solvable st →
     out !! 9%nat = Some "BFS could not find a solution" ∧
     out !! 11%nat =
       Some "Bidirectional Search could not find a solution") ∧
    (st ≠ goal_state → ∀ n, swap_distance st goal_state n →
     out !! 9%nat =
       Some ("BFS found a solution in " +:+ str (Z.of_nat n) +:+ " moves") ∧
     ∃ m, (n ≤ m)%nat ∧
       out !! 11%nat =
         Some ("Bidirectional Search found a solution in " +:+
               str (Z.of_nat m) +:+ " moves")).
Proof.
  assert ((λ _ : list Z, [1; 2; 3; 4; 5; 6; 7; 0; 8]) (range 9) ≡ₚ range 9)
    as Hp by (apply (bool_decide_unpack _); vm_compute; exact I).
  assert (∀ x : float, PrimFloat.leb x 0%float = true →
            PrimFloat.is_nan ((λ _, 1%float) x) = false ∧
            PrimFloat.is_infinity ((λ _, 1%float) x) = false) as Hexp
    by (intros x _; split; reflexivity).
  split; [exact Hp|]. split; [exact Hexp|].
  split; [exact (Nat.lt_succ_diag_r state_space)|].
  exact (main_search_reports (λ _, [1; 2; 3; 4; 5; 6; 7; 0; 8]) (λ _ _, 0%nat)
           (λ _, 0%float) (λ _, 1%float) (S state_space) Hp Hexp
           (Nat.lt_succ_diag_r state_space)).
Defined.

(** X18: whatever the puzzle and the random draws, solvable or not, the
    driver makes fourteen calls of [print], and the last one reports that
    the annealing found a solution, in as many moves as its trace has
    entries: between 1 and 10001, and 1 when the initial state is the
    goal. *)
Theorem main_annealing_reports_success shuffle rb rr ex fuel :
  shuffle (range 9) ≡ₚ range 9 →
  (∀ x, PrimFloat.leb x 0%float = true →
        PrimFloat.is_nan (ex x) = false ∧
        PrimFloat.is_infinity (ex x) = false) →
  (state_space < fuel)%nat →
  ∃ st out k,
    EightPuzzle_init shuffle None = Ret st ∧
    main shuffle rb rr ex fuel = (out, Ret tt) ∧
    length out = 14%nat ∧
    out !! 13%nat =
      Some ("Simulated Annealing found a solution in " +:+ str k +:+
            " moves") ∧
    1 ≤ k ≤ 10001 ∧ (st = goal_state → k = 1).
Proof.
  intros Hp Hexp Hfuel.
  destruct (main_output shuffle rb rr ex fuel Hp Hexp Hfuel)
    as (st & bfs & bi & rest & Hinit & Hv & _ & _ & _ & _ & Hlen & Hgoal
        & Hmain).
  exists st. eexists. exists (Z.of_nat (length (st :: rest))).
  split; [done|]. split; [exact Hmain|].
  rewrite (lookup_after_rows st _ 9 Hv), (length_after_rows st _ Hv).
  split; [done|]. split; [done|].
  change (length (st :: rest)) with (S (length rest)). split; [lia|].
  intros Hg. by rewrite (Hgoal Hg).
Qed.

Lemma main_annealing_reports_success_witness :
  (λ _ : list Z, [2; 1; 3; 4; 5; 6; 7; 8; 0]) (range 9) ≡ₚ range 9 ∧
  (∀ x, PrimFloat.leb x 0%float = true →
        PrimFloat.is_nan ((λ _, 1%float) x) = false ∧
        PrimFloat.is_infinity ((λ _, 1%float) x) = false) ∧
  (state_space < S state_space)%nat ∧
  ∃ st out k,
    EightPuzzle_init (λ _, [2; 1; 3; 4; 5; 6; 7; 8; 0]) None = Ret st ∧
    main (λ _, [2; 1; 3; 4; 5; 6; 7; 8; 0]) (λ _ _, 0%nat) (λ _, 0%float)
      (λ _, 1%float) (S state_space) = (out, Ret tt) ∧
    length out = 14%nat ∧
    out !! 13%nat =
      Some ("Simulated Annealing found a solution in " +:+ str k +:+
            " moves") ∧
    1 ≤ k ≤ 10001 ∧ (st = goal_state → k = 1).
Proof.
  assert ((λ _ : list Z, [2; 1; 3; 4; 5; 6; 7; 8; 0]) (range 9) ≡ₚ range 9)
    as Hp by (apply (bool_decide_unpack _); vm_compute; exact I).
  assert (∀ x : float, PrimFloat.leb x 0%float = true →
            PrimFloat.is_nan ((λ _, 1%float) x) = false ∧
            PrimFloat.is_infinity ((λ _, 1%float) x) = false) as Hexp
    by (intros x _; split; reflexivity).
  split; [exact Hp|]. split; [exact Hexp|].
  split; [exact (Nat.lt_succ_diag_r state_space)|].
  exact (main_annealing_reports_success (λ _, [2; 1; 3; 4; 5; 6; 7; 8; 0])
           (λ _ _, 0%nat) (λ _, 0%float) (λ _, 1%float) (S state_space) Hp
           Hexp (Nat.lt_succ_diag_r state_space)).
Defined.

(** ** Where the two sides of the bidirectional search meet *)

Lemma bidir_visit_queue path queue visited n q' v' e :
  bidir_visit path (queue, visited) n = (q', v') →
  e ∈ q' → e ∈ queue ∨ e.1 = n.
Proof.
  unfold bidir_visit. destruct (visited !! state_to_string n).
  - intros ?; simplify_eq. by left.
  - intros ? Hin; simplify_eq.
    apply elem_of_app in Hin as [?|Heq%list_elem_of_singleton];
      [by left|right; by subst].
Qed.

Lemma bidir_fold_queue path ns :
  ∀ queue visited q' v' e,
    foldl (bidir_visit path) (queue, visited) ns = (q', v') →
    e ∈ q' → e ∈ queue ∨ e.1 ∈ ns.
Proof.
  induction ns as [|n ns IH]; intros queue visited q' v' e Hf He.
  - simpl in Hf. simplify_eq. by left.
  - cbn [foldl] in Hf.
    destruct (bidir_visit path (queue, visited) n) as [q1 v1] eqn:Hv.
    destruct (IH _ _ _ _ _ Hf He) as [H1|H1].
    + destruct (bidir_visit_queue _ _ _ _ _ _ _ Hv H1) as [?|?];
        [by left|right]. subst. apply list_elem_of_here.
    + right. by apply list_elem_of_further.
Qed.

Lemma bidir_fold_visited path ns :
  ∀ queue visited q' v' k,
    foldl (bidir_visit path) (queue, visited) ns = (q', v') →
    v' !! k = None → visited !! k = None.
Proof.
  induction ns as [|n ns IH]; intros queue visited q' v' k Hf Hk.
  - simpl in Hf. by simplify_eq.
  - cbn [foldl] in Hf.
    destruct (bidir_visit path (queue, visited) n) as [q1 v1] eqn:Hv.
    specialize (IH _ _ _ _ _ Hf Hk). unfold bidir_visit in Hv.
    destruct (visited !! state_to_string n) eqn:Hn; simplify_eq; [done|].
    by apply lookup_insert_None in IH as [? _].
Qed.

Lemma path_to_nil_inv seed st : path_to seed [] st → st = seed.
Proof. intros [_ Hl]. simpl in Hl. by simplify_eq. Qed.

Lemma step_irrefl st : valid_state st → ¬ step st st.
Proof.
  intros (p & ns & H)%valid_neighbors_of (ns' & Hns & Hin).
  rewrite (neighbors_of_sound _ _ _ H) in Hns. simplify_eq.
  by apply neighbors_of_distinct in H as [_ Hn].
Qed.

Section bidir_meeting.
Variable start : state.
Hypothesis start_valid : valid_state start.

(** Once the forward side is neither at the goal nor next to it, a meeting
    takes place away from the goal: the backward path is not empty. *)
Lemma bidir_loop_meets_early fuel :
  ∀ fdone fq fv fcur bdone bq bv bcur q,
    meet_inv start fdone fq fv fcur [] →
    meet_inv goal_state bdone bq bv bcur [] →
    (∀ p, (goal_state, p) ∉ fdone ++ fq) →
    (∀ s p, (s, p) ∈ fq → bv !! state_to_string s = None →
            ¬ step goal_state s) →
    (∀ pg, (goal_state, pg) ∈ bq → ∃ bq', bq = (goal_state, pg) :: bq') →
    bidir_loop fuel fq fv bq bv = Ret (Some q) →
    ∃ pf pb m, q = pf ++ reverse pb ∧ pb ≠ [] ∧
               path_to start pf m ∧ path_to goal_state pb m.
Proof.
  induction fuel as [|fuel IH];
    intros fdone fq fv fcur bdone bq bv bcur q Hf Hb Hng Hfar Hhead Hrun;
    destruct fq as [|[st p] fq]; try done;
    destruct bq as [|[bst bp] bq]; try done.
  cbn [bidir_loop] in Hrun.
  assert ((st, p) ∈ fdone ++ (st, p) :: fq) as Hst
    by (apply elem_of_app; right; apply list_elem_of_here).
  assert ((bst, bp) ∈ bdone ++ (bst, bp) :: bq) as Hbst
    by (apply elem_of_app; right; apply list_elem_of_here).
  destruct (side_reach _ _ _ _ (meet_side _ _ _ _ _ _ Hf) st p Hst)
    as [Hv _].
  destruct (side_reach _ _ _ _ (meet_side _ _ _ _ _ _ Hb) bst bp Hbst)
    as [Hbv _].
  assert (st ≠ goal_state) as Hne by (intros ->; by apply (Hng p)).
  destruct (bv !! state_to_string st) as [x|] eqn:Hlook.
  { simplify_eq. exists p, x, st. split; [done|].
    destruct (side_visited _ _ _ _ (meet_side _ _ _ _ _ _ Hb) st Hv)
      as [[p' Hp'] _]; [by eauto|].
    destruct (meet_paths _ _ _ _ _ _ Hb st p' Hp') as [Hpath Hl].
    assert (x = p') by congruence. subst x.
    split; [by intros ->; apply path_to_nil_inv in Hpath|].
    split; [by apply (meet_paths _ _ _ _ _ _ Hf)|done]. }
  assert (¬ step goal_state st) as Hfar_st.
  { apply (Hfar st p); [apply list_elem_of_here|done]. }
  destruct (meet_inv_expand _ _ _ _ _ _ _ Hf) as (ns & Hns & Hf').
  rewrite Hns in Hrun. cbn [mbind result_bind] in Hrun.
  destruct (foldl (bidir_visit p) (fq, fv) ns) as [fq' fv'] eqn:Hfold.
  specialize (Hf' _ _ eq_refl).
  assert (∀ p', (goal_state, p') ∉ (fdone ++ [(st, p)]) ++ fq') as Hng'.
  { intros p' [[?|Heq%list_elem_of_singleton]%elem_of_app|Hin]%elem_of_app.
    - apply (Hng p'). apply elem_of_app. by left.
    - by simplify_eq.
    - destruct (bidir_fold_queue _ _ _ _ _ _ _ Hfold Hin) as [?|Hn].
      + apply (Hng p'). apply elem_of_app. right. by apply list_elem_of_further.
      + apply Hfar_st. apply step_sym; [done|]. by exists ns. }
  assert (bst ≠ goal_state ∨ fv' !! state_to_string bst = None) as Hbne.
  { destruct (fv' !! state_to_string bst) as [x|] eqn:Hlook'; [|by right].
    left. intros ->.
    destruct (side_visited _ _ _ _ (meet_side _ _ _ _ _ _ Hf') goal_state
                goal_state_valid) as [[p' Hp'] _]; [by eauto|].
    by apply (Hng' p'). }
  destruct (fv' !! state_to_string bst) as [x|] eqn:Hlook'.
  { simplify_eq. destruct Hbne as [Hbne|?]; [|done].
    exists x, bp, bst. split; [done|].
    destruct (meet_paths _ _ _ _ _ _ Hb bst bp Hbst) as [Hbpath _].
    split; [by intros ->; apply path_to_nil_inv in Hbpath|].
    split; [|done].
    destruct (side_visited _ _ _ _ (meet_side _ _ _ _ _ _ Hf') bst Hbv)
      as [[p' Hp'] _]; [by eauto|].
    destruct (meet_paths _ _ _ _ _ _ Hf' bst p' Hp') as [Hpath Hl].
    congruence. }
  destruct (meet_inv_expand _ _ _ _ _ _ _ Hb) as (bns & Hbns & Hb').
  rewrite Hbns in Hrun. cbn [mbind result_bind] in Hrun.
  destruct (foldl (bidir_visit bp) (bq, bv) bns) as [bq' bv'] eqn:Hbfold.
  specialize (Hb' _ _ eq_refl).
  assert (∃ pg, (goal_state, pg) ∈ bdone ++ [(bst, bp)]) as [pg Hpg].
  { exists []. pose proof (meet_seed _ _ _ _ _ _ Hb) as Hseed.
    apply elem_of_app in Hseed as [?|Hq]; [apply elem_of_app; by left|].
    destruct (Hhead [] Hq) as [bq0 ?]. simplify_eq.
    apply elem_of_app; right; apply list_elem_of_here. }
  eapply IH; [exact Hf'|exact Hb'|exact Hng'| | |exact Hrun].
  - intros s ps Hs Hnone Hstep.
    destruct (bidir_fold_queue _ _ _ _ _ _ _ Hfold Hs) as [Hold|Hnew].
    + apply (Hfar s ps); [by apply list_elem_of_further| |done].
      by eapply bidir_fold_visited.
    + assert (valid_state s) as Hvs
        by (eapply step_valid; [apply goal_state_valid|done]).
      destruct (meet_closed _ _ _ _ _ _ Hb' goal_state pg Hpg s Hstep)
        as [[p' Hp']|[_ []%elem_of_nil]].
      assert (is_Some (bv' !! state_to_string s)) as [? ?]; [|congruence].
      apply (side_visited _ _ _ _ (meet_side _ _ _ _ _ _ Hb')); [done|].
      by exists p'.
  - intros pg' Hin. exfalso.
    pose proof (side_nodup _ _ _ _ (meet_side _ _ _ _ _ _ Hb')) as Hnd.
    rewrite fmap_app in Hnd. apply NoDup_app in Hnd as (_ & Hdis & _).
    apply (Hdis goal_state).
    + apply list_elem_of_fmap. by exists (goal_state, pg).
    + apply list_elem_of_fmap. by exists (goal_state, pg').
Qed.

(** A start that is neither the goal nor next to it. *)
Lemma solve_bidirectional_meets_early fuel q :
  start ≠ goal_state → ¬ step start goal_state →
  solve_bidirectional fuel start = Ret (Some q) →
  ∃ pf pb m, q = pf ++ reverse pb ∧ pb ≠ [] ∧
             path_to start pf m ∧ path_to goal_state pb m.
Proof.
  intros Hne Hfar.
  apply (bidir_loop_meets_early fuel [] _ _ (start, []) [] _ _
           (goal_state, []));
    [by apply meet_inv_init|apply meet_inv_init, goal_state_valid| | |].
  - simpl. by intros p Heq%list_elem_of_singleton; simplify_eq.
  - intros s p Heq%list_elem_of_singleton _ Hs. simplify_eq.
    apply Hfar. apply step_sym; [apply goal_state_valid|done].
  - intros pg Heq%list_elem_of_singleton. simplify_eq. by exists [].
Qed.
End bidir_meeting.

Lemma swaps_from_middle a p1 x p2 y :
  swaps_from a (p1 ++ x :: p2) → last (a :: p1) = Some y → blank_swap y x.
Proof.
  revert a. induction p1 as [|z p1 IH]; intros a.
  - simpl. intros [Hs _] ?. by simplify_eq.
  - intros [_ Hs] Hl. rewrite last_cons_cons in Hl. by eapply IH.
Qed.

Lemma path_to_valid start p st :
  valid_state start → path_to start p st → valid_state st.
Proof.
  intros Hv [Hm Hl].
  pose proof (moves_from_valid _ _ Hv Hm) as Hp.
  assert (st ∈ start :: p) as [->|Hin]%elem_of_cons; [|done|].
  - destruct (last_Some (start :: p) st) as [[l' Hl'] _]; [done|].
    rewrite Hl'. apply elem_of_app. right. apply list_elem_of_here.
  - rewrite Forall_forall in Hp. by apply Hp.
Qed.

(** The list of a meeting away from the goal repeats the meeting
    configuration and stops one move short of the goal. *)
Lemma meeting_list_broken st pf pb m :
  valid_state st → pb ≠ [] →
  path_to st pf m → path_to goal_state pb m →
  ¬ swaps_from st (pf ++ reverse pb) ∧
  last (st :: pf ++ reverse pb) ≠ Some goal_state.
Proof.
  intros Hv Hpb Hf Hb.
  assert (valid_state m) as Hm by (by eapply path_to_valid).
  destruct Hb as [Hmoves Hlast]. split.
  - destruct (last_Some (goal_state :: pb) m) as [[l' Hl'] _]; [done|].
    destruct l' as [|g l']; [by destruct pb|]. simplify_eq/=.
    rewrite reverse_snoc. intros Hs.
    apply (swaps_from_middle _ _ _ _ m) in Hs; [|apply Hf].
    apply (step_irrefl m Hm). by apply blank_swap_step.
  - destruct pb as [|b1 pb]; [done|]. destruct Hmoves as [Hs _].
    rewrite reverse_cons, app_assoc.
    change (st :: (pf ++ reverse pb) ++ [b1])
      with ((st :: pf ++ reverse pb) ++ [b1]).
    rewrite last_snoc. intros ?; simplify_eq.
    by apply goal_state_not_own_neighbor.
Qed.

(** X19: the list [solve_bidirectional] returns is a chain of legal moves
    from the start to the goal exactly when the start is the goal or one
    move from it.  From every other configuration the start followed by the
    list holds the meeting configuration twice in a row, so that the list
    is no chain of legal moves, and the list does not end in the goal. *)
Theorem solve_bidirectional_path_iff_near_goal st fuel q :
  valid_state st → solve_bidirectional fuel st = Ret (Some q) →
  (swaps_from st q ∧ last (st :: q) = Some goal_state ↔
   st = goal_state ∨ blank_swap st goal_state) ∧
  (st ≠ goal_state → ¬ blank_swap st goal_state →
   (∃ l1 m l2, st :: q = l1 ++ m :: m :: l2) ∧
   ¬ swaps_from st q ∧
   last (st :: q) ≠ Some goal_state).
Proof.
  intros Hv Hrun.
  assert (st ≠ goal_state → ¬ blank_swap st goal_state →
          (∃ l1 m l2, st :: q = l1 ++ m :: m :: l2) ∧
          ¬ swaps_from st q ∧ last (st :: q) ≠ Some goal_state) as Hfar.
  { intros Hne Hnb.
    destruct (solve_bidirectional_meets_early st Hv fuel q)
      as (pf & pb & m & -> & Hpb & Hf & Hb); [done| |done|].
    { intros Hs. by apply Hnb, step_blank_swap. }
    split; [|by apply (meeting_list_broken st pf pb m)].
    destruct (last_Some (st :: pf) m) as [[l1 Hl1] _]; [apply Hf|].
    destruct (last_Some (goal_state :: pb) m) as [[l2 Hl2] _]; [apply Hb|].
    destruct l2 as [|g l2]; [by destruct pb|]. simplify_eq/=.
    exists l1, m, (reverse l2).
    change (st :: pf ++ reverse (l2 ++ [m]))
      with ((st :: pf) ++ reverse (l2 ++ [m])).
    rewrite Hl1, reverse_snoc, <- app_assoc. reflexivity. }
  split; [|exact Hfar]. split.
  - intros [Hs Hl].
    destruct (decide (st = goal_state)) as [?|Hne]; [by left|]. right.
    destruct (valid_get_neighbors _ Hv) as [ns Hns].
    destruct (decide (goal_state ∈ ns)) as [Hin|Hnin].
    { apply step_blank_swap; [done|]. by exists ns. }
    destruct Hfar as (_ & Hbad & _); [done| |done].
    intros (ns' & Hns' & Hin)%blank_swap_step; [|done]. congruence.
  - destruct fuel as [|fuel]; [done|].
    intros [->|Hs].
    + assert (solve_bidirectional (S fuel) goal_state = Ret (Some []))
        as Hq by (vm_compute; reflexivity).
      rewrite Hq in Hrun. by simplify_eq.
    + assert (q = [goal_state]) as ->; [|by split].
      apply blank_swap_step in Hs as Hstep; [|done].
      apply step_sym in Hstep as (ns & Hns & Hin); [|done].
      vm_compute in Hns. simplify_eq.
      decompose_list_elem_of; subst st; vm_compute in Hrun; by simplify_eq.
Qed.

Lemma solve_bidirectional_path_iff_near_goal_witness :
  valid_state two_move_state ∧
  solve_bidirectional 3 two_move_state =
    Ret (Some [one_move_state; one_move_state]) ∧
  (swaps_from two_move_state [one_move_state; one_move_state] ∧
   last [two_move_state; one_move_state; one_move_state] = Some goal_state ↔
   two_move_state = goal_state ∨ blank_swap two_move_state goal_state) ∧
  (two_move_state ≠ goal_state → ¬ blank_swap two_move_state goal_state →
   (∃ l1 m l2,
      [two_move_state; one_move_state; one_move_state] =
      l1 ++ m :: m :: l2) ∧
   ¬ swaps_from two_move_state [one_move_state; one_move_state] ∧
   last [two_move_state; one_move_state; one_move_state] ≠
     Some goal_state).
Proof.
  assert (solve_bidirectional 3 two_move_state =
          Ret (Some [one_move_state; one_move_state])) as Hrun
    by (vm_compute; reflexivity).
  split; [exact two_move_state_valid|]. split; [exact Hrun|].
  exact (solve_bidirectional_path_iff_near_goal two_move_state 3
           [one_move_state; one_move_state] two_move_state_valid Hrun).
Defined.

(** ** Grids with missing rows *)

Lemma find_blank_row_nonzero (st : state) i a b c rest :
  getitem st i = Ret [a; b; c] → a ≠ 0 → b ≠ 0 → c ≠ 0 →
  find_blank st ((i, 0) :: (i, 1) :: (i, 2) :: rest) = find_blank st rest.
Proof.
  intros Hrow Ha Hb Hc. cbn [find_blank]. unfold getcell. rewrite Hrow.
  cbn [mbind result_bind].
  change (getitem [a; b; c] 0) with (Ret (A:=Z) a).
  change (getitem [a; b; c] 1) with (Ret (A:=Z) b).
  change (getitem [a; b; c] 2) with (Ret (A:=Z) c).
  cbn [mbind result_bind].
  by rewrite (proj2 (Z.eqb_neq a 0)), (proj2 (Z.eqb_neq b 0)),
    (proj2 (Z.eqb_neq c 0)).
Qed.

Lemma row_nonzero_inv (row : list Z) :
  length row = 3%nat ∧ 0 ∉ row →
  ∃ a b c, row = [a; b; c] ∧ a ≠ 0 ∧ b ≠ 0 ∧ c ≠ 0.
Proof.
  intros [Hl Hn]. destruct row as [|a [|b [|c [|]]]]; try discriminate.
  exists a, b, c. rewrite !not_elem_of_cons in Hn. naive_solver.
Qed.

(** X20: a grid with fewer than three rows of three cells, none of them
    blank, makes [get_blank_position] index a missing row: it raises
    [IndexError], and so do [get_neighbors] and the first iteration of
    [solve_bfs]. *)
Theorem short_grid_raises_IndexError st fuel :
  (length st < 3)%nat → Forall (λ row, length row = 3%nat ∧ 0 ∉ row) st →
  get_blank_position st = Raise IndexError ∧
  get_neighbors st = Raise IndexError ∧
  solve_bfs (S fuel) st = Raise IndexError.
Proof.
  intros Hlen Hrows.
  assert (get_blank_position st = Raise IndexError) as Hpos.
  { unfold get_blank_position.
    change grid_cells with
      [(0, 0); (0, 1); (0, 2); (1, 0); (1, 1); (1, 2); (2, 0); (2, 1); (2, 2)].
    destruct st as [|r1 [|r2 [|r3 st]]]; [done| | |simpl in Hlen; lia].
    - apply Forall_cons in Hrows as [(a & b & c & -> & ? & ? & ?)%row_nonzero_inv _].
      by rewrite (find_blank_row_nonzero _ 0 a b c).
    - apply Forall_cons in Hrows as [(a & b & c & -> & ? & ? & ?)%row_nonzero_inv Hrows].
      apply Forall_cons in Hrows as [(d & e & f & -> & ? & ? & ?)%row_nonzero_inv _].
      rewrite (find_blank_row_nonzero _ 0 a b c) by done.
      by rewrite (find_blank_row_nonzero _ 1 d e f). }
  assert (get_neighbors st = Raise IndexError) as Hns.
  { unfold get_neighbors. by rewrite Hpos. }
  assert (is_goal st = false) as Hgoal.
  { apply bool_decide_eq_false. intros ->. simpl in Hlen. lia. }
  split; [done|]. split; [done|].
  unfold solve_bfs. cbn [bfs_loop]. by rewrite Hgoal, Hns.
Qed.

Lemma short_grid_raises_IndexError_witness :
  (length [[1; 2; 3]; [4; 5; 6]] < 3)%nat ∧
  Forall (λ row, length row = 3%nat ∧ 0 ∉ row) [[1; 2; 3]; [4; 5; 6]] ∧
  get_blank_position [[1; 2; 3]; [4; 5; 6]] = Raise IndexError ∧
  get_neighbors [[1; 2; 3]; [4; 5; 6]] = Raise IndexError ∧
  solve_bfs 1 [[1; 2; 3]; [4; 5; 6]] = Raise IndexError.
Proof.
  assert (length [[1; 2; 3]; [4; 5; 6]] < 3)%nat as Hlen by (simpl; lia).
  assert (Forall (λ row, length row = 3%nat ∧ 0 ∉ row)
            [[1; 2; 3]; [4; 5; 6]]) as Hrows.
  { repeat constructor; rewrite !not_elem_of_cons;
      split_and?; try discriminate; apply not_elem_of_nil. }
  split; [exact Hlen|]. split; [exact Hrows|].
  exact (short_grid_raises_IndexError [[1; 2; 3]; [4; 5; 6]] 0 Hlen Hrows).
Defined.

(** ** The path conventions of the three solvers *)





